(** * Kohya LoRA manager: a shallow embedding of
    [ldm/modules/kohya_lora_manager.py] and the properties of its
    specification.

    The Python module patches low-rank ("LoRA") and Hadamard ("LoHA") weight
    deltas onto the linear and convolutional layers of a text encoder and a
    UNet through forward hooks.  The embedding follows the source class by
    class: [LoRALayer], [LoHALayer], [LoRAModuleWrapper], [LoRA] and
    [KohyaLoraManager].  Python dictionaries are insertion-ordered association
    lists, exceptions are an error result, and [torch] is an interface whose
    operations the layers call. *)

From Stdlib Require Import List String Ascii Bool Arith Lia.
From Stdlib Require Import ZArith QArith Floats.
Import ListNotations.

Local Open Scope string_scope.
Local Open Scope list_scope.
Local Open Scope nat_scope.

Set Implicit Arguments.
Set Warnings "-register-all".

(** ** Python results *)

(** The exceptions the module can let escape. *)
Inductive exn : Type :=
| ValueError
| KeyError (key : string)
| IndexError
| TypeError
| RuntimeError.

(** A computation either returns a value or raises. *)
Inductive result (A : Type) : Type :=
| Ok (a : A)
| Raise (e : exn).

Arguments Ok {A} a.
Arguments Raise {A} e.

Definition bind {A B : Type} (m : result A) (k : A -> result B) : result B :=
  match m with
  | Ok a => k a
  | Raise e => Raise e
  end.

Notation "x <- m ;; k" := (bind m (fun x => k))
  (at level 61, m at next level, right associativity).

(** ** Insertion-ordered dictionaries

    A Python [dict] keeps its keys in insertion order; assigning to a key that
    is already present replaces the value and keeps the position. *)

Definition odict (V : Type) : Type := list (string * V).

Fixpoint od_get {V : Type} (d : odict V) (k : string) : option V :=
  match d with
  | [] => None
  | (k', v) :: d' => if String.eqb k k' then Some v else od_get d' k
  end.

Definition od_mem {V : Type} (d : odict V) (k : string) : bool :=
  match od_get d k with
  | Some _ => true
  | None => false
  end.

Fixpoint od_set {V : Type} (d : odict V) (k : string) (v : V) : odict V :=
  match d with
  | [] => [(k, v)]
  | (k', v') :: d' =>
      if String.eqb k k' then (k, v) :: d' else (k', v') :: od_set d' k v
  end.

Fixpoint od_del {V : Type} (d : odict V) (k : string) : odict V :=
  match d with
  | [] => []
  | (k', v') :: d' =>
      if String.eqb k k' then d' else (k', v') :: od_del d' k
  end.

Definition od_keys {V : Type} (d : odict V) : list string := map fst d.
Definition od_values {V : Type} (d : odict V) : list V := map snd d.

(** [d[k]]: a missing key raises [KeyError]. *)
Definition od_index {V : Type} (d : odict V) (k : string) : result V :=
  match od_get d k with
  | Some v => Ok v
  | None => Raise (KeyError k)
  end.

(** ** Python string methods *)

Definition dot : ascii := "."%char.
Definition underscore : ascii := "_"%char.

(** [key.split(".", 1)]: the parts before and after the first dot, or the
    whole string alone when it has no dot. *)
Fixpoint split_first_dot (s : string) : string * option string :=
  match s with
  | EmptyString => (EmptyString, None)
  | String c s' =>
      if Ascii.eqb c dot then (EmptyString, Some s')
      else let (a, b) := split_first_dot s' in (String c a, b)
  end.

(** [s.startswith(p)] *)
Definition startswith (s p : string) : bool := String.prefix p s.

(** [p in s] for strings. *)
Fixpoint contains (s p : string) : bool :=
  String.prefix p s ||
  match s with
  | EmptyString => false
  | String _ s' => contains s' p
  end.

(** [s.endswith(p)] *)
Fixpoint endswith (s p : string) : bool :=
  String.eqb s p ||
  match s with
  | EmptyString => false
  | String _ s' => endswith s' p
  end.

(** [s.replace(".", "_")] *)
Fixpoint replace_dots (s : string) : string :=
  match s with
  | EmptyString => EmptyString
  | String c s' =>
      String (if Ascii.eqb c dot then underscore else c) (replace_dots s')
  end.

(** [tuple[i]] on a shape: out of range raises [IndexError]. *)
Definition shape_at (sh : list nat) (i : nat) : result nat :=
  match nth_error sh i with
  | Some n => Ok n
  | None => Raise IndexError
  end.

(** ** The torch interface

    The module computes with [torch] tensors and Python floats.  The class
    below lists the operations the source calls, with the errors they can
    raise; the code is embedded over any implementation of it. *)

Class Torch (scalar Tensor Device Dtype : Type) : Type := {
  (** [scalar] is a Python [float] (multipliers, alphas and scales);
      [Tensor], [Device] and [Dtype] are [torch.Tensor], [torch.device] and
      [torch.dtype]. *)
  s_one : scalar;                          (* [1.0] *)
  s_truthy : scalar -> bool;               (* [bool(x)] *)
  s_div_int : scalar -> nat -> scalar;     (* [x / n] for a non-zero int [n] *)
  shape : Tensor -> list nat;              (* [t.shape], [t.size()] *)
  item : Tensor -> result scalar;          (* [t.item()] *)
  to_ : Tensor -> Device -> Dtype -> Tensor;
                                           (* [t.to(device=, dtype=)] *)
  fresh_copy : list nat -> Tensor -> result Tensor;
                                           (* [torch.empty(shape).copy_(t)] *)
  tadd : Tensor -> Tensor -> result Tensor;       (* [a + b] *)
  tmul : Tensor -> Tensor -> result Tensor;       (* [a * b] *)
  tmuls : Tensor -> scalar -> Tensor;             (* [a * x], [x] a float *)
  matmul : Tensor -> Tensor -> result Tensor;     (* [a @ b] *)
  reshape : Tensor -> list nat -> result Tensor;  (* [a.reshape(shape)] *)
  view : Tensor -> list nat -> result Tensor;     (* [a.view(shape)] *)
  (** [torch.einsum('i j k l, j r, i p -> p r k l', t, wb, wa)] *)
  einsum_rebuild : Tensor -> Tensor -> Tensor -> result Tensor;
  (** [torch.nn.functional.linear(x, weight, bias)] *)
  linear : Tensor -> Tensor -> option Tensor -> result Tensor;
  (** [torch.nn.functional.conv2d(x, weight, bias, stride, padding, dilation,
      groups)] *)
  conv2d : Tensor -> Tensor -> option Tensor ->
           nat * nat -> nat * nat -> nat * nat -> nat -> result Tensor
}.

Section Kohya.

Context {scalar Tensor Device Dtype : Type}.
Context {T : Torch scalar Tensor Device Dtype}.

(** ** Modules of the patched networks *)

(** The class of a module object.  [type(m) == torch.nn.Conv2d] holds for
    [TorchConv2d] only, while [m.__class__.__name__] is a string that a class
    of another library can share. *)
Inductive PyClass : Type :=
| TorchConv2d
| TorchLinear
| OtherClass (name : string).

Definition class_name (c : PyClass) : string :=
  match c with
  | TorchConv2d => "Conv2d"
  | TorchLinear => "Linear"
  | OtherClass n => n
  end.

(** The attributes the code reads on a linear or convolutional layer.  A
    linear layer has no kernel, stride, padding, dilation or groups and the
    code never reads them on one. *)
Record LayerAttrs : Type := {
  kernel_size : nat * nat;
  stride : nat * nat;
  padding : nat * nat;
  dilation : nat * nat;
  groups : nat;
  weight : Tensor;
  bias : option Tensor
}.

(** A [torch.nn.Module] with its registered children ([_modules]), in
    registration order.  [oid] is the identity of the object ([id(m)]): a
    module object that is registered under two parents occurs twice, with
    the same identity. *)
Inductive Module : Type :=
| Mod (oid : nat) (cls : PyClass) (attrs : LayerAttrs)
      (children : list (string * Module)).

Definition mod_oid (m : Module) : nat :=
  match m with Mod i _ _ _ => i end.

Definition mod_class (m : Module) : PyClass :=
  match m with Mod _ c _ _ => c end.
Definition mod_attrs (m : Module) : LayerAttrs :=
  match m with Mod _ _ a _ => a end.
Definition mod_children (m : Module) : list (string * Module) :=
  match m with Mod _ _ _ ch => ch end.

Definition is_conv2d (m : Module) : bool :=
  match mod_class m with TorchConv2d => true | _ => false end.
Definition is_linear (m : Module) : bool :=
  match mod_class m with TorchLinear => true | _ => false end.

(** The sub-transforms a low-rank delta owns: [torch.nn.Conv2d(in, out,
    kernel, stride, padding, bias=False)] or [torch.nn.Linear(in, out,
    bias=False)].  A fresh convolution has dilation 1 and one group. *)
Inductive SubModule : Type :=
| SubConv2d (in_c out_c : nat) (k s p : nat * nat) (w : Tensor)
| SubLinear (in_f out_f : nat) (w : Tensor).

(** [m(x)] *)
Definition call_sub (m : SubModule) (x : Tensor) : result Tensor :=
  match m with
  | SubConv2d _ _ _ s p w => conv2d x w None s p (1, 1) 1
  | SubLinear _ _ w => linear x w None
  end.

(** [m( *input_h )] for a linear or convolutional sub-module, whose
    [forward] takes one tensor: a tuple of any other length is a
    [TypeError]. *)
Definition call_star (f : Tensor -> result Tensor) (input_h : list Tensor)
  : result Tensor :=
  match input_h with
  | [x] => f x
  | _ => Raise TypeError
  end.

(** ** Layer deltas *)

(** [alpha / rank if (alpha and rank) else 1.0] *)
Definition scale_of (rank : option nat) (alpha : option scalar) : scalar :=
  match alpha, rank with
  | Some a, Some r =>
      if s_truthy a && negb (r =? 0) then s_div_int a r else s_one
  | _, _ => s_one
  end.

Record LoRALayer : Type := {
  lora_name : string;
  name : string;
  scale : scalar;
  up : SubModule;
  mid : option SubModule;
  down : SubModule
}.

Record LoHALayer : Type := {
  loha_lora_name : string;
  loha_name : string;
  loha_scale : scalar;
  w1_a : Tensor;
  w1_b : Tensor;
  w2_a : Tensor;
  w2_b : Tensor;
  t1 : option Tensor;
  t2 : option Tensor;
  org_module : Module
}.

(** An adapter's [layers] holds deltas of either class. *)
Inductive Layer : Type :=
| LoRA_layer (l : LoRALayer)
| LoHA_layer (l : LoHALayer).

(** [LoRALayer.forward(self, lora, input_h, output)]; of [lora] only the
    multiplier is read. *)
Definition LoRALayer_forward (self : LoRALayer) (multiplier : scalar)
  (input_h : list Tensor) (output : Tensor) : result Tensor :=
  match mid self with
  | None =>
      d <- call_star (call_sub (down self)) input_h ;;
      u <- call_sub (up self) d ;;
      tadd output (tmuls (tmuls u multiplier) (scale self))
  | Some mid_ =>
      d <- call_star (call_sub (down self)) input_h ;;
      m <- call_sub mid_ d ;;
      u <- call_sub (up self) m ;;
      tadd output (tmuls (tmuls u multiplier) (scale self))
  end.

(** The weight that the reachable part of [LoHALayer.forward] builds. *)
Definition LoHALayer_weight (self : LoHALayer) : result Tensor :=
  let org_w := weight (mod_attrs (org_module self)) in
  match t1 self with
  | None =>
      p1 <- matmul (w1_a self) (w1_b self) ;;
      p2 <- matmul (w2_a self) (w2_b self) ;;
      diff_weight <- tmul p1 p2 ;;
      r <- reshape org_w (shape diff_weight) ;;
      tadd r diff_weight
  | Some t1_ =>
      match t2 self with
      | None => Raise TypeError
      | Some t2_ =>
          rebuild1 <- einsum_rebuild t1_ (w1_b self) (w1_a self) ;;
          rebuild2 <- einsum_rebuild t2_ (w2_b self) (w2_a self) ;;
          prod <- tmul rebuild1 rebuild2 ;;
          tadd org_w prod
      end
  end.

(** [op( *input_h, w, bias, **extra_args )] with the operation and the extra
    arguments chosen from the original module.  The input tuple is spliced
    in front of the weight and the bias: with one input they are the second
    and third argument; with none the weight is taken for the input and the
    bias for the weight, and a bias of [None] is a [TypeError]; with more
    the call has too many positional arguments. *)
Definition LoHALayer_op (org : Module) (input_h : list Tensor) (w : Tensor)
  (b : option Tensor) : result Tensor :=
  let a := mod_attrs org in
  let op (x w : Tensor) (b : option Tensor) :=
    if is_conv2d org then
      conv2d x w b (stride a) (padding a) (dilation a) (groups a)
    else linear x w b in
  match input_h, b with
  | [x], _ => op x w b
  | [], Some bias_ => op w bias_ None
  | _, _ => Raise TypeError
  end.

(** [LoHALayer.forward(self, lora, input_h, output)], up to its
    unconditional [return]; the statements after it never run. *)
Definition LoHALayer_forward (self : LoHALayer) (multiplier : scalar)
  (input_h : list Tensor) (output : Tensor) : result Tensor :=
  let org := org_module self in
  w <- LoHALayer_weight self ;;
  let b := bias (mod_attrs org) in
  v <- view w (shape (weight (mod_attrs org))) ;;
  y <- LoHALayer_op org input_h v b ;;
  tadd output (tmuls (tmuls y multiplier) (loha_scale self)).

(** [layer.forward(lora, input_h, output)] *)
Definition Layer_forward (l : Layer) (multiplier : scalar)
  (input_h : list Tensor) (output : Tensor) : result Tensor :=
  match l with
  | LoRA_layer l => LoRALayer_forward l multiplier input_h output
  | LoHA_layer l => LoHALayer_forward l multiplier input_h output
  end.

(** ** Adapters and the patch registry *)

(** [class LoRA]: an adapter.  The [wrapper] attribute is a reference back to
    the registry; the methods below take the registry as an argument. *)
Record LoRA : Type := {
  adapter_name : string;
  layers : odict Layer;
  multiplier : scalar;
  device : Device;
  dtype : Dtype;
  rank : option nat;
  alpha : option scalar
}.

(** The two target networks of a registry. *)
Inductive Net : Type := TextEncoder | UNet.

(** A hook handle: the sub-layer the hook is registered on, given by its
    network and the position in the sub-module tree at which discovery
    reached it, and the identifier the hook closure captured. *)
Record Hook : Type := {
  hook_net : Net;
  hook_module : list nat;
  hook_name : string
}.

(** [class LoRAModuleWrapper]: the patch registry. *)
Record LoRAModuleWrapper : Type := {
  unet : Module;
  text_encoder : Module;
  hooks : list Hook;
  text_modules : odict Module;
  unet_modules : odict Module;
  applied_loras : odict LoRA;
  loaded_loras : odict LoRA
}.

Definition UNET_TARGET_REPLACE_MODULE : list string :=
  ["Transformer2DModel"; "Attention"; "ResnetBlock2D"; "Downsample2D";
   "Upsample2D"; "SpatialTransformer"].
Definition TEXT_ENCODER_TARGET_REPLACE_MODULE : list string :=
  ["ResidualAttentionBlock"; "CLIPAttention"; "CLIPMLP"].
Definition LORA_PREFIX_UNET : string := "lora_unet".
Definition LORA_PREFIX_TEXT_ENCODER : string := "lora_te".

(** ** The forward hook *)

(** The loop of [lora_forward] over [applied_loras.values()]. *)
Fixpoint lora_forward_loop (name : string) (loras : list LoRA)
  (input_h : list Tensor) (output : Tensor) : result Tensor :=
  match loras with
  | [] => Ok output
  | lora :: rest =>
      match od_get (layers lora) name with
      | None => lora_forward_loop name rest input_h output
      | Some layer =>
          output' <- Layer_forward layer (multiplier lora) input_h output ;;
          lora_forward_loop name rest input_h output'
      end
  end.

(** [lora_forward_hook(name)]: the closure [lora_forward(module, input_h,
    output)] installed on the sub-layer called [name].  It reads the registry
    at the time of the call and does not use [module]. *)
Definition lora_forward (wrapper : LoRAModuleWrapper) (name : string)
  (input_h : list Tensor) (output : Tensor) : result Tensor :=
  if List.length (loaded_loras wrapper) =? 0 then Ok output
  else lora_forward_loop name (od_values (applied_loras wrapper)) input_h
                         output.

(** ** Adapter parsing *)

(** [LoRA.__init__(name, device, dtype, wrapper, multiplier)] *)
Definition LoRA_init (name : string) (dev : Device) (dt : Dtype)
  (mult : scalar) : LoRA :=
  {| adapter_name := name; layers := []; multiplier := mult; device := dev;
     dtype := dt; rank := None; alpha := None |}.

Definition set_alpha (self : LoRA) (a : option scalar) : LoRA :=
  {| adapter_name := adapter_name self; layers := layers self;
     multiplier := multiplier self; device := device self;
     dtype := dtype self; rank := rank self; alpha := a |}.

Definition set_rank (self : LoRA) (r : option nat) : LoRA :=
  {| adapter_name := adapter_name self; layers := layers self;
     multiplier := multiplier self; device := device self;
     dtype := dtype self; rank := r; alpha := alpha self |}.

Definition set_layers (self : LoRA) (ls : odict Layer) : LoRA :=
  {| adapter_name := adapter_name self; layers := ls;
     multiplier := multiplier self; device := device self;
     dtype := dtype self; rank := rank self; alpha := alpha self |}.

(** How a call of [load_from_dict] ends: it falls off the end of the second
    loop, it executes one of the two early [return]s, or an exception
    escapes. *)
Inductive status : Type :=
| Finished
| Aborted
| Raised (e : exn).

Definition has_tracked_prefix (stem : string) : bool :=
  startswith stem LORA_PREFIX_TEXT_ENCODER || startswith stem LORA_PREFIX_UNET.

(** What the first loop has computed: the adapter, the leaves grouped by
    stem, the [is_loha] flag, and the exception that stopped it, if any. *)
Record Grouping : Type := {
  g_self : LoRA;
  g_groups : odict (odict Tensor);
  g_is_loha : bool;
  g_error : option exn
}.

(** The first loop of [load_from_dict], over [state_dict.items()]. *)
Fixpoint group_keys (self : LoRA) (groupped : odict (odict Tensor))
  (is_loha : bool) (items : list (string * Tensor)) : Grouping :=
  match items with
  | [] => {| g_self := self; g_groups := groupped; g_is_loha := is_loha;
             g_error := None |}
  | (key, value) :: rest =>
      match split_first_dot key with
      | (_, None) =>
          {| g_self := self; g_groups := groupped; g_is_loha := is_loha;
             g_error := Some ValueError |}
      | (stem, Some leaf) =>
          let leaves :=
            match od_get groupped stem with Some d => d | None => [] end in
          let groupped' := od_set groupped stem (od_set leaves leaf value) in
          if endswith leaf "alpha" then
            match alpha self with
            | Some _ => group_keys self groupped' is_loha rest
            | None =>
                match item value with
                | Ok a => group_keys (set_alpha self (Some a)) groupped'
                                     is_loha rest
                | Raise e =>
                    {| g_self := self; g_groups := groupped';
                       g_is_loha := is_loha; g_error := Some e |}
                end
            end
          else
            let self' :=
              if has_tracked_prefix stem then
                match rank self, shape value with
                | None, [n; _] =>
                    if String.eqb leaf "lora_down.weight"
                    then set_rank self (Some n) else self
                | _, _ => self
                end
              else self in
            let is_loha' := if contains leaf "hada_t1" then true else is_loha in
            group_keys self' groupped' is_loha' rest
      end
  end.

(** The sub-layer a stem names, by its prefix: [None] when the stem has
    neither tracked prefix, [Some None] when the registry has no such
    identifier. *)
Definition resolve (wrapper : LoRAModuleWrapper) (stem : string)
  : option (option Module) :=
  if startswith stem LORA_PREFIX_TEXT_ENCODER then
    Some (od_get (text_modules wrapper) stem)
  else if startswith stem LORA_PREFIX_UNET then
    Some (od_get (unet_modules wrapper) stem)
  else None.

(** [values["alpha"].item()] when the group has an alpha leaf. *)
Definition local_alpha (values : odict Tensor) : result (option scalar) :=
  match od_get values "alpha" with
  | None => Ok None
  | Some t => a <- item t ;; Ok (Some a)
  end.

(** The "lora and locon" branch.  [Ok None] is the early [return] for a
    wrapped module that is neither a convolution nor a linear layer. *)
Definition build_lora (self : LoRA) (wrapped : Module) (stem : string)
  (values : odict Tensor) : result (option Layer) :=
  value_down <- od_index values "lora_down.weight" ;;
  let value_mid := od_get values "lora_mid.weight" in
  value_up <- od_index values "lora_up.weight" ;;
  let a := mod_attrs wrapped in
  let dev := device self in
  let dt := dtype self in
  let finish (down_ : SubModule) (mid_ : option SubModule) (up_ : SubModule) :=
    alpha_ <- local_alpha values ;;
    Ok (Some (LoRA_layer
      {| lora_name := adapter_name self; name := stem;
         scale := scale_of (rank self) alpha_;
         up := up_; mid := mid_; down := down_ |})) in
  if is_conv2d wrapped then
    match value_mid with
    | Some value_mid =>
        d1 <- shape_at (shape value_down) 1 ;;
        d0 <- shape_at (shape value_down) 0 ;;
        m1 <- shape_at (shape value_mid) 1 ;;
        m0 <- shape_at (shape value_mid) 0 ;;
        u1 <- shape_at (shape value_up) 1 ;;
        u0 <- shape_at (shape value_up) 0 ;;
        wd <- fresh_copy [d0; d1; 1; 1] value_down ;;
        wm <- fresh_copy [m0; m1; fst (kernel_size a); snd (kernel_size a)]
                         value_mid ;;
        wu <- fresh_copy [u0; u1; 1; 1] value_up ;;
        finish (SubConv2d d1 d0 (1, 1) (1, 1) (0, 0) (to_ wd dev dt))
               (Some (SubConv2d m1 m0 (kernel_size a) (stride a) (padding a)
                                (to_ wm dev dt)))
               (SubConv2d u1 u0 (1, 1) (1, 1) (0, 0) (to_ wu dev dt))
    | None =>
        d1 <- shape_at (shape value_down) 1 ;;
        d0 <- shape_at (shape value_down) 0 ;;
        u1 <- shape_at (shape value_up) 1 ;;
        u0 <- shape_at (shape value_up) 0 ;;
        wd <- fresh_copy [d0; d1; fst (kernel_size a); snd (kernel_size a)]
                         value_down ;;
        wu <- fresh_copy [u0; u1; 1; 1] value_up ;;
        finish (SubConv2d d1 d0 (kernel_size a) (stride a) (padding a)
                          (to_ wd dev dt))
               None
               (SubConv2d u1 u0 (1, 1) (1, 1) (0, 0) (to_ wu dev dt))
    end
  else if is_linear wrapped then
    d1 <- shape_at (shape value_down) 1 ;;
    d0 <- shape_at (shape value_down) 0 ;;
    u1 <- shape_at (shape value_up) 1 ;;
    u0 <- shape_at (shape value_up) 0 ;;
    wd <- fresh_copy [d0; d1] value_down ;;
    wu <- fresh_copy [u0; u1] value_up ;;
    finish (SubLinear d1 d0 (to_ wd dev dt)) None
           (SubLinear u1 u0 (to_ wu dev dt))
  else Ok None.

(** [kernel_size != (1, 1)] *)
Definition not_1x1 (k : nat * nat) : bool :=
  negb ((fst k =? 1) && (snd k =? 1)).

(** The "loha" branch. *)
Definition build_loha (self : LoRA) (wrapped : Module) (stem : string)
  (values : odict Tensor) : result Layer :=
  let dev := device self in
  let dt := dtype self in
  alpha_ <- local_alpha values ;;
  b0 <- od_index values "hada_w1_b" ;;
  rank_ <- shape_at (shape b0) 0 ;;
  v1a <- od_index values "hada_w1_a" ;;
  v1b <- od_index values "hada_w1_b" ;;
  v2a <- od_index values "hada_w2_a" ;;
  v2b <- od_index values "hada_w2_b" ;;
  cores <- (if is_conv2d wrapped && not_1x1 (kernel_size (mod_attrs wrapped))
            then
              vt1 <- od_index values "hada_t1" ;;
              vt2 <- od_index values "hada_t2" ;;
              Ok (Some (to_ vt1 dev dt), Some (to_ vt2 dev dt))
            else Ok (None, None)) ;;
  Ok (LoHA_layer
    {| loha_lora_name := adapter_name self; loha_name := stem;
       loha_scale := scale_of (Some rank_) alpha_;
       w1_a := to_ v1a dev dt; w1_b := to_ v1b dev dt;
       w2_a := to_ v2a dev dt; w2_b := to_ v2b dev dt;
       t1 := fst cores; t2 := snd cores; org_module := wrapped |}).

(** One iteration of the second loop, up to the assignment into
    [self.layers]. *)
Inductive built : Type :=
| Skip                  (* [continue] *)
| Built (l : Layer)
| Abort                 (* [return] *)
| Fail (e : exn).

Definition build_group (wrapper : LoRAModuleWrapper) (self : LoRA)
  (stem : string) (values : odict Tensor) : built :=
  match resolve wrapper stem with
  | None => Skip
  | Some None => Skip
  | Some (Some wrapped) =>
      if od_mem values "lora_down.weight" then
        match build_lora self wrapped stem values with
        | Ok (Some l) => Built l
        | Ok None => Abort
        | Raise e => Fail e
        end
      else if od_mem values "hada_w1_b" then
        match build_loha self wrapped stem values with
        | Ok l => Built l
        | Raise e => Fail e
        end
      else Abort
  end.

(** The second loop of [load_from_dict], over the stem groups. *)
Fixpoint build_layers (wrapper : LoRAModuleWrapper) (self : LoRA)
  (groups : list (string * odict Tensor)) : LoRA * status :=
  match groups with
  | [] => (self, Finished)
  | (stem, values) :: rest =>
      match build_group wrapper self stem values with
      | Skip => build_layers wrapper self rest
      | Built l =>
          build_layers wrapper (set_layers self (od_set (layers self) stem l))
                       rest
      | Abort => (self, Aborted)
      | Fail e => (self, Raised e)
      end
  end.

(** [LoRA.load_from_dict(self, state_dict)]: the adapter after the call and
    how the call ended. *)
Definition load_from_dict (wrapper : LoRAModuleWrapper) (self : LoRA)
  (state_dict : odict Tensor) : LoRA * status :=
  let g := group_keys self [] false state_dict in
  match g_error g with
  | Some e => (g_self g, Raised e)
  | None => build_layers wrapper (g_self g) (g_groups g)
  end.

(** ** Patchable-layer discovery *)

(** [prefix + ('.' if prefix else '') + name] *)
Definition submodule_prefix (prefix name : string) : string :=
  match prefix with
  | EmptyString => name
  | _ => prefix ++ "." ++ name
  end.

(** [Module.named_modules(memo, prefix)]: the module and its descendants in
    pre-order with their dotted names, except the module objects that are in
    the memo already, and the memo afterwards.  A module that is yielded is
    put in the memo first, so that an object that is registered at several
    places is yielded once, where the traversal meets it first, and its
    descendants with it.  Each entry also carries the position in the tree
    at which the module was reached. *)
Fixpoint named_modules (memo : list nat) (prefix : string) (pos : list nat)
  (m : Module) : list (string * list nat * Module) * list nat :=
  match m with
  | Mod oid _ _ children =>
      if existsb (Nat.eqb oid) memo then ([], memo)
      else
        let rest :=
          (fix over (memo : list nat) (i : nat) (cs : list (string * Module))
             : list (string * list nat * Module) * list nat :=
             match cs with
             | [] => ([], memo)
             | (n, c) :: cs' =>
                 let r := named_modules memo (submodule_prefix prefix n)
                                        (pos ++ [i]) c in
                 let r' := over (snd r) (S i) cs' in
                 (fst r ++ fst r', snd r')
             end) (oid :: memo) 0 children in
        ((prefix, pos, m) :: fst rest, snd rest)
  end.

(** The test on a child of a container: a layer whose class is called
    "Linear", or one called "Conv2d" with a 1x1 or 3x3 kernel. *)
Definition patchable (child_module : Module) : bool :=
  let layer_type := class_name (mod_class child_module) in
  let k := kernel_size (mod_attrs child_module) in
  String.eqb layer_type "Linear"
  || (String.eqb layer_type "Conv2d"
      && (((fst k =? 1) && (snd k =? 1)) || ((fst k =? 3) && (snd k =? 3)))).

Definition is_target (targets : list string) (m : Module) : bool :=
  existsb (String.eqb (class_name (mod_class m))) targets.

(** The identifier of a child: [prefix + "." + name + "." + child_name],
    then with its dots replaced. *)
Definition dotted_name_of (prefix name child_name : string) : string :=
  prefix ++ "." ++ name ++ "." ++ child_name.

Definition lora_name_of (prefix name child_name : string) : string :=
  replace_dots (dotted_name_of prefix name child_name).

(** The inner loop of [find_modules], over the descendants of one container.
    [apply_module_forward] appends the handle of the new hook. *)
Definition collect_children (net : Net) (prefix name : string)
  (acc : odict Module * list Hook)
  (descendants : list (string * list nat * Module))
  : odict Module * list Hook :=
  fold_left
    (fun (st : odict Module * list Hook) (d : string * list nat * Module) =>
       let '(child_name, child_pos, child_module) := d in
       if patchable child_module then
         let lora_name := lora_name_of prefix name child_name in
         (od_set (fst st) lora_name child_module,
          snd st ++ [{| hook_net := net; hook_module := child_pos;
                        hook_name := lora_name |}])
       else st)
    descendants acc.

(** [find_modules(prefix, root_module, target_replace_modules)], started
    with the hooks installed so far: the mapping it returns and the hooks of
    the registry afterwards.  Each call of [named_modules()] starts with an
    empty memo. *)
Definition find_modules (net : Net) (prefix : string) (root_module : Module)
  (target_replace_modules : list string) (hooks0 : list Hook)
  : odict Module * list Hook :=
  fold_left
    (fun (st : odict Module * list Hook) (d : string * list nat * Module) =>
       let '(name, pos, module) := d in
       if is_target target_replace_modules module then
         collect_children net prefix name st
                          (fst (named_modules [] "" pos module))
       else st)
    (fst (named_modules [] "" [] root_module)) ([], hooks0).

(** [LoRAModuleWrapper.__init__(unet, text_encoder)] *)
Definition LoRAModuleWrapper_init (unet_ text_encoder_ : Module)
  : LoRAModuleWrapper :=
  let te := find_modules TextEncoder LORA_PREFIX_TEXT_ENCODER text_encoder_
                         TEXT_ENCODER_TARGET_REPLACE_MODULE [] in
  let un := find_modules UNet LORA_PREFIX_UNET unet_
                         UNET_TARGET_REPLACE_MODULE (snd te) in
  {| unet := unet_; text_encoder := text_encoder_; hooks := snd un;
     text_modules := fst te; unet_modules := fst un;
     applied_loras := []; loaded_loras := [] |}.

(** ** The manager *)

(** A [pathlib.Path] as far as the manager looks at it. *)
Record Path : Type := {
  posix : string;
  suffix : string
}.

(** The file system and the two checkpoint readers. *)
Record FileIO : Type := {
  load_file : string -> result (odict Tensor);   (* safetensors *)
  torch_load : Path -> result (odict Tensor);
  exists_ : Path -> bool
}.

Record KohyaLoraManager : Type := {
  lora_path : string;
  wrapper : LoRAModuleWrapper;
  mgr_device : Device;
  mgr_dtype : Dtype;
  loras_to_load : list string
}.

Definition set_loaded (w : LoRAModuleWrapper) (d : odict LoRA)
  : LoRAModuleWrapper :=
  {| unet := unet w; text_encoder := text_encoder w; hooks := hooks w;
     text_modules := text_modules w; unet_modules := unet_modules w;
     applied_loras := applied_loras w; loaded_loras := d |}.

Definition set_applied (w : LoRAModuleWrapper) (d : odict LoRA)
  : LoRAModuleWrapper :=
  {| unet := unet w; text_encoder := text_encoder w; hooks := hooks w;
     text_modules := text_modules w; unet_modules := unet_modules w;
     applied_loras := d; loaded_loras := loaded_loras w |}.

Definition set_wrapper (m : KohyaLoraManager) (w : LoRAModuleWrapper)
  : KohyaLoraManager :=
  {| lora_path := lora_path m; wrapper := w; mgr_device := mgr_device m;
     mgr_dtype := mgr_dtype m; loras_to_load := loras_to_load m |}.

(** [KohyaLoraManager.load_lora_module(name, path_file, multiplier)]: the
    manager afterwards and the adapter returned, or the exception.  An early
    [return] of [load_from_dict] is not an exception: the call goes on to
    the assignment into [loaded_loras]. *)
Definition load_lora_module (io : FileIO) (self : KohyaLoraManager)
  (name : string) (path_file : Path) (mult : scalar)
  : KohyaLoraManager * result LoRA :=
  let read :=
    if String.eqb (suffix path_file) ".safetensors"
    then load_file io (posix path_file)
    else torch_load io path_file in
  match read with
  | Raise e => (self, Raise e)
  | Ok checkpoint =>
      let lora := LoRA_init name (mgr_device self) (mgr_dtype self) mult in
      match load_from_dict (wrapper self) lora checkpoint with
      | (_, Raised e) => (self, Raise e)
      | (lora', _) =>
          (set_wrapper self
             (set_loaded (wrapper self)
                (od_set (loaded_loras (wrapper self)) name lora')),
           Ok lora')
      end
  end.

(** [unload_applied_lora(lora_name)] and [unload_lora(lora_name)] *)
Definition unload_applied_lora (self : KohyaLoraManager) (lora_name : string)
  : KohyaLoraManager :=
  set_wrapper self
    (set_applied (wrapper self)
                 (od_del (applied_loras (wrapper self)) lora_name)).

Definition unload_lora (self : KohyaLoraManager) (lora_name : string)
  : KohyaLoraManager :=
  set_wrapper self
    (set_loaded (wrapper self)
                (od_del (loaded_loras (wrapper self)) lora_name)).

(** ** Properties of dictionaries *)

Lemma od_get_set (V : Type) (d : odict V) (k k' : string) (v : V) :
  od_get (od_set d k v) k' = if String.eqb k' k then Some v else od_get d k'.
Proof.
  induction d as [ | [k0 v0] d IH ]; simpl.
  - reflexivity.
  - destruct (String.eqb_spec k k0) as [E | N]; simpl.
    + subst k0. destruct (String.eqb k' k); reflexivity.
    + rewrite IH.
      destruct (String.eqb_spec k' k0) as [E' | N'];
        destruct (String.eqb_spec k' k) as [E'' | N'']; try reflexivity.
      congruence.
Qed.

Lemma od_get_absent (V : Type) (d : odict V) (k : string) :
  ~ In k (od_keys d) <-> od_get d k = None.
Proof.
  induction d as [ | [k0 v0] d IH ]; simpl.
  - tauto.
  - destruct (String.eqb_spec k k0) as [E | N].
    + subst k0. split; [ tauto | discriminate ].
    + rewrite <- IH. split; [ tauto | ].
      intros H [E | Hin]; [ congruence | tauto ].
Qed.

Lemma od_set_absent (V : Type) (d : odict V) (k : string) (v : V) :
  ~ In k (od_keys d) -> od_set d k v = d ++ [(k, v)].
Proof.
  induction d as [ | [k0 v0] d IH ]; simpl; intro Hn.
  - reflexivity.
  - destruct (String.eqb_spec k k0) as [E | N].
    + exfalso. apply Hn. left. congruence.
    + rewrite IH; [ reflexivity | tauto ].
Qed.

Lemma od_set_keys_in (V : Type) (d : odict V) (k x : string) (v : V) :
  In x (od_keys (od_set d k v)) -> x = k \/ In x (od_keys d).
Proof.
  induction d as [ | [k0 v0] d IH ]; simpl.
  - intros [E | []]. left. congruence.
  - destruct (String.eqb_spec k k0) as [E | N]; simpl.
    + intros [E' | Hin]; [ left; congruence | right; right; exact Hin ].
    + intros [E' | Hin]; [ right; left; exact E' | ].
      destruct (IH Hin) as [E' | Hin']; [ left | right; right ]; assumption.
Qed.

Lemma od_set_nodup (V : Type) (d : odict V) (k : string) (v : V) :
  NoDup (od_keys d) -> NoDup (od_keys (od_set d k v)).
Proof.
  induction d as [ | [k0 v0] d IH ]; simpl; intro Hnd.
  - constructor; [ intros [] | constructor ].
  - inversion Hnd as [ | ? ? Hnot Hnd' ]; subst.
    destruct (String.eqb_spec k k0) as [E | N]; simpl.
    + subst k0. constructor; assumption.
    + constructor; [ | apply IH; exact Hnd' ].
      intro Hin. destruct (od_set_keys_in _ _ _ _ Hin) as [E | Hin'].
      * congruence.
      * apply Hnot. exact Hin'.
Qed.

Lemma od_get_in (V : Type) (d : odict V) (k : string) (v : V) :
  NoDup (od_keys d) -> In (k, v) d -> od_get d k = Some v.
Proof.
  induction d as [ | [k0 v0] d IH ]; simpl; intros Hnd Hin.
  - contradiction.
  - inversion Hnd as [ | ? ? Hnot Hnd' ]; subst.
    destruct Hin as [E | Hin].
    + injection E as -> ->. rewrite String.eqb_refl. reflexivity.
    + destruct (String.eqb_spec k k0) as [E | N].
      * subst k0. exfalso. apply Hnot.
        change k with (fst (k, v)). apply in_map. exact Hin.
      * apply IH; assumption.
Qed.

Lemma NoDup_app_disjoint (A : Type) (l1 l2 : list A) (x : A) :
  NoDup (l1 ++ l2) -> In x l1 -> In x l2 -> False.
Proof.
  induction l1 as [ | a l1 IH ]; simpl; intros Hnd H1 H2.
  - contradiction.
  - inversion Hnd as [ | ? ? Hnot Hnd' ]; subst.
    destruct H1 as [E | H1].
    + subst a. apply Hnot. apply in_or_app. right. exact H2.
    + exact (IH Hnd' H1 H2).
Qed.

(** ** Properties of the forward hook *)

(** What a delta adds to the output: the term right of [output +] in the two
    [forward] methods.  It does not depend on the output accumulated so far. *)
Definition LoRALayer_contribution (self : LoRALayer) (multiplier : scalar)
  (input_h : list Tensor) : result Tensor :=
  d <- call_star (call_sub (down self)) input_h ;;
  u <- match mid self with
       | None => call_sub (up self) d
       | Some mid_ => m <- call_sub mid_ d ;; call_sub (up self) m
       end ;;
  Ok (tmuls (tmuls u multiplier) (scale self)).

Definition LoHALayer_contribution (self : LoHALayer) (multiplier : scalar)
  (input_h : list Tensor) : result Tensor :=
  let org := org_module self in
  w <- LoHALayer_weight self ;;
  v <- view w (shape (weight (mod_attrs org))) ;;
  y <- LoHALayer_op org input_h v (bias (mod_attrs org)) ;;
  Ok (tmuls (tmuls y multiplier) (loha_scale self)).

Definition Layer_contribution (l : Layer) (multiplier : scalar)
  (input_h : list Tensor) : result Tensor :=
  match l with
  | LoRA_layer l => LoRALayer_contribution l multiplier input_h
  | LoHA_layer l => LoHALayer_contribution l multiplier input_h
  end.

Lemma bind_assoc (A B C : Type) (m : result A) (f : A -> result B)
  (g : B -> result C) :
  bind (bind m f) g = bind m (fun a => bind (f a) g).
Proof. destruct m; reflexivity. Qed.

Lemma LoRALayer_forward_contribution (l : LoRALayer) (m : scalar)
  (input_h : list Tensor) (output : Tensor) :
  LoRALayer_forward l m input_h output =
  bind (LoRALayer_contribution l m input_h) (tadd output).
Proof.
  unfold LoRALayer_forward, LoRALayer_contribution.
  destruct (mid l) as [mid_ | ];
    destruct (call_star (call_sub (down l)) input_h) as [d | e]; simpl;
    try reflexivity.
  - destruct (call_sub mid_ d) as [x | e]; simpl; [ | reflexivity ].
    destruct (call_sub (up l) x); reflexivity.
  - destruct (call_sub (up l) d); reflexivity.
Qed.

Lemma LoHALayer_forward_contribution (l : LoHALayer) (m : scalar)
  (input_h : list Tensor) (output : Tensor) :
  LoHALayer_forward l m input_h output =
  bind (LoHALayer_contribution l m input_h) (tadd output).
Proof.
  unfold LoHALayer_forward, LoHALayer_contribution.
  destruct (LoHALayer_weight l) as [w | e]; simpl; [ | reflexivity ].
  destruct (view w _) as [v | e]; simpl; [ | reflexivity ].
  destruct (LoHALayer_op _ _ _ _); reflexivity.
Qed.

Lemma Layer_forward_contribution (l : Layer) (m : scalar)
  (input_h : list Tensor) (output : Tensor) :
  Layer_forward l m input_h output =
  bind (Layer_contribution l m input_h) (tadd output).
Proof.
  destruct l; simpl.
  - apply LoRALayer_forward_contribution.
  - apply LoHALayer_forward_contribution.
Qed.

(** The loop over a concatenation runs the first part, then the second from
    the output the first part produced. *)
Lemma lora_forward_loop_app (name : string) (pre post : list LoRA)
  (input_h : list Tensor) (output : Tensor) :
  lora_forward_loop name (pre ++ post) input_h output =
  bind (lora_forward_loop name pre input_h output)
       (lora_forward_loop name post input_h).
Proof.
  revert output.
  induction pre as [ | lora pre IH ]; intro output; simpl.
  - reflexivity.
  - destruct (od_get (layers lora) name) as [layer | ].
    + rewrite bind_assoc.
      destruct (Layer_forward layer (multiplier lora) input_h output);
        simpl; [ apply IH | reflexivity ].
    + apply IH.
Qed.

(** The loop leaves the output alone when no adapter patches the layer. *)
Lemma lora_forward_loop_absent (name : string) (loras : list LoRA)
  (input_h : list Tensor) (output : Tensor) :
  (forall lora, In lora loras -> od_get (layers lora) name = None) ->
  lora_forward_loop name loras input_h output = Ok output.
Proof.
  induction loras as [ | lora loras IH ]; intro Habs; simpl.
  - reflexivity.
  - rewrite (Habs lora (or_introl eq_refl)).
    apply IH. intros l Hin. apply Habs. right. exact Hin.
Qed.

(** C1.  In a registry with a loaded adapter, let [lora] be an active adapter
    whose delta for the hooked layer is the low-rank delta [l].  The hook
    first accumulates the adapters activated before [lora]; to that output it
    adds [up(down(x))] (without a mid sub-transform) or [up(mid(down(x)))]
    (with one), times the multiplier of [lora], times the scale of [l]; and
    it goes on with the adapters activated later.  With [lora] the only
    active adapter the hook returns the base output plus that term. *)
Theorem lora_layer_contribution (w : LoRAModuleWrapper) (name : string)
  (pre post : list LoRA) (lora : LoRA) (l : LoRALayer)
  (x d u output : Tensor) :
  loaded_loras w <> [] ->
  od_values (applied_loras w) = pre ++ lora :: post ->
  od_get (layers lora) name = Some (LoRA_layer l) ->
  call_sub (down l) x = Ok d ->
  match mid l with
  | None => call_sub (up l) d
  | Some mid_ => m <- call_sub mid_ d ;; call_sub (up l) m
  end = Ok u ->
  lora_forward w name [x] output =
    (acc <- lora_forward_loop name pre [x] output ;;
     acc' <- tadd acc (tmuls (tmuls u (multiplier lora)) (scale l)) ;;
     lora_forward_loop name post [x] acc')
  /\ (pre = [] -> post = [] ->
      lora_forward w name [x] output =
        tadd output (tmuls (tmuls u (multiplier lora)) (scale l))).
Proof.
  intros Hloaded Happlied Hlayer Hdown Hup.
  assert (Hhook : lora_forward w name [x] output =
                  lora_forward_loop name (pre ++ lora :: post) [x] output).
  { unfold lora_forward. rewrite Happlied.
    destruct (loaded_loras w) as [ | p ps ]; [ contradiction | reflexivity ]. }
  assert (Hc : Layer_contribution (LoRA_layer l) (multiplier lora) [x] =
               Ok (tmuls (tmuls u (multiplier lora)) (scale l))).
  { simpl. unfold LoRALayer_contribution. simpl. rewrite Hdown. simpl.
    rewrite Hup. reflexivity. }
  assert (Hgen : lora_forward w name [x] output =
    (acc <- lora_forward_loop name pre [x] output ;;
     acc' <- tadd acc (tmuls (tmuls u (multiplier lora)) (scale l)) ;;
     lora_forward_loop name post [x] acc')).
  { rewrite Hhook, lora_forward_loop_app.
    destruct (lora_forward_loop name pre [x] output) as [acc | e]; simpl;
      [ | reflexivity ].
    rewrite Hlayer.
    change (LoRALayer_forward l (multiplier lora) [x] acc)
      with (Layer_forward (LoRA_layer l) (multiplier lora) [x] acc).
    rewrite Layer_forward_contribution, Hc. reflexivity. }
  split; [ exact Hgen | ].
  intros Hpre Hpost. rewrite Hgen. subst pre post. simpl.
  destruct (tadd output _); reflexivity.
Qed.

(** C8.  When no adapter is loaded, or no active adapter has a delta for the
    hooked layer, the hook returns the base output unchanged, whatever the
    input tuple. *)
Theorem hook_identity (w : LoRAModuleWrapper) (name : string)
  (input_h : list Tensor) (output : Tensor) :
  loaded_loras w = [] \/
  (forall lora, In lora (od_values (applied_loras w)) ->
                od_get (layers lora) name = None) ->
  lora_forward w name input_h output = Ok output.
Proof.
  intros [Hnone | Habs]; unfold lora_forward.
  - rewrite Hnone. reflexivity.
  - destruct (List.length (loaded_loras w) =? 0); [ reflexivity | ].
    apply lora_forward_loop_absent. exact Habs.
Qed.

(** *** Order of activation *)

(** Accumulating two contributions onto an output in either order gives the
    same result.  It holds in exact arithmetic; floating-point addition
    rounds after each sum and does not satisfy it. *)
Definition accumulation_law : Prop :=
  forall o a b : Tensor,
    (x <- tadd o a ;; tadd x b) = (x <- tadd o b ;; tadd x a).

(** The delta of an adapter for the layer, if it has one, evaluates. *)
Definition contributes (lora : LoRA) (name : string) (input_h : list Tensor)
  : Prop :=
  forall layer, od_get (layers lora) name = Some layer ->
    exists c, Layer_contribution layer (multiplier lora) input_h = Ok c.

Lemma lora_forward_loop_swap (name : string) (A B : LoRA)
  (input_h : list Tensor) (output : Tensor) :
  accumulation_law ->
  contributes A name input_h ->
  contributes B name input_h ->
  lora_forward_loop name [A; B] input_h output =
  lora_forward_loop name [B; A] input_h output.
Proof.
  intros Hlaw HA HB. simpl.
  destruct (od_get (layers A) name) as [la | ] eqn:Ea;
    destruct (od_get (layers B) name) as [lb | ] eqn:Eb; try reflexivity.
  destruct (HA la Ea) as [ca Hca].
  destruct (HB lb Eb) as [cb Hcb].
  rewrite !Layer_forward_contribution, Hca, Hcb. simpl.
  specialize (Hlaw output ca cb).
  destruct (tadd output ca) as [o1 | e1];
    destruct (tadd output cb) as [o2 | e2]; simpl in *.
  - rewrite !Layer_forward_contribution, Hca, Hcb. simpl.
    destruct (tadd o1 cb), (tadd o2 ca); simpl; congruence.
  - rewrite !Layer_forward_contribution, Hcb. simpl.
    destruct (tadd o1 cb); simpl; congruence.
  - rewrite !Layer_forward_contribution, Hca. simpl.
    destruct (tadd o2 ca); simpl; congruence.
  - exact Hlaw.
Qed.

Lemma od_values_cons (V : Type) (k : string) (v : V) (d : odict V) :
  od_values ((k, v) :: d) = v :: od_values d.
Proof. reflexivity. Qed.

Lemma od_set_head (V : Type) (d : odict V) (k : string) (v x : V) :
  od_set ((k, v) :: d) k x = (k, x) :: d.
Proof. simpl. rewrite String.eqb_refl. reflexivity. Qed.

Lemma od_set_tail (V : Type) (d : odict V) (k k' : string) (v x : V) :
  k' <> k -> od_set ((k, v) :: d) k' x = (k, v) :: od_set d k' x.
Proof.
  intro Hne. simpl. apply String.eqb_neq in Hne. rewrite Hne. reflexivity.
Qed.

Ltac dict_steps :=
  repeat (rewrite od_set_head || rewrite od_set_tail by congruence).

(** Activating [A] then [B], or [B] then [A], in any active mapping. *)
Lemma lora_forward_loop_activation_order (name nA nB : string) (A B : LoRA)
  (input_h : list Tensor) :
  nA <> nB ->
  accumulation_law ->
  contributes A name input_h ->
  contributes B name input_h ->
  forall (d : odict LoRA) (output : Tensor),
    lora_forward_loop name (od_values (od_set (od_set d nA A) nB B))
                      input_h output =
    lora_forward_loop name (od_values (od_set (od_set d nB B) nA A))
                      input_h output.
Proof.
  intros Hne Hlaw HA HB.
  assert (Hab : String.eqb nA nB = false) by (apply String.eqb_neq; exact Hne).
  assert (Hne' : nB <> nA) by congruence.
  assert (Hba : String.eqb nB nA = false) by (apply String.eqb_neq; exact Hne').
  induction d as [ | [k v] d IH ]; intro output.
  - simpl. rewrite Hab, Hba. simpl.
    apply lora_forward_loop_swap; assumption.
  - destruct (String.eqb_spec nA k) as [Eak | Nak];
      destruct (String.eqb_spec nB k) as [Ebk | Nbk].
    + congruence.
    + subst k. dict_steps. reflexivity.
    + subst k. dict_steps. reflexivity.
    + dict_steps. rewrite !od_values_cons. simpl.
      destruct (od_get (layers v) name) as [lv | ].
      * destruct (Layer_forward lv (multiplier v) input_h output);
          simpl; [ apply IH | reflexivity ].
      * apply IH.
Qed.

(** Activating two names of which one is active already: the active mapping
    is the same for both orders. *)
Lemma od_set_comm (V : Type) (d : odict V) (kA kB : string) (A B : V) :
  kA <> kB ->
  od_mem d kA = true \/ od_mem d kB = true ->
  od_set (od_set d kA A) kB B = od_set (od_set d kB B) kA A.
Proof.
  intros Hne Hin.
  assert (Hne' : kB <> kA) by congruence.
  induction d as [ | [k v] d IH ].
  - destruct Hin as [H | H]; discriminate H.
  - destruct (String.eqb_spec kA k) as [Eak | Nak];
      destruct (String.eqb_spec kB k) as [Ebk | Nbk].
    + congruence.
    + subst k. dict_steps. reflexivity.
    + subst k. dict_steps. reflexivity.
    + dict_steps. f_equal. apply IH.
      unfold od_mem in *. simpl in Hin.
      apply String.eqb_neq in Nak, Nbk. rewrite Nak, Nbk in Hin. exact Hin.
Qed.

(** Activating two new names: the two adapters go last, in the order of
    activation. *)
Lemma od_set_both_new (V : Type) (d : odict V) (kA kB : string) (A B : V) :
  kA <> kB ->
  od_mem d kA = false ->
  od_mem d kB = false ->
  od_values (od_set (od_set d kA A) kB B) = od_values d ++ [A; B].
Proof.
  intros Hne HA HB.
  assert (Habs : forall k, od_mem d k = false -> ~ In k (od_keys d)).
  { intros k H. apply od_get_absent. unfold od_mem in H.
    destruct (od_get d k); [ discriminate H | reflexivity ]. }
  rewrite (@od_set_absent _ d kA A (Habs kA HA)).
  rewrite od_set_absent.
  - unfold od_values. rewrite !map_app, <- app_assoc. reflexivity.
  - unfold od_keys. rewrite map_app. intro Hin. apply in_app_or in Hin.
    destruct Hin as [Hin | [E | []]].
    + exact (Habs kB HB Hin).
    + simpl in E. congruence.
Qed.

(** The loop over two adapters that both have a delta that evaluates: the
    two contributions are added one after the other. *)
Lemma lora_forward_loop_two (name : string) (A B : LoRA) (la lb : Layer)
  (input_h : list Tensor) (acc a b : Tensor) :
  od_get (layers A) name = Some la ->
  od_get (layers B) name = Some lb ->
  Layer_contribution la (multiplier A) input_h = Ok a ->
  Layer_contribution lb (multiplier B) input_h = Ok b ->
  lora_forward_loop name [A; B] input_h acc = (x <- tadd acc a ;; tadd x b).
Proof.
  intros HlA HlB Ha Hb. simpl.
  rewrite HlA, HlB, Layer_forward_contribution, Ha. simpl.
  destruct (tadd acc a) as [x | e]; simpl; [ | reflexivity ].
  rewrite Layer_forward_contribution, Hb. simpl.
  destruct (tadd x b); reflexivity.
Qed.

(** C9, as amended.  Let two adapters be activated under different names,
    in either order, in a registry with any active mapping.

    The hook returns the same for both orders when no adapter is loaded,
    when one of the two names was active already (the active mapping is
    then the same), when one of the two adapters has no delta for the hooked
    layer, and when the adapters that were active raise.

    Otherwise, when both names are new and both deltas evaluate, to [a] and
    [b], which does not depend on the order or on the output accumulated so
    far: with [acc] the output that the adapters already active produce,
    one order returns [(acc + a) + b] and the other [(acc + b) + a].  The
    two outputs are the same exactly when these two sums are, for whatever
    arithmetic the tensors have.

    In particular they are the same whenever accumulating two contributions
    is independent of the order, as it is in exact arithmetic. *)
Theorem activation_order_effect (w : LoRAModuleWrapper)
  (name nA nB : string) (A B : LoRA) (input_h : list Tensor)
  (output : Tensor) :
  nA <> nB ->
  let wAB :=
    set_applied w (od_set (od_set (applied_loras w) nA A) nB B) in
  let wBA :=
    set_applied w (od_set (od_set (applied_loras w) nB B) nA A) in
  (loaded_loras w = [] \/
   od_mem (applied_loras w) nA = true \/
   od_mem (applied_loras w) nB = true \/
   od_get (layers A) name = None \/
   od_get (layers B) name = None \/
   (exists e, lora_forward w name input_h output = Raise e) ->
   lora_forward wAB name input_h output
     = lora_forward wBA name input_h output) /\
  (forall (la lb : Layer) (a b acc : Tensor),
     loaded_loras w <> [] ->
     od_mem (applied_loras w) nA = false ->
     od_mem (applied_loras w) nB = false ->
     od_get (layers A) name = Some la ->
     od_get (layers B) name = Some lb ->
     Layer_contribution la (multiplier A) input_h = Ok a ->
     Layer_contribution lb (multiplier B) input_h = Ok b ->
     lora_forward w name input_h output = Ok acc ->
     lora_forward wAB name input_h output = (x <- tadd acc a ;; tadd x b) /\
     lora_forward wBA name input_h output = (x <- tadd acc b ;; tadd x a)) /\
  (accumulation_law ->
   contributes A name input_h ->
   contributes B name input_h ->
   lora_forward wAB name input_h output
     = lora_forward wBA name input_h output).
Proof.
  intros Hne wAB wBA. subst wAB wBA.
  assert (Hne' : nB <> nA) by congruence.
  split; [ | split ].
  - intro Hcase.
    destruct (od_mem (applied_loras w) nA) eqn:HmA.
    { rewrite (@od_set_comm _ (applied_loras w) nA nB A B Hne
                 (or_introl HmA)). reflexivity. }
    destruct (od_mem (applied_loras w) nB) eqn:HmB.
    { rewrite (@od_set_comm _ (applied_loras w) nA nB A B Hne
                 (or_intror HmB)). reflexivity. }
    unfold lora_forward in *. simpl.
    destruct (loaded_loras w) as [ | p ps ]; [ reflexivity | ]. simpl in *.
    rewrite (@od_set_both_new _ (applied_loras w) nA nB A B Hne HmA HmB).
    rewrite (@od_set_both_new _ (applied_loras w) nB nA B A Hne' HmB HmA).
    rewrite !lora_forward_loop_app.
    destruct Hcase as [H | [H | [H | [H | [H | (e & H)]]]]];
      try discriminate H.
    + destruct (lora_forward_loop name (od_values (applied_loras w))
                                  input_h output) as [acc | e]; simpl;
        [ | reflexivity ].
      rewrite H. destruct (od_get (layers B) name) as [lb | ];
        [ | reflexivity ].
      destruct (Layer_forward lb (multiplier B) input_h acc); simpl;
        rewrite ?H; reflexivity.
    + destruct (lora_forward_loop name (od_values (applied_loras w))
                                  input_h output) as [acc | e]; simpl;
        [ | reflexivity ].
      rewrite H. destruct (od_get (layers A) name) as [la | ];
        [ | reflexivity ].
      destruct (Layer_forward la (multiplier A) input_h acc); simpl;
        rewrite ?H; reflexivity.
    + rewrite H. reflexivity.
  - intros la lb a b acc Hloaded HmA HmB HlA HlB Ha Hb Hacc.
    unfold lora_forward in *. simpl.
    destruct (loaded_loras w) as [ | p ps ]; [ contradiction | ].
    simpl in *.
    rewrite (@od_set_both_new _ (applied_loras w) nA nB A B Hne HmA HmB).
    rewrite (@od_set_both_new _ (applied_loras w) nB nA B A Hne' HmB HmA).
    rewrite !lora_forward_loop_app, Hacc.
    change (lora_forward_loop name [A; B] input_h acc
              = (x <- tadd acc a ;; tadd x b) /\
            lora_forward_loop name [B; A] input_h acc
              = (x <- tadd acc b ;; tadd x a)).
    split.
    + exact (@lora_forward_loop_two name A B la lb input_h acc a b
               HlA HlB Ha Hb).
    + exact (@lora_forward_loop_two name B A lb la input_h acc b a
               HlB HlA Hb Ha).
  - intros Hlaw HA HB. unfold lora_forward. simpl.
    destruct (List.length (loaded_loras w) =? 0); [ reflexivity | ].
    apply lora_forward_loop_activation_order; assumption.
Qed.

(** *** The Hadamard delta *)

(** The weight delta a Hadamard layer stands for: the Hadamard product of
    the two low-rank products, or of the two core expansions when the layer
    has cores. *)
Definition LoHALayer_diff_weight (self : LoHALayer) : result Tensor :=
  match t1 self with
  | None =>
      p1 <- matmul (w1_a self) (w1_b self) ;;
      p2 <- matmul (w2_a self) (w2_b self) ;;
      tmul p1 p2
  | Some t1_ =>
      match t2 self with
      | None => Raise TypeError
      | Some t2_ =>
          rebuild1 <- einsum_rebuild t1_ (w1_b self) (w1_a self) ;;
          rebuild2 <- einsum_rebuild t2_ (w2_b self) (w2_a self) ;;
          tmul rebuild1 rebuild2
      end
  end.

(** The forward pass the specification describes for a Hadamard delta: the
    weight delta alone, viewed in the shape of the original weight, applied
    to the input without bias with the parameters of the original layer,
    scaled by multiplier and scale and added to the output. *)
Definition LoHALayer_forward_spec (self : LoHALayer) (multiplier : scalar)
  (input_h : list Tensor) (output : Tensor) : result Tensor :=
  let org := org_module self in
  dw <- LoHALayer_diff_weight self ;;
  v <- view dw (shape (weight (mod_attrs org))) ;;
  y <- LoHALayer_op org input_h v None ;;
  tadd output (tmuls (tmuls y multiplier) (loha_scale self)).

(** The weight the code applies is the original weight plus the delta. *)
Lemma LoHALayer_weight_is_original_plus_diff (self : LoHALayer) :
  LoHALayer_weight self =
  (dw <- LoHALayer_diff_weight self ;;
   match t1 self with
   | None =>
       r <- reshape (weight (mod_attrs (org_module self))) (shape dw) ;;
       tadd r dw
   | Some _ => tadd (weight (mod_attrs (org_module self))) dw
   end).
Proof.
  unfold LoHALayer_weight, LoHALayer_diff_weight.
  destruct (t1 self) as [t1_ | ].
  - destruct (t2 self) as [t2_ | ]; [ | reflexivity ].
    rewrite !bind_assoc.
    destruct (einsum_rebuild t1_ (w1_b self) (w1_a self)); simpl;
      [ | reflexivity ].
    destruct (einsum_rebuild t2_ (w2_b self) (w2_a self)); reflexivity.
  - rewrite !bind_assoc.
    destruct (matmul (w1_a self) (w1_b self)); simpl; [ | reflexivity ].
    destruct (matmul (w2_a self) (w2_b self)); reflexivity.
Qed.

(** ** Properties of adapter parsing *)

(** *** The first loop *)

(** The first loop only assigns [self.alpha] and [self.rank], and the stems
    it groups are the keys of a dictionary. *)
Lemma group_keys_invariant (items : list (string * Tensor)) :
  forall (self : LoRA) (groupped : odict (odict Tensor)) (is_loha : bool),
    NoDup (od_keys groupped) ->
    let g := group_keys self groupped is_loha items in
    layers (g_self g) = layers self /\
    adapter_name (g_self g) = adapter_name self /\
    NoDup (od_keys (g_groups g)).
Proof.
  induction items as [ | [key value] items IH ];
    intros self groupped is_loha Hnd; simpl.
  - auto.
  - destruct (split_first_dot key) as [stem [leaf | ]]; simpl; [ | auto ].
    set (groupped' := od_set groupped stem _).
    assert (Hnd' : NoDup (od_keys groupped'))
      by (apply od_set_nodup; exact Hnd).
    destruct (endswith leaf "alpha").
    + destruct (alpha self) as [a | ].
      * apply IH. exact Hnd'.
      * destruct (item value) as [a | e]; simpl; [ | auto ].
        destruct (IH (set_alpha self (Some a)) groupped' is_loha Hnd')
          as (Hl & Hn & Hk).
        auto.
    + match goal with
      | |- context [group_keys ?self' groupped' ?f items] =>
          destruct (IH self' groupped' f Hnd') as (Hl & Hn & Hk);
          assert (Hs : layers self' = layers self /\
                       adapter_name self' = adapter_name self)
      end.
      { destruct (has_tracked_prefix stem); [ | auto ].
        destruct (rank self); [ auto | ].
        destruct (shape value) as [ | n [ | m [ | ? ? ] ] ]; auto;
          destruct (String.eqb leaf "lora_down.weight"); auto. }
      destruct Hs as [Hs1 Hs2].
      repeat split; congruence || exact Hk.
Qed.

(** *** The second loop *)

(** The loop over a concatenation: the first part, then, when it ran to its
    end, the second part. *)
Lemma build_layers_app (w : LoRAModuleWrapper)
  (pre post : list (string * odict Tensor)) :
  forall self : LoRA,
    build_layers w self (pre ++ post) =
    match build_layers w self pre with
    | (self', Finished) => build_layers w self' post
    | r => r
    end.
Proof.
  induction pre as [ | [stem values] pre IH ]; intro self; simpl.
  - reflexivity.
  - destruct (build_group w self stem values); try reflexivity; apply IH.
Qed.

(** The second loop assigns [self.layers] only, and only at stems it
    visits. *)
Lemma build_layers_frame (w : LoRAModuleWrapper)
  (groups : list (string * odict Tensor)) :
  forall (self self' : LoRA) (st : status),
    build_layers w self groups = (self', st) ->
    rank self' = rank self /\
    alpha self' = alpha self /\
    adapter_name self' = adapter_name self /\
    forall stem, ~ In stem (od_keys groups) ->
                 od_get (layers self') stem = od_get (layers self) stem.
Proof.
  induction groups as [ | [stem values] groups IH ];
    intros self self' st Hrun; simpl in Hrun.
  - injection Hrun as <- _. auto.
  - destruct (build_group w self stem values) as [ | l | | e ].
    + destruct (IH _ _ _ Hrun) as (Hr & Ha & Hn & Hf).
      repeat split; try assumption.
      intros s Hs. apply Hf. simpl in Hs. tauto.
    + destruct (IH _ _ _ Hrun) as (Hr & Ha & Hn & Hf).
      repeat split; try assumption.
      intros s Hs. simpl in Hs. rewrite Hf by tauto. simpl.
      rewrite od_get_set.
      destruct (String.eqb_spec s stem) as [E | N]; [ | reflexivity ].
      exfalso. apply Hs. left. congruence.
    + injection Hrun as <- _. auto.
    + injection Hrun as <- _. auto.
Qed.

(** A group that resolves and has neither kind of weight leaf stops the
    loop with an early return. *)
Lemma build_group_unknown_format (w : LoRAModuleWrapper) (self : LoRA)
  (stem : string) (values : odict Tensor) (wrapped : Module) :
  resolve w stem = Some (Some wrapped) ->
  od_mem values "lora_down.weight" = false ->
  od_mem values "hada_w1_b" = false ->
  build_group w self stem values = Abort.
Proof.
  intros Hres Hdown Hhada. unfold build_group.
  rewrite Hres, Hdown, Hhada. reflexivity.
Qed.

(** C3.  Let the first loop finish, and let the groups be [pre], then a
    group whose stem resolves and that has neither [lora_down.weight] nor
    [hada_w1_b], then [post].  If the second loop gets through [pre], the
    call returns early without raising; the adapter is the one the loop had
    built from [pre], and no stem of [post] gets a delta. *)
Theorem unknown_format_aborts (w : LoRAModuleWrapper) (self self' : LoRA)
  (state_dict : odict Tensor) (pre post : list (string * odict Tensor))
  (stem : string) (values : odict Tensor) (wrapped : Module) :
  g_error (group_keys self [] false state_dict) = None ->
  g_groups (group_keys self [] false state_dict)
    = pre ++ (stem, values) :: post ->
  build_layers w (g_self (group_keys self [] false state_dict)) pre
    = (self', Finished) ->
  resolve w stem = Some (Some wrapped) ->
  od_mem values "lora_down.weight" = false ->
  od_mem values "hada_w1_b" = false ->
  load_from_dict w self state_dict = (self', Aborted) /\
  forall later, In later (od_keys post) ->
    od_get (layers self') later = od_get (layers self) later.
Proof.
  intros Herr Hgroups Hpre Hres Hdown Hhada.
  split.
  - unfold load_from_dict. rewrite Herr, Hgroups, build_layers_app, Hpre.
    simpl.
    rewrite (build_group_unknown_format w self' stem values Hres Hdown
                                        Hhada).
    reflexivity.
  - intros later Hlater.
    destruct (@group_keys_invariant state_dict self [] false (NoDup_nil _))
      as (Hl & _ & Hnd).
    rewrite Hgroups in Hnd.
    destruct (build_layers_frame w pre _ Hpre) as (_ & _ & _ & Hf).
    rewrite Hf, Hl; [ reflexivity | ].
    unfold od_keys in *. rewrite map_app in Hnd. simpl in Hnd.
    intro Hin.
    apply (NoDup_app_disjoint _ _ later Hnd Hin). right. exact Hlater.
Qed.

(** C10.  Let the first loop finish, and let the second loop get through
    the groups before one whose stem resolves and that has
    [lora_down.weight] but not [lora_up.weight].  Then
    [values["lora_up.weight"]] raises [KeyError], which escapes the call:
    nothing is logged or skipped, and the adapter keeps the deltas built
    before. *)
Theorem missing_up_weight_raises (w : LoRAModuleWrapper) (self self' : LoRA)
  (state_dict : odict Tensor) (pre post : list (string * odict Tensor))
  (stem : string) (values : odict Tensor) (wrapped : Module) :
  g_error (group_keys self [] false state_dict) = None ->
  g_groups (group_keys self [] false state_dict)
    = pre ++ (stem, values) :: post ->
  build_layers w (g_self (group_keys self [] false state_dict)) pre
    = (self', Finished) ->
  resolve w stem = Some (Some wrapped) ->
  od_mem values "lora_down.weight" = true ->
  od_mem values "lora_up.weight" = false ->
  load_from_dict w self state_dict
    = (self', Raised (KeyError "lora_up.weight")).
Proof.
  intros Herr Hgroups Hpre Hres Hdown Hup.
  assert (Hgroup : build_group w self' stem values
                   = Fail (KeyError "lora_up.weight")).
  { unfold build_group. rewrite Hres, Hdown.
    unfold build_lora, od_index. unfold od_mem in Hdown, Hup.
    destruct (od_get values "lora_down.weight") as [vd | ];
      [ | discriminate Hdown ].
    destruct (od_get values "lora_up.weight") as [vu | ];
      [ discriminate Hup | ].
    reflexivity. }
  unfold load_from_dict.
  rewrite Herr, Hgroups, build_layers_app, Hpre. simpl.
  rewrite Hgroup. reflexivity.
Qed.

(** *** Well-formed low-rank groups *)

(** [dst.copy_(src)] succeeds for a destination of shape [dst]. *)
Definition copies (dst : list nat) (src : Tensor) : Prop :=
  exists w, fresh_copy dst src = Ok w.

(** A well-formed low-rank group for a wrapped layer: it has down and up
    weights of at least two dimensions whose shapes fit the sub-transforms
    that the code builds for a convolution or a linear layer, a mid weight,
    when the layer is a convolution, that fits too, and an alpha leaf, if
    any, of one element. *)
Definition lowrank_group_ok (wrapped : Module) (values : odict Tensor)
  : Prop :=
  exists (vd vu : Tensor) (d0 d1 u0 u1 : nat) (a : option scalar),
    od_get values "lora_down.weight" = Some vd /\
    od_get values "lora_up.weight" = Some vu /\
    shape_at (shape vd) 1 = Ok d1 /\ shape_at (shape vd) 0 = Ok d0 /\
    shape_at (shape vu) 1 = Ok u1 /\ shape_at (shape vu) 0 = Ok u0 /\
    local_alpha values = Ok a /\
    let k := kernel_size (mod_attrs wrapped) in
    if is_conv2d wrapped then
      match od_get values "lora_mid.weight" with
      | Some vm =>
          exists m0 m1 : nat,
            shape_at (shape vm) 1 = Ok m1 /\ shape_at (shape vm) 0 = Ok m0 /\
            copies [d0; d1; 1; 1] vd /\
            copies [m0; m1; fst k; snd k] vm /\
            copies [u0; u1; 1; 1] vu
      | None =>
          copies [d0; d1; fst k; snd k] vd /\ copies [u0; u1; 1; 1] vu
      end
    else
      is_linear wrapped = true /\ copies [d0; d1] vd /\ copies [u0; u1] vu.

(** Whether a stem resolves in the identifier mapping of its prefix. *)
Definition resolves (w : LoRAModuleWrapper) (stem : string) : bool :=
  match resolve w stem with
  | Some (Some _) => true
  | _ => false
  end.

Lemma build_group_unresolved (w : LoRAModuleWrapper) (self : LoRA)
  (stem : string) (values : odict Tensor) :
  resolves w stem = false -> build_group w self stem values = Skip.
Proof.
  unfold resolves, build_group.
  destruct (resolve w stem) as [[wrapped | ] | ];
    [ discriminate | reflexivity | reflexivity ].
Qed.

Lemma build_group_lowrank (w : LoRAModuleWrapper) (self : LoRA)
  (stem : string) (values : odict Tensor) (wrapped : Module) :
  resolve w stem = Some (Some wrapped) ->
  lowrank_group_ok wrapped values ->
  exists l : LoRALayer,
    build_group w self stem values = Built (LoRA_layer l) /\
    name l = stem /\ lora_name l = adapter_name self.
Proof.
  intros Hres (vd & vu & d0 & d1 & u0 & u1 & a &
               Hvd & Hvu & Hd1 & Hd0 & Hu1 & Hu0 & Ha & Hshape).
  unfold build_group. rewrite Hres.
  unfold od_mem. rewrite Hvd.
  unfold build_lora, od_index. rewrite Hvd, Hvu. simpl.
  destruct (is_conv2d wrapped).
  - destruct (od_get values "lora_mid.weight") as [vm | ].
    + destruct Hshape as (m0 & m1 & Hm1 & Hm0 & [wd Hwd] & [wm Hwm] & [wu Hwu]).
      rewrite Hd1, Hd0, Hm1, Hm0, Hu1, Hu0. simpl.
      rewrite Hwd, Hwm, Hwu. simpl. rewrite Ha. simpl.
      eexists. split; [ reflexivity | split; reflexivity ].
    + destruct Hshape as ([wd Hwd] & [wu Hwu]).
      rewrite Hd1, Hd0, Hu1, Hu0. simpl.
      rewrite Hwd, Hwu. simpl. rewrite Ha. simpl.
      eexists. split; [ reflexivity | split; reflexivity ].
  - destruct Hshape as (Hlin & [wd Hwd] & [wu Hwu]).
    rewrite Hlin, Hd1, Hd0, Hu1, Hu0. simpl.
    rewrite Hwd, Hwu. simpl. rewrite Ha. simpl.
    eexists. split; [ reflexivity | split; reflexivity ].
Qed.

(** The second loop on well-formed low-rank groups runs to its end and
    appends one low-rank delta for each stem that resolves. *)
Lemma build_layers_wellformed (w : LoRAModuleWrapper)
  (groups : list (string * odict Tensor)) :
  forall self : LoRA,
    NoDup (od_keys (layers self) ++ od_keys groups) ->
    (forall stem values wrapped,
        In (stem, values) groups ->
        resolve w stem = Some (Some wrapped) ->
        lowrank_group_ok wrapped values) ->
    exists self' : LoRA,
      build_layers w self groups = (self', Finished) /\
      od_keys (layers self')
        = od_keys (layers self) ++ filter (resolves w) (od_keys groups) /\
      forall stem l,
        In (stem, l) (layers self') ->
        In (stem, l) (layers self) \/
        exists ll : LoRALayer, l = LoRA_layer ll /\ name ll = stem.
Proof.
  induction groups as [ | [stem values] groups IH ]; intros self Hnd Hok.
  - exists self. simpl. rewrite app_nil_r. auto.
  - simpl. unfold resolves at 1.
    destruct (resolve w stem) as [[wrapped | ] | ] eqn:Hres.
    + destruct (@build_group_lowrank w self stem values wrapped Hres)
        as (l & Hbuilt & Hname & _).
      { apply (Hok stem values wrapped); [ left; reflexivity | exact Hres ]. }
      rewrite Hbuilt.
      assert (Habsent : ~ In stem (od_keys (layers self))).
      { intro Hin. apply (NoDup_app_disjoint _ _ stem Hnd Hin).
        left. reflexivity. }
      destruct (IH (set_layers self (od_set (layers self) stem (LoRA_layer l))))
        as (self' & Hrun & Hkeys & Hall).
      { simpl.
        rewrite (@od_set_absent _ (layers self) stem (LoRA_layer l) Habsent).
        unfold od_keys. rewrite map_app, <- app_assoc. exact Hnd. }
      { intros s v m Hin. apply Hok. right. exact Hin. }
      exists self'. split; [ exact Hrun | ]. split.
      * rewrite Hkeys. simpl.
        rewrite (@od_set_absent _ (layers self) stem (LoRA_layer l) Habsent).
        unfold od_keys. rewrite map_app, <- app_assoc. reflexivity.
      * intros s l0 Hin. destruct (Hall s l0 Hin) as [Hold | Hnew];
          [ | right; exact Hnew ].
        simpl in Hold.
        rewrite (@od_set_absent _ (layers self) stem (LoRA_layer l) Habsent)
          in Hold.
        apply in_app_or in Hold. destruct Hold as [Hold | [E | []]].
        -- left. exact Hold.
        -- right. injection E as <- <-. exists l. auto.
    + rewrite build_group_unresolved
        by (unfold resolves; rewrite Hres; reflexivity).
      apply IH.
      * simpl in Hnd. apply NoDup_remove_1 in Hnd. exact Hnd.
      * intros s v m Hin. apply Hok. right. exact Hin.
    + rewrite build_group_unresolved
        by (unfold resolves; rewrite Hres; reflexivity).
      apply IH.
      * simpl in Hnd. apply NoDup_remove_1 in Hnd. exact Hnd.
      * intros s v m Hin. apply Hok. right. exact Hin.
Qed.

(** C7.  Let the first loop finish on the state mapping (every key has a
    dot and the first alpha leaf has one element), and let every group
    whose stem resolves be a well-formed low-rank group.  Parsing into a
    fresh adapter runs to its end without raising.  The stems of the deltas
    are the stems that resolve, in the order of the groups and each once,
    every delta is a low-rank delta named by its stem, and the stems that
    do not resolve have none. *)
Theorem wellformed_lowrank_parse (w : LoRAModuleWrapper) (self : LoRA)
  (state_dict : odict Tensor) :
  layers self = [] ->
  g_error (group_keys self [] false state_dict) = None ->
  (forall stem values wrapped,
      In (stem, values) (g_groups (group_keys self [] false state_dict)) ->
      resolve w stem = Some (Some wrapped) ->
      lowrank_group_ok wrapped values) ->
  exists self' : LoRA,
    load_from_dict w self state_dict = (self', Finished) /\
    od_keys (layers self')
      = filter (resolves w)
               (od_keys (g_groups (group_keys self [] false state_dict))) /\
    NoDup (od_keys (layers self')) /\
    (forall stem l,
        In (stem, l) (layers self') ->
        exists ll : LoRALayer, l = LoRA_layer ll /\ name ll = stem) /\
    (forall stem, resolves w stem = false ->
                  od_get (layers self') stem = None).
Proof.
  intros Hfresh Herr Hok.
  destruct (@group_keys_invariant state_dict self [] false (NoDup_nil _))
    as (Hl & _ & Hnd).
  destruct (@build_layers_wellformed w
              (g_groups (group_keys self [] false state_dict))
              (g_self (group_keys self [] false state_dict)))
    as (self' & Hrun & Hkeys & Hall).
  { rewrite Hl, Hfresh. exact Hnd. }
  { exact Hok. }
  rewrite Hl, Hfresh in Hkeys, Hall. simpl in Hkeys.
  exists self'. unfold load_from_dict. rewrite Herr.
  split; [ exact Hrun | ]. split; [ exact Hkeys | ]. split; [ | split ].
  - rewrite Hkeys. apply NoDup_filter. exact Hnd.
  - intros stem l Hin. destruct (Hall stem l Hin) as [[] | Hnew]. exact Hnew.
  - intros stem Hno. apply od_get_absent. rewrite Hkeys.
    intro Hin. apply filter_In in Hin. destruct Hin as [_ Hyes]. congruence.
Qed.

(** *** Scales *)

Definition layer_scale (l : Layer) : scalar :=
  match l with
  | LoRA_layer l => scale l
  | LoHA_layer l => loha_scale l
  end.

(** The scale of a delta built from a group: the alpha is the one of the
    group; the rank is the adapter-wide rank for a low-rank delta and the
    first dimension of [hada_w1_b] for a Hadamard delta. *)
Definition scale_from_group (adapter_rank : option nat)
  (values : odict Tensor) (l : Layer) : Prop :=
  exists a : option scalar,
    local_alpha values = Ok a /\
    match l with
    | LoRA_layer _ => layer_scale l = scale_of adapter_rank a
    | LoHA_layer _ =>
        exists (b : Tensor) (n : nat),
          od_get values "hada_w1_b" = Some b /\
          shape_at (shape b) 0 = Ok n /\
          layer_scale l = scale_of (Some n) a
    end.

Ltac inv_bind H :=
  repeat match type of H with
         | bind ?m _ = _ =>
             let E := fresh "E" in
             destruct m eqn:E; simpl in H; [ | discriminate H ]
         | match ?m with _ => _ end = _ =>
             let E := fresh "E" in
             destruct m eqn:E; simpl in H; try discriminate H
         | (if ?c then _ else _) = _ =>
             let E := fresh "E" in
             destruct c eqn:E; simpl in H; try discriminate H
         end.

Lemma build_lora_scale (self : LoRA) (wrapped : Module) (stem : string)
  (values : odict Tensor) (l : Layer) :
  build_lora self wrapped stem values = Ok (Some l) ->
  scale_from_group (rank self) values l.
Proof.
  unfold build_lora. intro H.
  inv_bind H;
    injection H as <-; eexists; (split; [ eassumption | reflexivity ]).
Qed.

Lemma od_index_ok (V : Type) (d : odict V) (k : string) (v : V) :
  od_index d k = Ok v -> od_get d k = Some v.
Proof.
  unfold od_index. destruct (od_get d k); intro H;
    [ injection H as -> ; reflexivity | discriminate H ].
Qed.

Lemma build_loha_scale (self : LoRA) (wrapped : Module) (stem : string)
  (values : odict Tensor) (l : Layer) :
  build_loha self wrapped stem values = Ok l ->
  scale_from_group (rank self) values l.
Proof.
  unfold build_loha. intro H.
  inv_bind H;
    injection H as <-; eexists; (split; [ eassumption | ]); simpl;
    eexists; eexists;
    (split; [ apply od_index_ok; eassumption
            | split; [ eassumption | reflexivity ] ]).
Qed.

Lemma build_group_scale (w : LoRAModuleWrapper) (self : LoRA)
  (stem : string) (values : odict Tensor) (l : Layer) :
  build_group w self stem values = Built l ->
  scale_from_group (rank self) values l.
Proof.
  unfold build_group. intro H.
  destruct (resolve w stem) as [[wrapped | ] | ]; try discriminate H.
  destruct (od_mem values "lora_down.weight").
  - destruct (build_lora self wrapped stem values) as [[l0 | ] | e] eqn:Hb;
      try discriminate H.
    injection H as <-. exact (build_lora_scale _ _ _ _ Hb).
  - destruct (od_mem values "hada_w1_b"); [ | discriminate H ].
    destruct (build_loha self wrapped stem values) as [l0 | e] eqn:Hb;
      try discriminate H.
    injection H as <-. exact (build_loha_scale _ _ _ _ Hb).
Qed.

(** The adapter-wide alpha plays no part in building a delta. *)
Lemma build_group_ignores_alpha (w : LoRAModuleWrapper) (self : LoRA)
  (a : option scalar) (stem : string) (values : odict Tensor) :
  build_group w (set_alpha self a) stem values =
  build_group w self stem values.
Proof. reflexivity. Qed.

Lemma build_layers_ignores_alpha (w : LoRAModuleWrapper) (a : option scalar)
  (groups : list (string * odict Tensor)) :
  forall self : LoRA,
    build_layers w (set_alpha self a) groups =
    (set_alpha (fst (build_layers w self groups)) a,
     snd (build_layers w self groups)).
Proof.
  induction groups as [ | [stem values] groups IH ]; intro self; simpl.
  - reflexivity.
  - rewrite build_group_ignores_alpha.
    destruct (build_group w self stem values) as [ | l | | e ];
      try reflexivity.
    + apply IH.
    + apply (IH (set_layers self (od_set (layers self) stem l))).
Qed.

(** Every delta in the adapter after the second loop was scaled from its
    own group. *)
Lemma build_layers_scale (w : LoRAModuleWrapper)
  (G : odict (odict Tensor)) (groups : list (string * odict Tensor)) :
  NoDup (od_keys G) ->
  forall (self self' : LoRA) (st : status),
    (forall stem values, In (stem, values) groups -> In (stem, values) G) ->
    (forall stem l, od_get (layers self) stem = Some l ->
       exists values, od_get G stem = Some values /\
                      scale_from_group (rank self) values l) ->
    build_layers w self groups = (self', st) ->
    forall stem l, od_get (layers self') stem = Some l ->
      exists values, od_get G stem = Some values /\
                     scale_from_group (rank self) values l.
Proof.
  intro Hnd.
  induction groups as [ | [stem0 values0] groups IH ];
    intros self self' st Hsub Hinv Hrun; simpl in Hrun.
  - injection Hrun as <- _. exact Hinv.
  - assert (Hsub' : forall stem values,
               In (stem, values) groups -> In (stem, values) G)
      by (intros s v Hin; apply Hsub; right; exact Hin).
    destruct (build_group w self stem0 values0) as [ | l0 | | e ] eqn:Hb.
    + exact (IH _ _ _ Hsub' Hinv Hrun).
    + refine (IH _ _ _ Hsub' _ Hrun).
      intros stem l. simpl. rewrite od_get_set.
      destruct (String.eqb_spec stem stem0) as [E | N]; [ | apply Hinv ].
      intro Hl. injection Hl as <-. subst stem0.
      exists values0. split.
      * apply od_get_in; [ exact Hnd | ]. apply Hsub. left. reflexivity.
      * exact (build_group_scale _ _ _ _ Hb).
    + injection Hrun as <- _. exact Hinv.
    + injection Hrun as <- _. exact Hinv.
Qed.

(** C5, as amended.  After parsing into a fresh adapter, every delta was
    scaled from the leaves of its own stem group: with the alpha leaf of the
    group, if it has one, and with scale 1.0 if it has none; the rank is the
    adapter-wide rank for a low-rank delta and the first dimension of
    [hada_w1_b] for a Hadamard delta.  The adapter-wide alpha that the first
    loop recorded is not read: with any other value the second loop builds
    the same deltas. *)
Theorem scale_uses_group_alpha (w : LoRAModuleWrapper) (self self' : LoRA)
  (state_dict : odict Tensor) (st : status) :
  layers self = [] ->
  load_from_dict w self state_dict = (self', st) ->
  (forall stem l, od_get (layers self') stem = Some l ->
     exists values,
       od_get (g_groups (group_keys self [] false state_dict)) stem
         = Some values /\
       scale_from_group (rank self') values l /\
       (od_get values "alpha" = None -> layer_scale l = s_one)) /\
  (forall a : option scalar,
     layers (fst (build_layers w
                    (set_alpha (g_self (group_keys self [] false state_dict)) a)
                    (g_groups (group_keys self [] false state_dict))))
     = layers (fst (build_layers w
                    (g_self (group_keys self [] false state_dict))
                    (g_groups (group_keys self [] false state_dict))))).
Proof.
  intros Hfresh Hload.
  split; [ | intro a; rewrite build_layers_ignores_alpha; reflexivity ].
  destruct (@group_keys_invariant state_dict self [] false (NoDup_nil _))
    as (Hl & _ & Hnd).
  unfold load_from_dict in Hload.
  set (g := group_keys self [] false state_dict) in *.
  assert (Hscale : forall stem l, od_get (layers self') stem = Some l ->
            exists values, od_get (g_groups g) stem = Some values /\
                           scale_from_group (rank self') values l).
  { destruct (g_error g) as [e | ].
    - injection Hload as <- _. rewrite Hl, Hfresh. discriminate.
    - destruct (build_layers_frame w (g_groups g) _ Hload) as (Hr & _).
      rewrite Hr.
      apply (@build_layers_scale w (g_groups g) (g_groups g) Hnd
               (g_self g) self' st); auto.
      rewrite Hl, Hfresh. discriminate. }
  intros stem l Hget.
  destruct (Hscale stem l Hget) as (values & Hv & Hs).
  exists values. repeat split; try assumption.
  intro Hnone. destruct Hs as (a & Ha & Hm).
  unfold local_alpha in Ha. rewrite Hnone in Ha. injection Ha as <-.
  destruct l as [ll | ll].
  - rewrite Hm. destruct (rank self'); reflexivity.
  - destruct Hm as (b & n & _ & _ & Hm). rewrite Hm. reflexivity.
Qed.

(** *** The manager *)

(** C4, as amended.  When the checkpoint is read and its parse returns
    early, [load_lora_module] stores the partially parsed adapter under the
    name in the loaded mapping and returns it. *)
Theorem aborted_adapter_is_stored (io : FileIO) (mgr : KohyaLoraManager)
  (name : string) (path_file : Path) (mult : scalar)
  (checkpoint : odict Tensor) (lora' : LoRA) :
  (if String.eqb (suffix path_file) ".safetensors"
   then load_file io (posix path_file)
   else torch_load io path_file) = Ok checkpoint ->
  load_from_dict (wrapper mgr)
    (LoRA_init name (mgr_device mgr) (mgr_dtype mgr) mult) checkpoint
    = (lora', Aborted) ->
  snd (load_lora_module io mgr name path_file mult) = Ok lora' /\
  od_get (loaded_loras
            (wrapper (fst (load_lora_module io mgr name path_file mult))))
         name = Some lora'.
Proof.
  intros Hread Hparse. unfold load_lora_module.
  rewrite Hread, Hparse. simpl. split; [ reflexivity | ].
  rewrite od_get_set, String.eqb_refl. reflexivity.
Qed.

(** ** Properties of discovery *)

(** *** The sub-module tree *)

(** Induction on a module with the property for all its children. *)
Fixpoint Module_children_ind (P : Module -> Prop)
  (step : forall oid cls attrs children,
      Forall (fun nc => P (snd nc)) children ->
      P (Mod oid cls attrs children))
  (m : Module) : P m :=
  match m with
  | Mod oid cls attrs children =>
      step oid cls attrs children
        ((fix all (cs : list (string * Module))
            : Forall (fun nc => P (snd nc)) cs :=
            match cs with
            | [] => Forall_nil _
            | nc :: cs' =>
                Forall_cons nc (Module_children_ind P step (snd nc)) (all cs')
            end) children)
  end.

(** Every registration below a module, in pre-order with the dotted names:
    what [named_modules] yields when no module object is registered
    twice. *)
Fixpoint all_modules (prefix : string) (pos : list nat) (m : Module)
  : list (string * list nat * Module) :=
  match m with
  | Mod _ _ _ children =>
      (prefix, pos, m) ::
      (fix over (i : nat) (cs : list (string * Module)) :=
         match cs with
         | [] => []
         | (n, c) :: cs' =>
             all_modules (submodule_prefix prefix n) (pos ++ [i]) c
               ++ over (S i) cs'
         end) 0 children
  end.

(** The entries [all_modules] lists for the children from index [i] on. *)
Fixpoint all_children (prefix : string) (pos : list nat) (i : nat)
  (cs : list (string * Module)) : list (string * list nat * Module) :=
  match cs with
  | [] => []
  | (n, c) :: cs' =>
      all_modules (submodule_prefix prefix n) (pos ++ [i]) c
        ++ all_children prefix pos (S i) cs'
  end.

Lemma all_modules_unfold (prefix : string) (pos : list nat) (oid : nat)
  (cls : PyClass) (attrs : LayerAttrs) (children : list (string * Module)) :
  all_modules prefix pos (Mod oid cls attrs children) =
  (prefix, pos, Mod oid cls attrs children)
    :: all_children prefix pos 0 children.
Proof.
  simpl. f_equal. generalize 0.
  induction children as [ | [n c] cs IH ]; intro i; simpl.
  - reflexivity.
  - rewrite IH. reflexivity.
Qed.

(** The module at a position relative to [m]. *)
Fixpoint sub_at (m : Module) (rel : list nat) : option Module :=
  match rel with
  | [] => Some m
  | i :: rel' =>
      match nth_error (mod_children m) i with
      | Some (_, c) => sub_at c rel'
      | None => None
      end
  end.

Lemma sub_at_app (m : Module) (r1 : list nat) :
  forall (r2 : list nat) (m1 : Module),
    sub_at m r1 = Some m1 -> sub_at m (r1 ++ r2) = sub_at m1 r2.
Proof.
  revert m. induction r1 as [ | i r1 IH ]; intros m r2 m1 H; simpl in *.
  - injection H as <-. reflexivity.
  - destruct (nth_error (mod_children m) i) as [[n c] | ];
      [ apply IH; exact H | discriminate H ].
Qed.

Definition e_pos (e : string * list nat * Module) : list nat := snd (fst e).
Definition e_mod (e : string * list nat * Module) : Module := snd e.

(** Every entry of [all_modules] is the module at its position. *)
Lemma all_modules_sound (m : Module) :
  forall (prefix : string) (pos : list nat) (e : string * list nat * Module),
    In e (all_modules prefix pos m) ->
    exists rel, e_pos e = pos ++ rel /\ sub_at m rel = Some (e_mod e).
Proof.
  induction m as [oid cls attrs children IH] using Module_children_ind.
  intros prefix pos e. rewrite all_modules_unfold. intros [E | Hin].
  - subst e. exists []. simpl. rewrite app_nil_r. auto.
  - assert (Hch : forall i cs,
               Forall (fun nc => forall prefix pos e,
                         In e (all_modules prefix pos (snd nc)) ->
                         exists rel, e_pos e = pos ++ rel /\
                                     sub_at (snd nc) rel = Some (e_mod e)) cs ->
               In e (all_children prefix pos i cs) ->
               exists j nc rel,
                 nth_error cs j = Some nc /\
                 e_pos e = pos ++ (i + j) :: rel /\
                 sub_at (snd nc) rel = Some (e_mod e)).
    { intros i cs. revert i.
      induction cs as [ | [n c] cs IHcs ]; intros i Hall Hin'; simpl in Hin'.
      - contradiction.
      - inversion Hall as [ | ? ? Hc Hrest ]; subst.
        apply in_app_or in Hin'. destruct Hin' as [Hin' | Hin'].
        + destruct (Hc _ _ _ Hin') as (rel & Hp & Hs).
          exists 0, (n, c), rel. simpl. rewrite Nat.add_0_r.
          rewrite <- app_assoc in Hp. auto.
        + destruct (IHcs (S i) Hrest Hin') as (j & nc & rel & Hn & Hp & Hs).
          exists (S j), nc, rel. simpl.
          rewrite Nat.add_succ_r. auto. }
    destruct (Hch 0 children IH Hin) as (j & [n c] & rel & Hn & Hp & Hs).
    exists (j :: rel). simpl in *. rewrite Hn. auto.
Qed.

Lemma all_children_sound (cs : list (string * Module)) :
  forall (prefix : string) (pos : list nat) (i : nat)
         (e : string * list nat * Module),
    In e (all_children prefix pos i cs) ->
    exists j nc rel,
      nth_error cs j = Some nc /\
      e_pos e = pos ++ (i + j) :: rel /\
      sub_at (snd nc) rel = Some (e_mod e).
Proof.
  induction cs as [ | [n c] cs IH ]; intros prefix pos i e Hin; simpl in Hin.
  - contradiction.
  - apply in_app_or in Hin. destruct Hin as [Hin | Hin].
    + destruct (all_modules_sound _ _ _ _ Hin) as (rel & Hp & Hs).
      exists 0, (n, c), rel. simpl. rewrite Nat.add_0_r.
      rewrite <- app_assoc in Hp. auto.
    + destruct (IH _ _ _ _ Hin) as (j & nc & rel & Hn & Hp & Hs).
      exists (S j), nc, rel. simpl. rewrite Nat.add_succ_r. auto.
Qed.

Lemma all_children_nth (cs : list (string * Module)) :
  forall (prefix : string) (pos : list nat) (i j : nat) (n : string)
         (c : Module) (e : string * list nat * Module),
    nth_error cs j = Some (n, c) ->
    In e (all_modules (submodule_prefix prefix n) (pos ++ [i + j]) c) ->
    In e (all_children prefix pos i cs).
Proof.
  induction cs as [ | [n0 c0] cs IH ]; intros prefix pos i j n c e Hn Hin.
  - destruct j; discriminate Hn.
  - simpl. apply in_or_app. destruct j as [ | j ]; simpl in Hn.
    + injection Hn as -> ->. left. rewrite Nat.add_0_r in Hin. exact Hin.
    + right. apply (@IH prefix pos (S i) j n c e Hn).
      rewrite Nat.add_succ_r in Hin. exact Hin.
Qed.

(** Every module at a position below [m] is listed by [all_modules]. *)
Lemma all_modules_complete (rel : list nat) :
  forall (m m' : Module) (prefix : string) (pos : list nat),
    sub_at m rel = Some m' ->
    exists n, In (n, pos ++ rel, m') (all_modules prefix pos m).
Proof.
  induction rel as [ | i rel IH ]; intros m m' prefix pos H; simpl in H.
  - injection H as <-. exists prefix. rewrite app_nil_r.
    destruct m as [oid cls attrs children]. rewrite all_modules_unfold.
    left. reflexivity.
  - destruct m as [oid cls attrs children]. simpl in H.
    destruct (nth_error children i) as [[k c] | ] eqn:Hn;
      [ | discriminate H ].
    destruct (IH c m' (submodule_prefix prefix k) (pos ++ [i]) H)
      as (n & Hin).
    exists n. rewrite all_modules_unfold. right.
    apply (@all_children_nth children prefix pos 0 i k c _ Hn).
    simpl. rewrite <- app_assoc in Hin. exact Hin.
Qed.

Lemma app_cons_neq_self (A : Type) (l r : list A) (a : A) :
  l ++ a :: r <> l.
Proof.
  intro H. apply (f_equal (@List.length A)) in H.
  rewrite length_app in H. simpl in H. lia.
Qed.

(** The positions [all_modules] lists are pairwise different. *)
Lemma all_modules_NoDup (m : Module) :
  forall (prefix : string) (pos : list nat),
    NoDup (map e_pos (all_modules prefix pos m)).
Proof.
  induction m as [oid cls attrs children IH] using Module_children_ind.
  intros prefix pos. rewrite all_modules_unfold. simpl. constructor.
  - intro Hin. apply in_map_iff in Hin. destruct Hin as (e & Hp & Hin).
    destruct (all_children_sound _ _ _ _ _ Hin)
      as (j & nc & rel & _ & Hq & _).
    unfold e_pos at 2 in Hp. simpl in Hp. rewrite Hq in Hp.
    exact (@app_cons_neq_self _ _ _ _ Hp).
  - generalize 0 as i.
    induction children as [ | [n c] cs IHcs ]; intro i; simpl.
    + constructor.
    + inversion IH as [ | ? ? Hc Hrest ]; subst.
      rewrite map_app. apply NoDup_app.
      * apply Hc.
      * apply IHcs. exact Hrest.
      * intros q Hq1 Hq2.
        apply in_map_iff in Hq1. destruct Hq1 as (e1 & Hp1 & Hin1).
        apply in_map_iff in Hq2. destruct Hq2 as (e2 & Hp2 & Hin2).
        destruct (all_modules_sound _ _ _ _ Hin1) as (r1 & Hr1 & _).
        destruct (all_children_sound _ _ _ _ _ Hin2)
          as (j & nc & r2 & _ & Hr2 & _).
        rewrite Hr1 in Hp1. rewrite Hr2 in Hp2. rewrite <- Hp2 in Hp1.
        rewrite <- app_assoc in Hp1. apply app_inv_head in Hp1.
        simpl in Hp1. injection Hp1 as Hi _. lia.
Qed.

(** *** Module objects registered more than once *)

(** The entries [named_modules] lists for the children from index [i] on,
    and the memo afterwards. *)
Fixpoint named_children (memo : list nat) (prefix : string) (pos : list nat)
  (i : nat) (cs : list (string * Module))
  : list (string * list nat * Module) * list nat :=
  match cs with
  | [] => ([], memo)
  | (n, c) :: cs' =>
      let r := named_modules memo (submodule_prefix prefix n) (pos ++ [i]) c in
      let r' := named_children (snd r) prefix pos (S i) cs' in
      (fst r ++ fst r', snd r')
  end.

Lemma named_modules_unfold (memo : list nat) (prefix : string)
  (pos : list nat) (oid : nat) (cls : PyClass) (attrs : LayerAttrs)
  (children : list (string * Module)) :
  named_modules memo prefix pos (Mod oid cls attrs children) =
  if existsb (Nat.eqb oid) memo then ([], memo)
  else ((prefix, pos, Mod oid cls attrs children)
          :: fst (named_children (oid :: memo) prefix pos 0 children),
        snd (named_children (oid :: memo) prefix pos 0 children)).
Proof.
  simpl. destruct (existsb (Nat.eqb oid) memo); [ reflexivity | ].
  match goal with
  | |- context [?F (oid :: memo) 0 children] =>
      assert (H : forall cs memo' i,
                 F memo' i cs = named_children memo' prefix pos i cs)
  end.
  { induction cs as [ | [n c] cs IH ]; intros memo' i; simpl.
    - reflexivity.
    - rewrite IH. reflexivity. }
  rewrite H. reflexivity.
Qed.

(** The identities of a module and its descendants, one for every
    registration. *)
Fixpoint object_ids (m : Module) : list nat :=
  match m with
  | Mod oid _ _ children =>
      oid :: (fix over (cs : list (string * Module)) : list nat :=
                match cs with
                | [] => []
                | (_, c) :: cs' => object_ids c ++ over cs'
                end) children
  end.

Fixpoint children_ids (cs : list (string * Module)) : list nat :=
  match cs with
  | [] => []
  | (_, c) :: cs' => object_ids c ++ children_ids cs'
  end.

Lemma object_ids_unfold (oid : nat) (cls : PyClass) (attrs : LayerAttrs)
  (children : list (string * Module)) :
  object_ids (Mod oid cls attrs children) = oid :: children_ids children.
Proof. reflexivity. Qed.

Lemma all_modules_ids (m : Module) :
  forall (prefix : string) (pos : list nat),
    map (fun e => mod_oid (e_mod e)) (all_modules prefix pos m)
    = object_ids m.
Proof.
  induction m as [oid cls attrs children IH] using Module_children_ind.
  intros prefix pos. rewrite all_modules_unfold, object_ids_unfold. simpl.
  f_equal. generalize 0 as i.
  induction children as [ | [n c] cs IHcs ]; intro i; simpl.
  - reflexivity.
  - inversion IH as [ | ? ? Hc Hrest ]; subst.
    rewrite map_app, Hc, (IHcs Hrest). reflexivity.
Qed.

(** What [named_modules] yields is among the registrations. *)
Lemma named_modules_incl (m : Module) :
  forall (memo : list nat) (prefix : string) (pos : list nat)
         (e : string * list nat * Module),
    In e (fst (named_modules memo prefix pos m)) ->
    In e (all_modules prefix pos m).
Proof.
  induction m as [oid cls attrs children IH] using Module_children_ind.
  intros memo prefix pos e.
  rewrite named_modules_unfold, all_modules_unfold.
  destruct (existsb (Nat.eqb oid) memo); simpl; [ contradiction | ].
  intros [E | Hin]; [ left; exact E | right ].
  revert Hin. generalize (oid :: memo) as memo', 0 as i.
  induction children as [ | [n c] cs IHcs ]; intros memo' i Hin;
    simpl in Hin.
  - contradiction.
  - inversion IH as [ | ? ? Hc Hrest ]; subst.
    simpl. apply in_or_app. apply in_app_or in Hin.
    destruct Hin as [Hin | Hin].
    + left. exact (Hc _ _ _ _ Hin).
    + right. exact (IHcs Hrest _ _ Hin).
Qed.

(** When the module objects below [m] are pairwise different and none of
    them is in the memo, [named_modules] yields every registration. *)
Lemma named_modules_fresh (m : Module) :
  forall (memo : list nat) (prefix : string) (pos : list nat),
    NoDup (object_ids m) ->
    (forall x, In x (object_ids m) -> ~ In x memo) ->
    named_modules memo prefix pos m
    = (all_modules prefix pos m, rev (object_ids m) ++ memo).
Proof.
  induction m as [oid cls attrs children IH] using Module_children_ind.
  intros memo prefix pos Hnd Hfresh.
  rewrite named_modules_unfold, all_modules_unfold.
  rewrite object_ids_unfold in *.
  destruct (existsb (Nat.eqb oid) memo) eqn:Hmemo.
  { apply existsb_exists in Hmemo. destruct Hmemo as (x & Hx & E).
    apply Nat.eqb_eq in E. subst x. exfalso.
    apply (Hfresh oid); [ left; reflexivity | exact Hx ]. }
  inversion Hnd as [ | ? ? Hnot Hnd' ]; subst.
  assert (Hch : forall cs memo' i,
             Forall (fun nc =>
                       forall memo prefix pos,
                         NoDup (object_ids (snd nc)) ->
                         (forall x, In x (object_ids (snd nc)) ->
                                    ~ In x memo) ->
                         named_modules memo prefix pos (snd nc)
                         = (all_modules prefix pos (snd nc),
                            rev (object_ids (snd nc)) ++ memo)) cs ->
             NoDup (children_ids cs) ->
             (forall x, In x (children_ids cs) -> ~ In x memo') ->
             named_children memo' prefix pos i cs
             = (all_children prefix pos i cs,
                rev (children_ids cs) ++ memo')).
  { induction cs as [ | [n c] cs IHcs ]; intros memo' i Hall Hnd1 Hfr; simpl.
    - reflexivity.
    - inversion Hall as [ | ? ? Hc Hrest ]; subst. simpl in Hc, Hnd1, Hfr.
      rewrite (Hc memo' (submodule_prefix prefix n) (pos ++ [i])).
      + simpl.
        rewrite (IHcs (rev (object_ids c) ++ memo') (S i) Hrest).
        * simpl. rewrite rev_app_distr, app_assoc. reflexivity.
        * exact (NoDup_app_remove_l _ _ Hnd1).
        * intros x Hx Hin. apply in_app_or in Hin.
          destruct Hin as [Hin | Hin].
          -- apply in_rev in Hin.
             exact (@NoDup_app_disjoint _ _ _ x Hnd1 Hin Hx).
          -- apply (Hfr x); [ apply in_or_app; right; exact Hx | exact Hin ].
      + exact (NoDup_app_remove_r _ _ Hnd1).
      + intros x Hx. apply Hfr. apply in_or_app. left. exact Hx. }
  rewrite (Hch children (oid :: memo) 0 IH Hnd').
  - simpl. rewrite <- app_assoc. reflexivity.
  - intros x Hx [E | Hin].
    + subst x. exact (Hnot Hx).
    + apply (Hfresh x); [ right; exact Hx | exact Hin ].
Qed.

Lemma children_ids_nth (cs : list (string * Module)) :
  forall (i : nat) (n : string) (c : Module),
    nth_error cs i = Some (n, c) ->
    exists l1 l2, children_ids cs = l1 ++ object_ids c ++ l2.
Proof.
  induction cs as [ | [n0 c0] cs IH ]; intros i n c Hn.
  - destruct i; discriminate Hn.
  - destruct i as [ | i ]; simpl in Hn.
    + injection Hn as -> ->. exists [], (children_ids cs). reflexivity.
    + destruct (IH i n c Hn) as (l1 & l2 & E).
      exists (object_ids c0 ++ l1), l2. simpl. rewrite E, app_assoc.
      reflexivity.
Qed.

(** The module objects below a descendant are among those below the
    module, and pairwise different when those are. *)
Lemma sub_at_ids (rel : list nat) :
  forall m m' : Module,
    sub_at m rel = Some m' ->
    (forall x, In x (object_ids m') -> In x (object_ids m)) /\
    (NoDup (object_ids m) -> NoDup (object_ids m')).
Proof.
  induction rel as [ | i rel IH ]; intros m m' H; simpl in H.
  - injection H as <-. auto.
  - destruct m as [oid cls attrs children]. simpl in H.
    destruct (nth_error children i) as [[n c] | ] eqn:Hn;
      [ | discriminate H ].
    destruct (IH c m' H) as [Hin Hnd].
    destruct (children_ids_nth _ _ Hn) as (l1 & l2 & E).
    rewrite object_ids_unfold, E. split.
    + intros x Hx. right. apply in_or_app. right. apply in_or_app. left.
      exact (Hin x Hx).
    + intro Hall. apply Hnd.
      inversion Hall as [ | ? ? _ Hrest ]; subst.
      exact (NoDup_app_remove_r _ _ (NoDup_app_remove_l _ _ Hrest)).
Qed.

Lemma sub_at_id_in (rel : list nat) (m m' : Module) :
  sub_at m rel = Some m' -> In (mod_oid m') (object_ids m).
Proof.
  intro H. apply (proj1 (sub_at_ids _ _ H)).
  destruct m' as [oid cls attrs children]. rewrite object_ids_unfold.
  left. reflexivity.
Qed.

Lemma NoDup_map_eq (A B : Type) (g : A -> B) (l : list A) (x y : A) :
  NoDup (map g l) -> In x l -> In y l -> g x = g y -> x = y.
Proof.
  induction l as [ | a l IH ]; simpl; intros Hnd Hx Hy E.
  - contradiction.
  - inversion Hnd as [ | ? ? Hnot Hnd' ]; subst.
    destruct Hx as [-> | Hx]; destruct Hy as [-> | Hy].
    + reflexivity.
    + exfalso. apply Hnot. rewrite E. apply in_map. exact Hy.
    + exfalso. apply Hnot. rewrite <- E. apply in_map. exact Hx.
    + exact (IH Hnd' Hx Hy E).
Qed.

(** When the module objects of a network are pairwise different, a module
    object is at one position only. *)
Lemma object_at_one_position (root : Module) (p1 p2 : list nat)
  (m1 m2 : Module) :
  NoDup (object_ids root) ->
  sub_at root p1 = Some m1 ->
  sub_at root p2 = Some m2 ->
  mod_oid m1 = mod_oid m2 ->
  p1 = p2.
Proof.
  intros Hnd H1 H2 E.
  destruct (all_modules_complete _ _ "" [] H1) as (n1 & Hin1).
  destruct (all_modules_complete _ _ "" [] H2) as (n2 & Hin2).
  rewrite <- (all_modules_ids root "" []) in Hnd.
  assert (Heq := @NoDup_map_eq _ _ (fun e => mod_oid (e_mod e)) _ _ _
                   Hnd Hin1 Hin2 E).
  injection Heq as _ Hp _. exact Hp.
Qed.

(** *** What discovery collects *)

(** A visit of the inner loop that passes the test: the position of the
    child, its dotted name and the child. *)
Definition c_pos (v : list nat * string * Module) : list nat := fst (fst v).
Definition c_dotted (v : list nat * string * Module) : string := snd (fst v).
Definition c_mod (v : list nat * string * Module) : Module := snd v.

Definition collected_in (prefix name : string)
  (descendants : list (string * list nat * Module))
  : list (list nat * string * Module) :=
  map (fun d => (e_pos d, dotted_name_of prefix name (fst (fst d)), e_mod d))
      (filter (fun d => patchable (e_mod d)) descendants).

(** All the visits of [find_modules], in order. *)
Definition collected (prefix : string) (root_module : Module)
  (targets : list string) : list (list nat * string * Module) :=
  flat_map
    (fun e => if is_target targets (e_mod e)
              then collected_in prefix (fst (fst e))
                     (fst (named_modules [] "" (e_pos e) (e_mod e)))
              else [])
    (fst (named_modules [] "" [] root_module)).

(** The visits there would be to every registration. *)
Definition all_collected (prefix : string) (root_module : Module)
  (targets : list string) : list (list nat * string * Module) :=
  flat_map
    (fun e => if is_target targets (e_mod e)
              then collected_in prefix (fst (fst e))
                                (all_modules "" (e_pos e) (e_mod e))
              else [])
    (all_modules "" [] root_module).

Lemma flat_map_ext_in (A B : Type) (g h : A -> list B) (l : list A) :
  (forall x, In x l -> g x = h x) -> flat_map g l = flat_map h l.
Proof.
  induction l as [ | a l IH ]; simpl; intro H.
  - reflexivity.
  - rewrite (H a (or_introl eq_refl)), IH; [ reflexivity | ].
    intros x Hx. apply H. right. exact Hx.
Qed.

Lemma collected_incl (prefix : string) (root_module : Module)
  (targets : list string) (v : list nat * string * Module) :
  In v (collected prefix root_module targets) ->
  In v (all_collected prefix root_module targets).
Proof.
  unfold collected, all_collected. intro Hin.
  apply in_flat_map in Hin. destruct Hin as (e & He & Hin).
  apply in_flat_map. exists e.
  split; [ exact (named_modules_incl _ _ _ _ _ He) | ].
  destruct (is_target targets (e_mod e)); [ | contradiction ].
  unfold collected_in in *. apply in_map_iff in Hin.
  destruct Hin as (d & E & Hd). apply in_map_iff. exists d.
  split; [ exact E | ].
  apply filter_In in Hd. apply filter_In.
  split; [ exact (named_modules_incl _ _ _ _ _ (proj1 Hd)) | exact (proj2 Hd) ].
Qed.

(** When the module objects of the network are pairwise different, the
    visits are to every registration. *)
Lemma collected_fresh (prefix : string) (root_module : Module)
  (targets : list string) :
  NoDup (object_ids root_module) ->
  collected prefix root_module targets
  = all_collected prefix root_module targets.
Proof.
  intro Hnd. unfold collected, all_collected.
  rewrite (named_modules_fresh root_module [] "" [] Hnd)
    by (intros x _ []).
  simpl. apply flat_map_ext_in. intros e He.
  destruct (is_target targets (e_mod e)); [ | reflexivity ].
  destruct (all_modules_sound _ _ _ _ He) as (rel & _ & Hsub).
  rewrite (named_modules_fresh (e_mod e) [] "" (e_pos e)).
  - reflexivity.
  - exact (proj2 (sub_at_ids _ _ Hsub) Hnd).
  - intros x _ [].
Qed.

Definition hook_of (net : Net) (v : list nat * string * Module) : Hook :=
  {| hook_net := net; hook_module := c_pos v;
     hook_name := replace_dots (c_dotted v) |}.

Definition register (mapping : odict Module)
  (v : list nat * string * Module) : odict Module :=
  od_set mapping (replace_dots (c_dotted v)) (c_mod v).

Lemma collect_children_spec (net : Net) (prefix name : string)
  (descendants : list (string * list nat * Module)) :
  forall acc : odict Module * list Hook,
    collect_children net prefix name acc descendants =
    (fold_left register (collected_in prefix name descendants) (fst acc),
     snd acc ++ map (hook_of net) (collected_in prefix name descendants)).
Proof.
  unfold collect_children, collected_in.
  induction descendants as [ | [[cn cpos] c] ds IH ]; intro acc; simpl.
  - rewrite app_nil_r. destruct acc; reflexivity.
  - unfold e_mod at 1 3. simpl. destruct (patchable c); simpl.
    + rewrite IH. simpl. rewrite <- app_assoc. reflexivity.
    + apply IH.
Qed.

Lemma find_modules_spec (net : Net) (prefix : string) (root_module : Module)
  (targets : list string) (hooks0 : list Hook) :
  find_modules net prefix root_module targets hooks0 =
  (fold_left register (collected prefix root_module targets) [],
   hooks0 ++ map (hook_of net) (collected prefix root_module targets)).
Proof.
  unfold find_modules, collected.
  generalize (@nil (string * Module)) as mapping.
  generalize hooks0 as hs.
  induction (fst (named_modules [] "" [] root_module))
    as [ | [[n pos] m] es IH ];
    intros hs mapping; simpl.
  - rewrite app_nil_r. reflexivity.
  - unfold e_mod at 1. simpl. destruct (is_target targets m).
    + rewrite collect_children_spec, IH. simpl.
      rewrite fold_left_app, map_app, app_assoc. reflexivity.
    + apply IH.
Qed.

(** The identifiers of a mapping are those it had and those registered. *)
Lemma fold_register_mem (vs : list (list nat * string * Module)) :
  forall (mapping : odict Module) (n : string),
    od_mem (fold_left register vs mapping) n = true <->
    od_mem mapping n = true \/
    In n (map (fun v => replace_dots (c_dotted v)) vs).
Proof.
  induction vs as [ | v vs IH ]; intros mapping n; simpl.
  - tauto.
  - rewrite IH. unfold register at 1. unfold od_mem at 1 2.
    rewrite od_get_set.
    destruct (String.eqb_spec n (replace_dots (c_dotted v))) as [E | N].
    + subst n. split; [ auto | ]. intros _. left. reflexivity.
    + split.
      * intros [H | H]; [ left; exact H | right; right; exact H ].
      * intros [H | [H | H]];
          [ left; exact H | congruence | right; exact H ].
Qed.

(** *** One hook per sub-layer *)

(** No allow-listed container has an allow-listed container among its
    proper descendants. *)
Definition no_nested_targets (targets : list string) (root_module : Module)
  : Prop :=
  forall e, In e (all_modules "" [] root_module) ->
    is_target targets (e_mod e) = true ->
    forall d, In d (all_modules "" (e_pos e) (e_mod e)) ->
      e_pos d <> e_pos e -> is_target targets (e_mod d) = false.

Lemma NoDup_map_filter (A B : Type) (g : A -> B) (p : A -> bool)
  (l : list A) :
  NoDup (map g l) -> NoDup (map g (filter p l)).
Proof.
  induction l as [ | a l IH ]; simpl; intro Hnd.
  - constructor.
  - inversion Hnd as [ | ? ? Hnot Hnd' ]; subst.
    destruct (p a); simpl; [ | apply IH; exact Hnd' ].
    constructor; [ | apply IH; exact Hnd' ].
    intro Hin. apply Hnot. apply in_map_iff in Hin.
    destruct Hin as (x & Hx & Hin). apply filter_In in Hin.
    apply in_map_iff. exists x. tauto.
Qed.

Lemma NoDup_flat_map (A B K : Type) (f : A -> list B) (key : A -> K)
  (l : list A) :
  NoDup (map key l) ->
  (forall x, In x l -> NoDup (f x)) ->
  (forall x y b, In x l -> In y l -> key x <> key y ->
                 In b (f x) -> In b (f y) -> False) ->
  NoDup (flat_map f l).
Proof.
  induction l as [ | a l IH ]; simpl; intros Hnd Heach Hdisj.
  - constructor.
  - inversion Hnd as [ | ? ? Hnot Hnd' ]; subst.
    apply NoDup_app.
    + apply Heach. left. reflexivity.
    + apply IH; [ exact Hnd' | intros; apply Heach; right; assumption | ].
      intros x y b Hx Hy. apply Hdisj; right; assumption.
    + intros b Hb1 Hb2. apply in_flat_map in Hb2.
      destruct Hb2 as (y & Hy & Hb2).
      apply (Hdisj a y b); auto.
      intro Hk. apply Hnot. rewrite Hk. apply in_map. exact Hy.
Qed.

Lemma collected_in_pos (prefix name : string)
  (descendants : list (string * list nat * Module)) :
  map c_pos (collected_in prefix name descendants) =
  map e_pos (filter (fun d => patchable (e_mod d)) descendants).
Proof.
  unfold collected_in. rewrite map_map. reflexivity.
Qed.

(** Without nested containers no position is collected twice. *)
Lemma all_collected_NoDup (prefix : string) (root_module : Module)
  (targets : list string) :
  no_nested_targets targets root_module ->
  NoDup (map c_pos (all_collected prefix root_module targets)).
Proof.
  intro Hnn. unfold all_collected. rewrite flat_map_concat_map, concat_map,
    map_map, <- flat_map_concat_map.
  apply (@NoDup_flat_map _ _ _ _ e_pos).
  - apply all_modules_NoDup.
  - intros e _. destruct (is_target targets (e_mod e)); [ | constructor ].
    rewrite collected_in_pos. apply NoDup_map_filter, all_modules_NoDup.
  - intros x y q Hx Hy Hne Hqx Hqy.
    destruct (is_target targets (e_mod x)) eqn:Htx; [ | contradiction ].
    destruct (is_target targets (e_mod y)) eqn:Hty; [ | contradiction ].
    rewrite collected_in_pos in Hqx, Hqy.
    apply in_map_iff in Hqx. destruct Hqx as (dx & Hdx & Hinx).
    apply in_map_iff in Hqy. destruct Hqy as (dy & Hdy & Hiny).
    apply filter_In in Hinx. destruct Hinx as [Hinx _].
    apply filter_In in Hiny. destruct Hiny as [Hiny _].
    destruct (all_modules_sound _ _ _ _ Hx) as (ax & Hax & Hsx).
    destruct (all_modules_sound _ _ _ _ Hy) as (ay & Hay & Hsy).
    destruct (all_modules_sound _ _ _ _ Hinx) as (rx & Hrx & _).
    destruct (all_modules_sound _ _ _ _ Hiny) as (ry & Hry & _).
    simpl in Hax, Hay.
    assert (Heq : ax ++ rx = ay ++ ry) by congruence.
    apply app_eq_app in Heq. destruct Heq as (t & [[E1 E2] | [E1 E2]]).
    + (* [x] lies below [y] *)
      destruct t as [ | i t ].
      { rewrite app_nil_r in E1. congruence. }
      assert (Hsub : sub_at (e_mod y) (i :: t) = Some (e_mod x)).
      { rewrite <- (sub_at_app _ _ (i :: t) Hsy), <- E1. exact Hsx. }
      destruct (all_modules_complete _ _ "" (e_pos y) Hsub) as (n & Hin).
      assert (Hfalse : is_target targets (e_mod x) = false).
      { apply (Hnn y Hy Hty (n, e_pos y ++ i :: t, e_mod x) Hin).
        apply app_cons_neq_self. }
      congruence.
    + (* [y] lies below [x] *)
      destruct t as [ | i t ].
      { rewrite app_nil_r in E1. congruence. }
      assert (Hsub : sub_at (e_mod x) (i :: t) = Some (e_mod y)).
      { rewrite <- (sub_at_app _ _ (i :: t) Hsx), <- E1. exact Hsy. }
      destruct (all_modules_complete _ _ "" (e_pos x) Hsub) as (n & Hin).
      assert (Hfalse : is_target targets (e_mod y) = false).
      { apply (Hnn x Hx Htx (n, e_pos x ++ i :: t, e_mod y) Hin).
        apply app_cons_neq_self. }
      congruence.
Qed.

(** *** The registry *)

Definition mapping_of (w : LoRAModuleWrapper) (net : Net) : odict Module :=
  match net with
  | TextEncoder => text_modules w
  | UNet => unet_modules w
  end.

(** Replacing dots by underscores keeps the dotted names of the collected
    sub-layers apart. *)
Definition flattening_injective (prefix : string) (root_module : Module)
  (targets : list string) : Prop :=
  forall v1 v2,
    In v1 (collected prefix root_module targets) ->
    In v2 (collected prefix root_module targets) ->
    replace_dots (c_dotted v1) = replace_dots (c_dotted v2) ->
    c_pos v1 = c_pos v2.

Lemma collected_dotted (prefix : string) (root_module : Module)
  (targets : list string) (v : list nat * string * Module) :
  In v (collected prefix root_module targets) ->
  exists name child_name,
    c_dotted v = dotted_name_of prefix name child_name.
Proof.
  unfold collected. intro Hin. apply in_flat_map in Hin.
  destruct Hin as (e & _ & Hin).
  destruct (is_target targets (e_mod e)); [ | contradiction ].
  unfold collected_in in Hin. apply in_map_iff in Hin.
  destruct Hin as (d & Hd & _). subst v.
  exists (fst (fst e)), (fst (fst d)). reflexivity.
Qed.

(** The identifiers of the two networks differ in their prefixes. *)
Lemma prefixes_differ (n1 c1 n2 c2 : string) :
  replace_dots (dotted_name_of LORA_PREFIX_TEXT_ENCODER n1 c1) <>
  replace_dots (dotted_name_of LORA_PREFIX_UNET n2 c2).
Proof.
  intro H. apply (f_equal (String.get 5)) in H.
  cbv in H. discriminate H.
Qed.

Lemma NoDup_map_by_key (A B C : Type) (f : A -> B) (g : A -> C)
  (l : list A) :
  NoDup (map g l) ->
  (forall x y, In x l -> In y l -> f x = f y -> g x = g y) ->
  NoDup (map f l).
Proof.
  induction l as [ | a l IH ]; simpl; intros Hnd Hinj.
  - constructor.
  - inversion Hnd as [ | ? ? Hnot Hnd' ]; subst. constructor.
    + intro Hin. apply in_map_iff in Hin. destruct Hin as (x & Hx & Hin).
      apply Hnot. rewrite <- (Hinj x a); auto.
      apply in_map. exact Hin.
    + apply IH; [ exact Hnd' | ]. intros x y Hx Hy. apply Hinj; auto.
Qed.

Lemma registry_hooks (unet_ text_encoder_ : Module) :
  hooks (LoRAModuleWrapper_init unet_ text_encoder_) =
  map (hook_of TextEncoder)
      (collected LORA_PREFIX_TEXT_ENCODER text_encoder_
                 TEXT_ENCODER_TARGET_REPLACE_MODULE)
  ++ map (hook_of UNet)
         (collected LORA_PREFIX_UNET unet_ UNET_TARGET_REPLACE_MODULE).
Proof.
  unfold LoRAModuleWrapper_init. simpl. rewrite !find_modules_spec.
  reflexivity.
Qed.

Lemma registry_mapping (unet_ text_encoder_ : Module) (net : Net) :
  mapping_of (LoRAModuleWrapper_init unet_ text_encoder_) net =
  match net with
  | TextEncoder =>
      fold_left register
        (collected LORA_PREFIX_TEXT_ENCODER text_encoder_
                   TEXT_ENCODER_TARGET_REPLACE_MODULE) []
  | UNet =>
      fold_left register
        (collected LORA_PREFIX_UNET unet_ UNET_TARGET_REPLACE_MODULE) []
  end.
Proof.
  unfold LoRAModuleWrapper_init. destruct net; simpl;
    rewrite !find_modules_spec; reflexivity.
Qed.

(** Every visit of [find_modules] is to a patchable sub-layer of the
    network, at the position recorded for it. *)
Lemma collected_sound (prefix : string) (root_module : Module)
  (targets : list string) (v : list nat * string * Module) :
  In v (collected prefix root_module targets) ->
  patchable (c_mod v) = true /\
  sub_at root_module (c_pos v) = Some (c_mod v).
Proof.
  intro Hin. apply collected_incl in Hin.
  unfold all_collected in Hin. apply in_flat_map in Hin.
  destruct Hin as (e & He & Hin).
  destruct (is_target targets (e_mod e)); [ | contradiction ].
  unfold collected_in in Hin. apply in_map_iff in Hin.
  destruct Hin as (d & <- & Hd). apply filter_In in Hd.
  destruct Hd as [Hd Hp]. split; [ exact Hp | ].
  destruct (@all_modules_sound root_module "" [] e He) as (rel & Hrel & Hsub).
  destruct (@all_modules_sound (e_mod e) "" (e_pos e) d Hd)
    as (rel' & Hrel' & Hsub').
  unfold c_pos, c_mod. simpl. rewrite Hrel', Hrel. simpl.
  rewrite (@sub_at_app root_module rel rel' (e_mod e) Hsub). exact Hsub'.
Qed.

(** Without nested containers and without a module object registered
    twice, no module object is collected twice. *)
Lemma collected_NoDup (prefix : string) (root_module : Module)
  (targets : list string) :
  no_nested_targets targets root_module ->
  NoDup (object_ids root_module) ->
  NoDup (map c_pos (collected prefix root_module targets)) /\
  NoDup (map (fun v => mod_oid (c_mod v))
             (collected prefix root_module targets)).
Proof.
  intros Hnn Hnd.
  assert (Hpos : NoDup (map c_pos (collected prefix root_module targets))).
  { rewrite (@collected_fresh prefix root_module targets Hnd).
    apply all_collected_NoDup. exact Hnn. }
  split; [ exact Hpos | ].
  apply (@NoDup_map_by_key _ _ _ _ c_pos); [ exact Hpos | ].
  intros x y Hx Hy E.
  destruct (collected_sound _ _ _ _ Hx) as [_ Hsx].
  destruct (collected_sound _ _ _ _ Hy) as [_ Hsy].
  exact (@object_at_one_position root_module _ _ _ _ Hnd Hsx Hsy E).
Qed.

Definition network_of (unet_ text_encoder_ : Module) (net : Net) : Module :=
  match net with
  | TextEncoder => text_encoder_
  | UNet => unet_
  end.

(** The module object a hook is registered on. *)
Definition hooked_object (unet_ text_encoder_ : Module) (h : Hook)
  : option nat :=
  option_map mod_oid
    (sub_at (network_of unet_ text_encoder_ (hook_net h)) (hook_module h)).

Lemma hooked_objects_of (unet_ text_encoder_ : Module) (net : Net)
  (prefix : string) (targets : list string) :
  map (hooked_object unet_ text_encoder_)
      (map (hook_of net)
           (collected prefix (network_of unet_ text_encoder_ net) targets))
  = map (fun v => Some (mod_oid (c_mod v)))
        (collected prefix (network_of unet_ text_encoder_ net) targets).
Proof.
  rewrite map_map. apply map_ext_in. intros v Hv.
  destruct (collected_sound _ _ _ _ Hv) as [_ Hsub].
  unfold hooked_object, hook_of. simpl. rewrite Hsub. reflexivity.
Qed.

Lemma NoDup_map_Some (A : Type) (l : list A) :
  NoDup l -> NoDup (map (@Some A) l).
Proof.
  intro Hnd. apply (@NoDup_map_by_key _ _ _ _ (fun x => x)).
  - rewrite map_id. exact Hnd.
  - intros x y _ _ E. injection E as E. exact E.
Qed.

(** C6, as amended.  In the registry built for two networks, every hook is
    keyed by an identifier of the mapping of its network, and every
    identifier of a mapping has a hook; this holds for all networks.  If
    neither network has an allow-listed container nested inside another,
    and no module object is registered at two places of the two networks,
    then no module object gets two hooks.  If moreover replacing dots keeps
    the dotted names of the collected sub-layers of each network apart, no
    identifier is used by two hooks. *)
Theorem discovery_hooks_once (unet_ text_encoder_ : Module) :
  let w := LoRAModuleWrapper_init unet_ text_encoder_ in
  (forall h, In h (hooks w) ->
             od_mem (mapping_of w (hook_net h)) (hook_name h) = true) /\
  (forall net n, od_mem (mapping_of w net) n = true ->
                 exists h, In h (hooks w) /\ hook_net h = net /\
                           hook_name h = n) /\
  (no_nested_targets TEXT_ENCODER_TARGET_REPLACE_MODULE text_encoder_ ->
   no_nested_targets UNET_TARGET_REPLACE_MODULE unet_ ->
   NoDup (object_ids text_encoder_ ++ object_ids unet_) ->
   NoDup (map (hooked_object unet_ text_encoder_) (hooks w)) /\
   (flattening_injective LORA_PREFIX_TEXT_ENCODER text_encoder_
                         TEXT_ENCODER_TARGET_REPLACE_MODULE ->
    flattening_injective LORA_PREFIX_UNET unet_ UNET_TARGET_REPLACE_MODULE ->
    NoDup (map hook_name (hooks w)))).
Proof.
  intro w. subst w.
  set (cte := collected LORA_PREFIX_TEXT_ENCODER text_encoder_
                        TEXT_ENCODER_TARGET_REPLACE_MODULE) in *.
  set (cun := collected LORA_PREFIX_UNET unet_ UNET_TARGET_REPLACE_MODULE)
    in *.
  assert (Hhooks := registry_hooks unet_ text_encoder_).
  assert (Hmap := registry_mapping unet_ text_encoder_).
  fold cte cun in Hhooks, Hmap.
  rewrite Hhooks.
  split; [ | split ].
  - intros h Hin. apply in_app_or in Hin.
    destruct Hin as [Hin | Hin]; apply in_map_iff in Hin;
      destruct Hin as (v & <- & Hin); rewrite Hmap; simpl;
      apply fold_register_mem; right;
      apply (in_map (fun v => replace_dots (c_dotted v))); exact Hin.
  - intros net n Hmem. rewrite Hmap in Hmem.
    destruct net; apply fold_register_mem in Hmem;
      destruct Hmem as [Hmem | Hmem]; try discriminate Hmem;
      apply in_map_iff in Hmem; destruct Hmem as (v & <- & Hin).
    + exists (hook_of TextEncoder v). split; [ | split; reflexivity ].
      apply in_or_app. left. apply in_map. exact Hin.
    + exists (hook_of UNet v). split; [ | split; reflexivity ].
      apply in_or_app. right. apply in_map. exact Hin.
  - intros Hnte Hnun Hids.
    assert (Hite := NoDup_app_remove_r _ _ Hids).
    assert (Hiun := NoDup_app_remove_l _ _ Hids).
    destruct (@collected_NoDup LORA_PREFIX_TEXT_ENCODER text_encoder_
                TEXT_ENCODER_TARGET_REPLACE_MODULE Hnte Hite)
      as [Hpte Hote].
    destruct (@collected_NoDup LORA_PREFIX_UNET unet_
                UNET_TARGET_REPLACE_MODULE Hnun Hiun)
      as [Hpun Houn].
    fold cte in Hpte, Hote. fold cun in Hpun, Houn.
    split.
    + assert (Hte : map (hooked_object unet_ text_encoder_)
                        (map (hook_of TextEncoder) cte)
                    = map (fun v => Some (mod_oid (c_mod v))) cte)
        by exact (@hooked_objects_of unet_ text_encoder_ TextEncoder
                    LORA_PREFIX_TEXT_ENCODER
                    TEXT_ENCODER_TARGET_REPLACE_MODULE).
      assert (Hun : map (hooked_object unet_ text_encoder_)
                        (map (hook_of UNet) cun)
                    = map (fun v => Some (mod_oid (c_mod v))) cun)
        by exact (@hooked_objects_of unet_ text_encoder_ UNet
                    LORA_PREFIX_UNET UNET_TARGET_REPLACE_MODULE).
      rewrite map_app, Hte, Hun.
      rewrite <- (map_map (fun v => mod_oid (c_mod v)) (@Some nat) cte).
      rewrite <- (map_map (fun v => mod_oid (c_mod v)) (@Some nat) cun).
      rewrite <- map_app. apply NoDup_map_Some.
      apply NoDup_app; [ exact Hote | exact Houn | ].
      intros x H1 H2.
      apply in_map_iff in H1. destruct H1 as (v1 & E1 & Hv1).
      apply in_map_iff in H2. destruct H2 as (v2 & E2 & Hv2).
      destruct (collected_sound _ _ _ _ Hv1) as [_ Hs1].
      destruct (collected_sound _ _ _ _ Hv2) as [_ Hs2].
      apply sub_at_id_in in Hs1. apply sub_at_id_in in Hs2.
      rewrite E1 in Hs1. rewrite E2 in Hs2.
      exact (@NoDup_app_disjoint _ _ _ x Hids Hs1 Hs2).
    + intros Hjte Hjun.
      rewrite map_app, !map_map. simpl. apply NoDup_app.
      * apply (@NoDup_map_by_key _ _ _ _ c_pos); [ exact Hpte | exact Hjte ].
      * apply (@NoDup_map_by_key _ _ _ _ c_pos); [ exact Hpun | exact Hjun ].
      * intros q H1 H2. apply in_map_iff in H1. apply in_map_iff in H2.
        destruct H1 as (v1 & E1 & Hin1). destruct H2 as (v2 & E2 & Hin2).
        destruct (@collected_dotted _ _ _ v1 Hin1) as (n1 & c1 & D1).
        destruct (@collected_dotted _ _ _ v2 Hin2) as (n2 & c2 & D2).
        rewrite D1 in E1. rewrite D2 in E2. rewrite <- E2 in E1.
        exact (@prefixes_differ n1 c1 n2 c2 E1).
Qed.

(** ** The rest of the registry and of the manager *)

Definition set_multiplier (self : LoRA) (m : scalar) : LoRA :=
  {| adapter_name := adapter_name self; layers := layers self;
     multiplier := m; device := device self;
     dtype := dtype self; rank := rank self; alpha := alpha self |}.

Definition set_hooks (w : LoRAModuleWrapper) (hs : list Hook)
  : LoRAModuleWrapper :=
  {| unet := unet w; text_encoder := text_encoder w; hooks := hs;
     text_modules := text_modules w; unet_modules := unet_modules w;
     applied_loras := applied_loras w; loaded_loras := loaded_loras w |}.

(** [LoRAModuleWrapper.clear_hooks()]: every handle is removed and the list
    is emptied. *)
Definition clear_hooks (w : LoRAModuleWrapper) : LoRAModuleWrapper :=
  set_hooks w [].

(** [clear_applied_loras()] and [clear_loaded_loras()] *)
Definition clear_applied_loras (w : LoRAModuleWrapper) : LoRAModuleWrapper :=
  set_applied w [].

Definition clear_loaded_loras (w : LoRAModuleWrapper) : LoRAModuleWrapper :=
  set_loaded w [].

(** [KohyaLoraManager.__init__(pipe, lora_path)], given the two networks of
    the pipeline, the device [choose_torch_device()] names and the dtype of
    the UNet. *)
Definition KohyaLoraManager_init (unet_ text_encoder_ : Module)
  (lora_path_ : string) (dev : Device) (dt : Dtype) : KohyaLoraManager :=
  {| lora_path := lora_path_;
     wrapper := LoRAModuleWrapper_init unet_ text_encoder_;
     mgr_device := dev; mgr_dtype := dt; loras_to_load := [] |}.

(** The [for suffix in ...] loop of [apply_lora_model] with the test after
    it: the first candidate that exists, or nothing when the last one tried
    does not exist either. *)
Fixpoint search_file (io : FileIO) (candidates : list Path) : option Path :=
  match candidates with
  | [] => None
  | path_file :: rest =>
      if exists_ io path_file then Some path_file else search_file io rest
  end.

Definition lora_suffixes : list string := ["ckpt"; "safetensors"; "pt"].

(** [apply_lora_model(name, mult)].  [join base file] is pathlib's
    [Path(base, file)].  The adapter is one object, shared by the loaded and
    the active mapping: [lora.multiplier = mult] shows through both. *)
Definition apply_lora_model (io : FileIO) (join : string -> string -> Path)
  (self : KohyaLoraManager) (name : string) (mult : scalar)
  : KohyaLoraManager * result unit :=
  let candidates :=
    map (fun sfx => join (lora_path self) (name ++ "." ++ sfx)%string)
        lora_suffixes in
  match search_file io candidates with
  | None => (self, Ok tt)
  | Some path_file =>
      let found :=
        match od_get (loaded_loras (wrapper self)) name with
        | Some lora => (self, Ok lora)
        | None => load_lora_module io self name path_file mult
        end in
      match snd found with
      | Raise e => (fst found, Raise e)
      | Ok lora =>
          let lora' := set_multiplier lora mult in
          let w := wrapper (fst found) in
          (set_wrapper (fst found)
             (set_applied
                (set_loaded w (od_set (loaded_loras w) name lora'))
                (od_set (applied_loras w) name lora')),
           Ok tt)
      end
  end.

(** [unload_applied_loras(loras_to_load)], over a copy of the active names. *)
Definition unload_applied_loras (self : KohyaLoraManager)
  (keep : list string) : KohyaLoraManager :=
  fold_left
    (fun (m : KohyaLoraManager) (name : string) =>
       if existsb (String.eqb name) keep then m
       else unload_applied_lora m name)
    (od_keys (applied_loras (wrapper self))) self.

(** [clear_loras()] *)
Definition clear_loras (self : KohyaLoraManager) : KohyaLoraManager :=
  {| lora_path := lora_path self;
     wrapper := clear_applied_loras (wrapper self);
     mgr_device := mgr_device self; mgr_dtype := mgr_dtype self;
     loras_to_load := [] |}.

(** ** More properties of adapter parsing *)

(** *** Grouping *)

Lemma split_first_dot_inv (key : string) :
  forall stem leaf,
    split_first_dot key = (stem, Some leaf) ->
    key = (stem ++ "." ++ leaf)%string.
Proof.
  induction key as [ | c key IH ]; intros stem leaf H; simpl in H.
  - discriminate H.
  - destruct (Ascii.eqb_spec c dot) as [E | N].
    + injection H as <- <-. subst c. reflexivity.
    + destruct (split_first_dot key) as [a b].
      injection H as <- ->. simpl. f_equal. apply IH. reflexivity.
Qed.

(** The leaf stored for a stem and a leaf name. *)
Definition lookup_leaf (groups : odict (odict Tensor)) (stem leaf : string)
  : option Tensor :=
  match od_get groups stem with
  | Some leaves => od_get leaves leaf
  | None => None
  end.

(** [state_dict_groupped[stem][leaf] = value], creating the group first. *)
Definition add_leaf (groups : odict (odict Tensor)) (stem leaf : string)
  (value : Tensor) : odict (odict Tensor) :=
  od_set groups stem
    (od_set match od_get groups stem with Some d => d | None => [] end
            leaf value).

Lemma lookup_add_leaf (groups : odict (odict Tensor))
  (stem leaf stem' leaf' : string) (value : Tensor) :
  lookup_leaf (add_leaf groups stem leaf value) stem' leaf' =
  if String.eqb stem' stem && String.eqb leaf' leaf then Some value
  else lookup_leaf groups stem' leaf'.
Proof.
  unfold lookup_leaf, add_leaf. rewrite od_get_set.
  destruct (String.eqb_spec stem' stem) as [E | N]; simpl.
  - subst stem'. rewrite od_get_set.
    destruct (String.eqb leaf' leaf); [ reflexivity | ].
    destruct (od_get groups stem); reflexivity.
  - reflexivity.
Qed.

(** When the first loop finishes, every key had a dot and every value sits
    in the group of its stem, unless a later item of the list replaced it. *)
Lemma group_keys_finished (items : list (string * Tensor)) :
  forall (self : LoRA) (groupped : odict (odict Tensor)) (is_loha : bool),
    g_error (group_keys self groupped is_loha items) = None ->
    (forall key value, In (key, value) items ->
       exists stem leaf, split_first_dot key = (stem, Some leaf)) /\
    (forall stem leaf,
       (forall key, In key (od_keys items) ->
                    split_first_dot key <> (stem, Some leaf)) ->
       lookup_leaf (g_groups (group_keys self groupped is_loha items))
                   stem leaf
       = lookup_leaf groupped stem leaf) /\
    (NoDup (od_keys items) ->
     forall key value stem leaf,
       In (key, value) items ->
       split_first_dot key = (stem, Some leaf) ->
       lookup_leaf (g_groups (group_keys self groupped is_loha items))
                   stem leaf = Some value).
Proof.
  induction items as [ | [key value] items IH ];
    intros self groupped is_loha Herr.
  - simpl. repeat split; try contradiction; reflexivity.
  - simpl in Herr |- *.
    destruct (split_first_dot key) as [stem0 [leaf0 | ]] eqn:Hsplit;
      [ | discriminate Herr ].
    fold (add_leaf groupped stem0 leaf0 value) in Herr |- *.
    assert (Hrec : exists self' f',
               group_keys self' (add_leaf groupped stem0 leaf0 value) f' items
               = (if endswith leaf0 "alpha"
                  then match alpha self with
                       | Some _ =>
                           group_keys self
                             (add_leaf groupped stem0 leaf0 value)
                             is_loha items
                       | None =>
                           match item value with
                           | Ok a =>
                               group_keys (set_alpha self (Some a))
                                 (add_leaf groupped stem0 leaf0 value)
                                 is_loha items
                           | Raise e =>
                               {| g_self := self;
                                  g_groups :=
                                    add_leaf groupped stem0 leaf0 value;
                                  g_is_loha := is_loha;
                                  g_error := Some e |}
                           end
                       end
                  else
                    group_keys
                      (if has_tracked_prefix stem0
                       then match rank self, shape value with
                            | None, [n; _] =>
                                if String.eqb leaf0 "lora_down.weight"
                                then set_rank self (Some n) else self
                            | _, _ => self
                            end
                       else self)
                      (add_leaf groupped stem0 leaf0 value)
                      (if contains leaf0 "hada_t1" then true else is_loha)
                      items)).
    { destruct (endswith leaf0 "alpha").
      - destruct (alpha self); [ eauto | ].
        destruct (item value); [ eauto | discriminate Herr ].
      - eauto. }
    destruct Hrec as (self' & f' & Hrec). rewrite <- Hrec in Herr |- *.
    destruct (IH self' _ f' Herr) as (Hall & Hkeep & Hfind).
    split; [ | split ].
    + intros k v [E | Hin]; [ injection E as <- <-; eauto | eauto ].
    + intros stem leaf Hno. rewrite Hkeep.
      * rewrite lookup_add_leaf.
        destruct (String.eqb_spec stem stem0) as [E1 | N1];
          destruct (String.eqb_spec leaf leaf0) as [E2 | N2]; simpl;
          try reflexivity.
        subst. exfalso. apply (Hno key); [ left; reflexivity | exact Hsplit ].
      * intros k Hk. apply Hno. right. exact Hk.
    + intros Hnd k v stem leaf Hin Hs.
      inversion Hnd as [ | ? ? Hnot Hnd' ]; subst.
      destruct Hin as [E | Hin].
      * injection E as <- <-. rewrite Hs in Hsplit.
        injection Hsplit as <- <-.
        rewrite Hkeep.
        -- rewrite lookup_add_leaf, !String.eqb_refl. reflexivity.
        -- intros k' Hk' Hs'. apply Hnot.
           rewrite (split_first_dot_inv _ Hs), <- (split_first_dot_inv _ Hs').
           exact Hk'.
      * apply (Hfind Hnd' k v stem leaf Hin Hs).
Qed.

(** X1.  When the first loop of [load_from_dict] finishes on a state mapping
    (a dictionary: its keys are distinct), every key [stem.leaf] has its
    tensor at [state_dict_groupped[stem][leaf]]: grouping loses no tensor and
    mixes none up. *)
Theorem grouping_keeps_every_tensor (self : LoRA) (state_dict : odict Tensor)
  (key : string) (value : Tensor) :
  NoDup (od_keys state_dict) ->
  g_error (group_keys self [] false state_dict) = None ->
  In (key, value) state_dict ->
  exists stem leaf,
    key = (stem ++ "." ++ leaf)%string /\
    split_first_dot key = (stem, Some leaf) /\
    lookup_leaf (g_groups (group_keys self [] false state_dict)) stem leaf
      = Some value.
Proof.
  intros Hnd Herr Hin.
  destruct (group_keys_finished state_dict self [] false Herr)
    as (Hall & _ & Hfind).
  destruct (Hall key value Hin) as (stem & leaf & Hs).
  exists stem, leaf. split; [ | split ].
  - exact (split_first_dot_inv _ Hs).
  - exact Hs.
  - exact (Hfind Hnd key value stem leaf Hin Hs).
Qed.

(** The first loop raises [ValueError] from the unpacking of a split
    without a dot, or what [value.item()] raised on an alpha leaf. *)
Lemma group_keys_error (items : list (string * Tensor)) :
  forall (self : LoRA) (groupped : odict (odict Tensor)) (is_loha : bool)
         (e : exn),
    g_error (group_keys self groupped is_loha items) = Some e ->
    e = ValueError \/
    exists key value, In (key, value) items /\ item value = Raise e.
Proof.
  induction items as [ | [key value] items IH ];
    intros self groupped is_loha e Herr; simpl in Herr.
  - discriminate Herr.
  - assert (Hrest : forall self' g' f',
               g_error (group_keys self' g' f' items) = Some e ->
               e = ValueError \/
               exists k v, In (k, v) ((key, value) :: items) /\
                           item v = Raise e).
    { intros self' g' f' H.
      destruct (IH _ _ _ _ H) as [E | (k & v & Hin & Hi)];
        [ left; exact E
        | right; exists k, v; split; [ right | ]; assumption ]. }
    destruct (split_first_dot key) as [stem [leaf | ]].
    + destruct (endswith leaf "alpha").
      * destruct (alpha self); [ exact (Hrest _ _ _ Herr) | ].
        destruct (item value) as [a | e0] eqn:Hitem;
          [ exact (Hrest _ _ _ Herr) | ].
        simpl in Herr. injection Herr as ->.
        right. exists key, value. split; [ left; reflexivity | exact Hitem ].
      * exact (Hrest _ _ _ Herr).
    + simpl in Herr. injection Herr as <-. left. reflexivity.
Qed.

(** X2.  A key without a dot anywhere in the state mapping makes
    [load_from_dict] raise out of its first loop: the second loop never
    runs and the adapter has the deltas it had before the call.  The
    exception is [ValueError], unless [item()] raised on an alpha leaf
    first. *)
Theorem key_without_dot_raises (w : LoRAModuleWrapper) (self : LoRA)
  (state_dict : odict Tensor) (key : string) (value : Tensor) :
  In (key, value) state_dict ->
  snd (split_first_dot key) = None ->
  exists e,
    snd (load_from_dict w self state_dict) = Raised e /\
    layers (fst (load_from_dict w self state_dict)) = layers self /\
    (e = ValueError \/
     exists k v, In (k, v) state_dict /\ item v = Raise e).
Proof.
  intros Hin Hnodot. unfold load_from_dict.
  destruct (@group_keys_invariant state_dict self [] false (NoDup_nil _))
    as (Hl & _ & _).
  destruct (g_error (group_keys self [] false state_dict)) as [e | ] eqn:Herr.
  - exists e. simpl. split; [ reflexivity | split; [ exact Hl | ] ].
    exact (group_keys_error _ _ _ _ Herr).
  - exfalso.
    destruct (group_keys_finished state_dict self [] false Herr)
      as (Hall & _ & _).
    destruct (Hall key value Hin) as (stem & leaf & Hs).
    rewrite Hs in Hnodot. discriminate Hnodot.
Qed.

(** *** The adapter-wide alpha and rank *)

(** The first loop over a concatenation. *)
Lemma group_keys_app (pre post : list (string * Tensor)) :
  forall (self : LoRA) (groupped : odict (odict Tensor)) (is_loha : bool),
    group_keys self groupped is_loha (pre ++ post) =
    match g_error (group_keys self groupped is_loha pre) with
    | Some _ => group_keys self groupped is_loha pre
    | None =>
        group_keys (g_self (group_keys self groupped is_loha pre))
                   (g_groups (group_keys self groupped is_loha pre))
                   (g_is_loha (group_keys self groupped is_loha pre)) post
    end.
Proof.
  induction pre as [ | [key value] pre IH ];
    intros self groupped is_loha; simpl.
  - reflexivity.
  - destruct (split_first_dot key) as [stem [leaf | ]]; [ | reflexivity ].
    destruct (endswith leaf "alpha").
    + destruct (alpha self); [ apply IH | ].
      destruct (item value); [ apply IH | reflexivity ].
    + apply IH.
Qed.

(** Once set, the adapter-wide alpha and rank are not assigned again. *)
Lemma group_keys_alpha_set (items : list (string * Tensor)) :
  forall (self : LoRA) (groupped : odict (odict Tensor)) (is_loha : bool)
         (a : scalar),
    alpha self = Some a ->
    alpha (g_self (group_keys self groupped is_loha items)) = Some a.
Proof.
  induction items as [ | [key value] items IH ];
    intros self groupped is_loha a Ha; simpl.
  - exact Ha.
  - destruct (split_first_dot key) as [stem [leaf | ]]; [ | exact Ha ].
    destruct (endswith leaf "alpha").
    + rewrite Ha. apply IH. exact Ha.
    + apply IH.
      destruct (has_tracked_prefix stem); [ | exact Ha ].
      destruct (rank self); [ exact Ha | ].
      destruct (shape value) as [ | n [ | m [ | ? ? ] ] ]; try exact Ha.
      destruct (String.eqb leaf "lora_down.weight"); exact Ha.
Qed.

Lemma group_keys_rank_set (items : list (string * Tensor)) :
  forall (self : LoRA) (groupped : odict (odict Tensor)) (is_loha : bool)
         (r : nat),
    rank self = Some r ->
    rank (g_self (group_keys self groupped is_loha items)) = Some r.
Proof.
  induction items as [ | [key value] items IH ];
    intros self groupped is_loha r Hr; simpl.
  - exact Hr.
  - destruct (split_first_dot key) as [stem [leaf | ]]; [ | exact Hr ].
    destruct (endswith leaf "alpha").
    + destruct (alpha self); [ apply IH; exact Hr | ].
      destruct (item value); [ apply IH; exact Hr | exact Hr ].
    + apply IH.
      destruct (has_tracked_prefix stem); [ | exact Hr ].
      rewrite Hr. exact Hr.
Qed.

(** X3.  The adapter-wide alpha is the value of the first leaf whose name
    ends in "alpha", whatever its stem: if the first loop gets through the
    items before such a leaf without setting alpha, the adapter ends with
    the value of that leaf, whatever follows and however the call ends. *)
Theorem first_alpha_leaf_wins (w : LoRAModuleWrapper) (self : LoRA)
  (pre post : list (string * Tensor)) (key stem leaf : string)
  (value : Tensor) (a : scalar) :
  g_error (group_keys self [] false pre) = None ->
  alpha (g_self (group_keys self [] false pre)) = None ->
  split_first_dot key = (stem, Some leaf) ->
  endswith leaf "alpha" = true ->
  item value = Ok a ->
  alpha (fst (load_from_dict w self (pre ++ (key, value) :: post))) = Some a.
Proof.
  intros Herr Hnone Hsplit Hends Hitem.
  assert (Hfirst : alpha (g_self (group_keys self [] false
                                    (pre ++ (key, value) :: post))) = Some a).
  { rewrite group_keys_app, Herr. simpl.
    rewrite Hsplit, Hends, Hnone, Hitem.
    apply group_keys_alpha_set. reflexivity. }
  unfold load_from_dict.
  destruct (g_error (group_keys self [] false (pre ++ (key, value) :: post))).
  - exact Hfirst.
  - destruct (build_layers w _ _) as [self' st] eqn:Hrun.
    destruct (build_layers_frame w _ _ Hrun) as (_ & Ha & _).
    simpl. rewrite Ha. exact Hfirst.
Qed.

(** X4.  The adapter-wide rank is the first dimension of the first
    [lora_down.weight] leaf that has two dimensions and a stem with a
    tracked prefix: later leaves do not change it, whatever their first
    dimension. *)
Theorem first_down_weight_sets_rank (w : LoRAModuleWrapper) (self : LoRA)
  (pre post : list (string * Tensor)) (key stem : string)
  (value : Tensor) (n m : nat) :
  g_error (group_keys self [] false pre) = None ->
  rank (g_self (group_keys self [] false pre)) = None ->
  split_first_dot key = (stem, Some "lora_down.weight") ->
  has_tracked_prefix stem = true ->
  shape value = [n; m] ->
  rank (fst (load_from_dict w self (pre ++ (key, value) :: post))) = Some n.
Proof.
  intros Herr Hnone Hsplit Hprefix Hshape.
  assert (Hfirst : rank (g_self (group_keys self [] false
                                   (pre ++ (key, value) :: post))) = Some n).
  { rewrite group_keys_app, Herr. simpl.
    rewrite Hsplit. simpl. rewrite Hprefix, Hnone, Hshape.
    apply group_keys_rank_set. reflexivity. }
  unfold load_from_dict.
  destruct (g_error (group_keys self [] false (pre ++ (key, value) :: post))).
  - exact Hfirst.
  - destruct (build_layers w _ _) as [self' st] eqn:Hrun.
    destruct (build_layers_frame w _ _ Hrun) as (Hr & _).
    simpl. rewrite Hr. exact Hfirst.
Qed.

(** *** What parsing keeps *)

Lemma od_set_in (V : Type) (d : odict V) (k x : string) (v y : V) :
  In (x, y) (od_set d k v) -> (x = k /\ y = v) \/ In (x, y) d.
Proof.
  induction d as [ | [k' v'] d IH ]; simpl.
  - intros [E | []]. injection E as <- <-. left. split; reflexivity.
  - destruct (String.eqb k k'); simpl.
    + intros [E | H]; [ injection E as <- <-; left; split; reflexivity
                      | right; right; exact H ].
    + intros [E | H]; [ right; left; exact E | ].
      destruct (IH H) as [L | R]; [ left; exact L | right; right; exact R ].
Qed.

Lemma od_set_mem_mono (V : Type) (d : odict V) (k x : string) (v : V) :
  od_mem d x = true -> od_mem (od_set d k v) x = true.
Proof.
  unfold od_mem. rewrite od_get_set.
  destruct (String.eqb x k); [ reflexivity | auto ].
Qed.

(** The first loop does not assign the multiplier, the device or the
    dtype. *)
Lemma group_keys_keeps (items : list (string * Tensor)) :
  forall (self : LoRA) (groupped : odict (odict Tensor)) (is_loha : bool),
    let g := group_keys self groupped is_loha items in
    multiplier (g_self g) = multiplier self /\
    device (g_self g) = device self /\
    dtype (g_self g) = dtype self.
Proof.
  induction items as [ | [key value] items IH ];
    intros self groupped is_loha; simpl.
  - auto.
  - destruct (split_first_dot key) as [stem [leaf | ]]; simpl; [ | auto ].
    set (groupped' := od_set groupped stem _).
    destruct (endswith leaf "alpha").
    + destruct (alpha self) as [a | ].
      * apply IH.
      * destruct (item value) as [a | e]; simpl; [ | auto ].
        exact (IH (set_alpha self (Some a)) groupped' is_loha).
    + match goal with
      | |- context [group_keys ?self' groupped' ?f items] =>
          destruct (IH self' groupped' f) as (Hm & Hd & Ht);
          assert (Hs : multiplier self' = multiplier self /\
                       device self' = device self /\
                       dtype self' = dtype self)
      end.
      { destruct (has_tracked_prefix stem); [ | auto ].
        destruct (rank self); [ auto | ].
        destruct (shape value) as [ | n [ | m [ | ? ? ] ] ]; auto;
          destruct (String.eqb leaf "lora_down.weight"); auto. }
      destruct Hs as (Hs1 & Hs2 & Hs3).
      repeat split; congruence.
Qed.

(** The stems of the groups are first components of keys. *)
Lemma group_keys_stems (items : list (string * Tensor)) :
  forall (self : LoRA) (groupped : odict (odict Tensor)) (is_loha : bool)
         (stem : string),
    In stem (od_keys (g_groups (group_keys self groupped is_loha items))) ->
    In stem (od_keys groupped) \/
    exists key value,
      In (key, value) items /\ fst (split_first_dot key) = stem.
Proof.
  induction items as [ | [key value] items IH ];
    intros self groupped is_loha stem Hin; simpl in Hin.
  - left. exact Hin.
  - destruct (split_first_dot key) as [stem0 [leaf | ]] eqn:Hs;
      [ | left; exact Hin ].
    set (groupped' := od_set groupped stem0 _) in Hin.
    assert (Hnew : In stem (od_keys groupped') ->
               In stem (od_keys groupped) \/
               exists k v, In (k, v) ((key, value) :: items) /\
                           fst (split_first_dot k) = stem).
    { intro L. apply od_set_keys_in in L. destruct L as [-> | L].
      - right. exists key, value. split; [ left; reflexivity | ].
        rewrite Hs. reflexivity.
      - left. exact L. }
    assert (Hrest : forall self' f',
               In stem (od_keys (g_groups
                                   (group_keys self' groupped' f' items))) ->
               In stem (od_keys groupped) \/
               exists k v, In (k, v) ((key, value) :: items) /\
                           fst (split_first_dot k) = stem).
    { intros self' f' H. destruct (IH _ _ _ _ H) as [L | (k & v & Hi & E)].
      - exact (Hnew L).
      - right. exists k, v. split; [ right; exact Hi | exact E ]. }
    destruct (endswith leaf "alpha").
    + destruct (alpha self).
      * exact (Hrest _ _ Hin).
      * destruct (item value); [ exact (Hrest _ _ Hin) | exact (Hnew Hin) ].
    + exact (Hrest _ _ Hin).
Qed.

(** The second loop does not assign the multiplier, the device or the dtype
    either, and it never removes a delta. *)
Lemma build_layers_keeps (w : LoRAModuleWrapper)
  (groups : list (string * odict Tensor)) :
  forall (self self' : LoRA) (st : status),
    build_layers w self groups = (self', st) ->
    multiplier self' = multiplier self /\
    device self' = device self /\
    dtype self' = dtype self /\
    forall stem, od_mem (layers self) stem = true ->
                 od_mem (layers self') stem = true.
Proof.
  induction groups as [ | [stem values] groups IH ];
    intros self self' st Hrun; simpl in Hrun.
  - injection Hrun as <- _. auto.
  - destruct (build_group w self stem values) as [ | l | | e ].
    + exact (IH _ _ _ Hrun).
    + destruct (IH _ _ _ Hrun) as (Hm & Hd & Ht & Hk).
      repeat split; try assumption.
      intros s Hs. apply Hk. simpl. apply od_set_mem_mono. exact Hs.
    + injection Hrun as <- _. auto.
    + injection Hrun as <- _. auto.
Qed.

(** X5.  However a call of [load_from_dict] ends, the adapter keeps its
    name, multiplier, device and dtype, every stem that had a delta before
    the call still has one, and a stem that is the first component of no
    key of the state mapping keeps exactly the delta it had. *)
Theorem parsing_keeps_adapter (w : LoRAModuleWrapper) (self : LoRA)
  (state_dict : odict Tensor) :
  let self' := fst (load_from_dict w self state_dict) in
  adapter_name self' = adapter_name self /\
  multiplier self' = multiplier self /\
  device self' = device self /\
  dtype self' = dtype self /\
  (forall stem, od_mem (layers self) stem = true ->
                od_mem (layers self') stem = true) /\
  (forall stem,
      (forall key value, In (key, value) state_dict ->
                         fst (split_first_dot key) <> stem) ->
      od_get (layers self') stem = od_get (layers self) stem).
Proof.
  destruct (@group_keys_invariant state_dict self [] false (NoDup_nil _))
    as (Hl & Hn & _).
  destruct (group_keys_keeps state_dict self [] false) as (Hm & Hd & Ht).
  assert (Hstems := group_keys_stems state_dict self [] false).
  unfold load_from_dict.
  set (g := group_keys self [] false state_dict) in *.
  destruct (g_error g) as [e | ]; simpl.
  - repeat split; try assumption.
    + intros stem Hs. rewrite Hl. exact Hs.
    + intros stem _. rewrite Hl. reflexivity.
  - destruct (build_layers w (g_self g) (g_groups g)) as [self' st] eqn:Hrun.
    destruct (build_layers_frame w _ _ Hrun) as (_ & _ & Hn' & Hf).
    destruct (build_layers_keeps w _ _ Hrun) as (Hm' & Hd' & Ht' & Hk).
    simpl. repeat split; try congruence.
    + intros stem Hs. apply Hk. rewrite Hl. exact Hs.
    + intros stem Hno. rewrite Hf, Hl; [ reflexivity | ].
      intro Hin. destruct (Hstems stem Hin) as [[] | (k & v & Hi & E)].
      exact (Hno k v Hi E).
Qed.

(** *** What parsing attaches *)

Definition is_subconv (m : SubModule) : bool :=
  match m with
  | SubConv2d _ _ _ _ _ _ => true
  | SubLinear _ _ _ => false
  end.

(** A delta fits the layer it adjusts: a low-rank delta for a convolution is
    made of convolutions, one for a linear layer of linear maps without a
    middle map; a Hadamard delta refers to the layer and has its two cores
    exactly when the layer is a convolution with a kernel other than 1x1. *)
Definition delta_fits (wrapped : Module) (l : Layer) : Prop :=
  match l with
  | LoRA_layer ll =>
      (is_conv2d wrapped = true \/ is_linear wrapped = true) /\
      is_subconv (down ll) = is_conv2d wrapped /\
      is_subconv (up ll) = is_conv2d wrapped /\
      match mid ll with
      | Some m => is_conv2d wrapped = true /\ is_subconv m = true
      | None => True
      end
  | LoHA_layer ll =>
      org_module ll = wrapped /\
      if is_conv2d wrapped && not_1x1 (kernel_size (mod_attrs wrapped))
      then (exists c1 c2, t1 ll = Some c1 /\ t2 ll = Some c2)
      else t1 ll = None /\ t2 ll = None
  end.

Definition layer_name (l : Layer) : string :=
  match l with
  | LoRA_layer ll => name ll
  | LoHA_layer ll => loha_name ll
  end.

Definition layer_lora_name (l : Layer) : string :=
  match l with
  | LoRA_layer ll => lora_name ll
  | LoHA_layer ll => loha_lora_name ll
  end.

Definition attached (w : LoRAModuleWrapper) (adapter : string)
  (stem : string) (l : Layer) : Prop :=
  layer_name l = stem /\ layer_lora_name l = adapter /\
  exists wrapped, resolve w stem = Some (Some wrapped) /\ delta_fits wrapped l.

Lemma build_lora_fits (self : LoRA) (wrapped : Module) (stem : string)
  (values : odict Tensor) (l : Layer) :
  build_lora self wrapped stem values = Ok (Some l) ->
  layer_name l = stem /\ layer_lora_name l = adapter_name self /\
  delta_fits wrapped l.
Proof.
  unfold build_lora. intro H.
  inv_bind H; injection H as <-; simpl;
    repeat split; auto; congruence.
Qed.

Lemma build_loha_fits (self : LoRA) (wrapped : Module) (stem : string)
  (values : odict Tensor) (l : Layer) :
  build_loha self wrapped stem values = Ok l ->
  layer_name l = stem /\ layer_lora_name l = adapter_name self /\
  delta_fits wrapped l.
Proof.
  unfold build_loha. intro H.
  destruct (is_conv2d wrapped && not_1x1 (kernel_size (mod_attrs wrapped)))
    eqn:Hcores; inv_bind H; injection H as <-.
  - match goal with
    | E : bind _ _ = Ok _ |- _ => inv_bind E; injection E as <-
    end.
    simpl. rewrite Hcores. repeat split.
    eexists. eexists. split; reflexivity.
  - simpl. rewrite Hcores. repeat split.
Qed.

Lemma build_group_attached (w : LoRAModuleWrapper) (self : LoRA)
  (stem : string) (values : odict Tensor) (l : Layer) :
  build_group w self stem values = Built l ->
  attached w (adapter_name self) stem l.
Proof.
  unfold build_group, attached. intro H.
  destruct (resolve w stem) as [[wrapped | ] | ]; try discriminate H.
  destruct (od_mem values "lora_down.weight").
  - destruct (build_lora self wrapped stem values) as [[l0 | ] | e] eqn:Hb;
      try discriminate H.
    injection H as <-.
    destruct (build_lora_fits _ _ _ _ Hb) as (H1 & H2 & H3).
    repeat split; try assumption. exists wrapped. auto.
  - destruct (od_mem values "hada_w1_b"); [ | discriminate H ].
    destruct (build_loha self wrapped stem values) as [l0 | e] eqn:Hb;
      try discriminate H.
    injection H as <-.
    destruct (build_loha_fits _ _ _ _ Hb) as (H1 & H2 & H3).
    repeat split; try assumption. exists wrapped. auto.
Qed.

Lemma build_layers_attached (w : LoRAModuleWrapper)
  (groups : list (string * odict Tensor)) :
  forall (self self' : LoRA) (st : status),
    build_layers w self groups = (self', st) ->
    (forall stem l, In (stem, l) (layers self) ->
                    attached w (adapter_name self) stem l) ->
    forall stem l, In (stem, l) (layers self') ->
                   attached w (adapter_name self) stem l.
Proof.
  induction groups as [ | [stem0 values0] groups IH ];
    intros self self' st Hrun Hinv; simpl in Hrun.
  - injection Hrun as <- _. exact Hinv.
  - destruct (build_group w self stem0 values0) as [ | l0 | | e ] eqn:Hb.
    + exact (IH _ _ _ Hrun Hinv).
    + refine (IH _ _ _ Hrun _). simpl. intros stem l Hin.
      apply od_set_in in Hin. destruct Hin as [[-> ->] | Hin].
      * exact (build_group_attached _ _ _ _ Hb).
      * exact (Hinv _ _ Hin).
    + injection Hrun as <- _. exact Hinv.
    + injection Hrun as <- _. exact Hinv.
Qed.

(** X6.  Whatever the state mapping holds and however the call ends, every
    delta that parsing leaves in a fresh adapter is stored under its own
    name, carries the name of the adapter, and fits a sub-layer that the
    registry resolves its name to: convolutions for a convolution, linear
    maps without a middle map for a linear layer, and for a Hadamard delta a
    reference to the sub-layer with both cores exactly when it is a
    convolution whose kernel is not 1x1.  Its name is the first component
    of a key of the state mapping. *)
Theorem parsed_deltas_fit_registered_layers (w : LoRAModuleWrapper)
  (self : LoRA) (state_dict : odict Tensor) (stem : string) (l : Layer) :
  layers self = [] ->
  In (stem, l) (layers (fst (load_from_dict w self state_dict))) ->
  attached w (adapter_name self) stem l /\
  exists key value,
    In (key, value) state_dict /\ fst (split_first_dot key) = stem.
Proof.
  intros Hfresh Hin.
  destruct (@group_keys_invariant state_dict self [] false (NoDup_nil _))
    as (Hl & Hn & _).
  assert (Hstems := group_keys_stems state_dict self [] false).
  unfold load_from_dict in Hin.
  set (g := group_keys self [] false state_dict) in *.
  destruct (g_error g) as [e | ]; simpl in Hin.
  - rewrite Hl, Hfresh in Hin. destruct Hin.
  - destruct (build_layers w (g_self g) (g_groups g)) as [self' st] eqn:Hrun.
    simpl in Hin. split.
    + rewrite <- Hn.
      apply (@build_layers_attached w _ _ _ _ Hrun); [ | exact Hin ].
      rewrite Hl, Hfresh. intros s l0 [].
    + destruct (build_layers_frame w _ _ Hrun) as (_ & _ & _ & Hf).
      destruct (in_dec string_dec stem (od_keys (g_groups g))) as [Hk | Hk].
      * destruct (Hstems stem Hk) as [[] | H]. exact H.
      * exfalso. specialize (Hf stem Hk). rewrite Hl, Hfresh in Hf.
        simpl in Hf.
        assert (Hmem : In stem (od_keys (layers self')))
          by (apply (in_map fst) in Hin; exact Hin).
        apply od_get_absent in Hf. exact (Hf Hmem).
Qed.

(** *** Where parsing stops *)

(** The call at the group after [pre], when the first loop finished and the
    second loop got through [pre]. *)
Lemma load_from_dict_at_group (w : LoRAModuleWrapper) (self self' : LoRA)
  (state_dict : odict Tensor) (pre post : list (string * odict Tensor))
  (stem : string) (values : odict Tensor) :
  g_error (group_keys self [] false state_dict) = None ->
  g_groups (group_keys self [] false state_dict)
    = pre ++ (stem, values) :: post ->
  build_layers w (g_self (group_keys self [] false state_dict)) pre
    = (self', Finished) ->
  load_from_dict w self state_dict =
  match build_group w self' stem values with
  | Skip => build_layers w self' post
  | Built l =>
      build_layers w (set_layers self' (od_set (layers self') stem l)) post
  | Abort => (self', Aborted)
  | Fail e => (self', Raised e)
  end.
Proof.
  intros Herr Hgroups Hpre. unfold load_from_dict.
  rewrite Herr, Hgroups, build_layers_app, Hpre. reflexivity.
Qed.

(** X7.  The registry goes by the name of a class and parsing by the class
    itself: for a group with both low-rank weights whose stem resolves to a
    sub-layer that is neither a [torch.nn.Conv2d] nor a [torch.nn.Linear]
    (a class of another library called "Linear", say), the call returns
    early without raising and without a delta for the stem or for any later
    one. *)
Theorem lookalike_layer_class_aborts (w : LoRAModuleWrapper)
  (self self' : LoRA) (state_dict : odict Tensor)
  (pre post : list (string * odict Tensor))
  (stem : string) (values : odict Tensor) (wrapped : Module)
  (value_down value_up : Tensor) :
  g_error (group_keys self [] false state_dict) = None ->
  g_groups (group_keys self [] false state_dict)
    = pre ++ (stem, values) :: post ->
  build_layers w (g_self (group_keys self [] false state_dict)) pre
    = (self', Finished) ->
  resolve w stem = Some (Some wrapped) ->
  is_conv2d wrapped = false ->
  is_linear wrapped = false ->
  od_get values "lora_down.weight" = Some value_down ->
  od_get values "lora_up.weight" = Some value_up ->
  load_from_dict w self state_dict = (self', Aborted).
Proof.
  intros Herr Hgroups Hpre Hres Hconv Hlin Hdown Hup.
  rewrite (@load_from_dict_at_group w self self' state_dict pre post stem
             values Herr Hgroups Hpre).
  unfold build_group. rewrite Hres. unfold od_mem. rewrite Hdown.
  unfold build_lora, od_index. rewrite Hdown, Hup. simpl.
  rewrite Hconv, Hlin. reflexivity.
Qed.

(** X8.  A Hadamard group with its four factors for a convolution whose
    kernel is not 1x1 needs both cores: without a [hada_t1] leaf the lookup
    raises [KeyError], which escapes the call, and the adapter keeps the
    deltas built before. *)
Theorem hadamard_conv_without_core_raises (w : LoRAModuleWrapper)
  (self self' : LoRA) (state_dict : odict Tensor)
  (pre post : list (string * odict Tensor))
  (stem : string) (values : odict Tensor) (wrapped : Module)
  (v1a v1b v2a v2b : Tensor) (n : nat) (a : option scalar) :
  g_error (group_keys self [] false state_dict) = None ->
  g_groups (group_keys self [] false state_dict)
    = pre ++ (stem, values) :: post ->
  build_layers w (g_self (group_keys self [] false state_dict)) pre
    = (self', Finished) ->
  resolve w stem = Some (Some wrapped) ->
  is_conv2d wrapped = true ->
  not_1x1 (kernel_size (mod_attrs wrapped)) = true ->
  od_get values "lora_down.weight" = None ->
  od_get values "hada_w1_a" = Some v1a ->
  od_get values "hada_w1_b" = Some v1b ->
  od_get values "hada_w2_a" = Some v2a ->
  od_get values "hada_w2_b" = Some v2b ->
  shape_at (shape v1b) 0 = Ok n ->
  local_alpha values = Ok a ->
  od_get values "hada_t1" = None ->
  load_from_dict w self state_dict = (self', Raised (KeyError "hada_t1")).
Proof.
  intros Herr Hgroups Hpre Hres Hconv Hk Hdown H1a H1b H2a H2b Hn Ha Ht1.
  rewrite (@load_from_dict_at_group w self self' state_dict pre post stem
             values Herr Hgroups Hpre).
  unfold build_group. rewrite Hres. unfold od_mem. rewrite Hdown, H1b.
  unfold build_loha, od_index. rewrite Ha, H1b. simpl.
  rewrite Hn, H1a, H2a, H2b. simpl. rewrite Hconv, Hk, Ht1. reflexivity.
Qed.

(** *** Adapters without a linear down weight *)

Lemma group_keys_rank_none (items : list (string * Tensor)) :
  forall (self : LoRA) (groupped : odict (odict Tensor)) (is_loha : bool),
    rank self = None ->
    (forall key value stem,
        In (key, value) items ->
        split_first_dot key = (stem, Some "lora_down.weight"%string) ->
        has_tracked_prefix stem = true ->
        List.length (shape value) <> 2) ->
    rank (g_self (group_keys self groupped is_loha items)) = None.
Proof.
  induction items as [ | [key value] items IH ];
    intros self groupped is_loha Hr Hno; simpl.
  - exact Hr.
  - assert (Hno' : forall key value stem,
               In (key, value) items ->
               split_first_dot key = (stem, Some "lora_down.weight"%string) ->
               has_tracked_prefix stem = true ->
               List.length (shape value) <> 2)
      by (intros k v s Hin; apply Hno; right; exact Hin).
    destruct (split_first_dot key) as [stem [leaf | ]] eqn:Hs; [ | exact Hr ].
    destruct (endswith leaf "alpha").
    + destruct (alpha self); [ apply IH; assumption | ].
      destruct (item value); [ apply IH; assumption | exact Hr ].
    + apply IH; [ | exact Hno' ].
      destruct (has_tracked_prefix stem) eqn:Hp; [ | exact Hr ].
      rewrite Hr.
      destruct (shape value) as [ | n [ | m [ | ? ? ] ] ] eqn:Hsh;
        try exact Hr.
      destruct (String.eqb_spec leaf "lora_down.weight") as [-> | _];
        [ | exact Hr ].
      exfalso.
      apply (Hno key value stem);
        [ left; reflexivity | exact Hs | exact Hp | rewrite Hsh; reflexivity ].
Qed.

(** X9.  The adapter-wide rank comes from two-dimensional down weights
    only.  In a fresh adapter parsed from a state mapping whose
    [lora_down.weight] leaves under the tracked prefixes all have another
    number of dimensions (an adapter for convolutions only), the rank stays
    unset and every low-rank delta has scale 1.0, whatever the alpha leaf of
    its group. *)
Theorem no_linear_down_weight_unit_scale (w : LoRAModuleWrapper)
  (self : LoRA) (state_dict : odict Tensor) :
  layers self = [] ->
  rank self = None ->
  (forall key value stem,
      In (key, value) state_dict ->
      split_first_dot key = (stem, Some "lora_down.weight"%string) ->
      has_tracked_prefix stem = true ->
      List.length (shape value) <> 2) ->
  rank (fst (load_from_dict w self state_dict)) = None /\
  forall stem ll,
    od_get (layers (fst (load_from_dict w self state_dict))) stem
      = Some (LoRA_layer ll) ->
    scale ll = s_one.
Proof.
  intros Hfresh Hr Hno.
  destruct (@group_keys_invariant state_dict self [] false (NoDup_nil _))
    as (Hl & _ & Hnd).
  assert (Hnone := group_keys_rank_none state_dict self [] false Hr Hno).
  unfold load_from_dict.
  set (g := group_keys self [] false state_dict) in *.
  destruct (g_error g) as [e | ]; simpl.
  - split; [ exact Hnone | ].
    intros stem ll. rewrite Hl, Hfresh. discriminate.
  - destruct (build_layers w (g_self g) (g_groups g)) as [self' st] eqn:Hrun.
    destruct (build_layers_frame w _ _ Hrun) as (Hr' & _).
    simpl. split; [ congruence | ].
    intros stem ll Hget.
    destruct (@build_layers_scale w (g_groups g) (g_groups g) Hnd
                (g_self g) self' st) with (stem := stem) (l := LoRA_layer ll)
      as (values & _ & a & _ & Hscale); auto.
    { rewrite Hl, Hfresh. discriminate. }
    simpl in Hscale. rewrite Hscale, Hnone. destruct a; reflexivity.
Qed.

(** ** More properties of discovery *)

(** An identifier has no dot, so a key made of it, a dot and a leaf splits
    back into the two. *)
Lemma split_flattened (s leaf : string) :
  split_first_dot (replace_dots s ++ "." ++ leaf)
  = (replace_dots s, Some leaf).
Proof.
  induction s as [ | c s IH ]; simpl.
  - reflexivity.
  - destruct (Ascii.eqb c dot) eqn:Hc.
    + simpl in IH. rewrite IH. reflexivity.
    + rewrite Hc. simpl in IH. rewrite IH. reflexivity.
Qed.

(** The entries of a mapping are those it had and not overwritten, and
    visits. *)
Lemma fold_register_in (vs : list (list nat * string * Module)) :
  forall (mapping : odict Module) (n : string) (m : Module),
    In (n, m) (fold_left register vs mapping) ->
    In (n, m) mapping \/
    exists v, In v vs /\ replace_dots (c_dotted v) = n /\ c_mod v = m.
Proof.
  induction vs as [ | v vs IH ]; intros mapping n m Hin; simpl in Hin.
  - left. exact Hin.
  - destruct (IH _ _ _ Hin) as [H | (v' & Hv' & E)].
    + unfold register in H. apply od_set_in in H.
      destruct H as [[-> ->] | H]; [ | left; exact H ].
      right. exists v. split; [ left; reflexivity | split; reflexivity ].
    + right. exists v'. split; [ right; exact Hv' | exact E ].
Qed.

Lemma fold_register_nodup (vs : list (list nat * string * Module)) :
  forall mapping : odict Module,
    NoDup (od_keys mapping) ->
    NoDup (od_keys (fold_left register vs mapping)).
Proof.
  induction vs as [ | v vs IH ]; intros mapping Hnd; simpl.
  - exact Hnd.
  - apply IH. unfold register. apply od_set_nodup. exact Hnd.
Qed.

(** X10.  In the registry built for two networks, an identifier of a
    mapping leads back to its module: the lookup that parsing makes for a
    stem, by its prefix, finds the module; the module is a patchable
    sub-layer of the network, and a forward hook with this identifier is
    installed at its position.  The identifier has no dot: a checkpoint key
    made of it, a dot and a leaf splits back into the identifier and the
    leaf. *)
Theorem registered_identifier_round_trip (unet_ text_encoder_ : Module)
  (net : Net) (id : string) (m : Module) :
  In (id, m) (mapping_of (LoRAModuleWrapper_init unet_ text_encoder_) net) ->
  resolve (LoRAModuleWrapper_init unet_ text_encoder_) id = Some (Some m) /\
  patchable m = true /\
  (forall leaf : string,
      split_first_dot (id ++ "." ++ leaf) = (id, Some leaf)) /\
  exists pos : list nat,
    sub_at (network_of unet_ text_encoder_ net) pos = Some m /\
    In {| hook_net := net; hook_module := pos; hook_name := id |}
       (hooks (LoRAModuleWrapper_init unet_ text_encoder_)).
Proof.
  intro Hin.
  assert (Hget : od_get (mapping_of (LoRAModuleWrapper_init unet_ text_encoder_)
                                    net) id = Some m).
  { apply od_get_in; [ | exact Hin ].
    rewrite registry_mapping.
    destruct net; apply fold_register_nodup; constructor. }
  rewrite registry_hooks. rewrite registry_mapping in Hin.
  destruct net; apply fold_register_in in Hin;
    destruct Hin as [[] | (v & Hv & <- & <-)];
    destruct (collected_dotted _ _ _ _ Hv) as (n & c & Hd);
    destruct (collected_sound _ _ _ _ Hv) as (Hp & Hsub).
  - split; [ | split; [ exact Hp | split ] ].
    + unfold resolve. rewrite Hd.
      replace (startswith (replace_dots
                 (dotted_name_of LORA_PREFIX_TEXT_ENCODER n c))
                 LORA_PREFIX_TEXT_ENCODER) with true by reflexivity.
      rewrite <- Hd. unfold mapping_of in Hget. rewrite Hget. reflexivity.
    + intro leaf. apply split_flattened.
    + exists (c_pos v). split; [ exact Hsub | ].
      apply in_or_app. left.
      apply (in_map (hook_of TextEncoder)) in Hv. exact Hv.
  - split; [ | split; [ exact Hp | split ] ].
    + unfold resolve. rewrite Hd.
      replace (startswith (replace_dots (dotted_name_of LORA_PREFIX_UNET n c))
                 LORA_PREFIX_TEXT_ENCODER) with false by reflexivity.
      replace (startswith (replace_dots (dotted_name_of LORA_PREFIX_UNET n c))
                 LORA_PREFIX_UNET) with true by reflexivity.
      rewrite <- Hd. unfold mapping_of in Hget. rewrite Hget. reflexivity.
    + intro leaf. apply split_flattened.
    + exists (c_pos v). split; [ exact Hsub | ].
      apply in_or_app. right.
      apply (in_map (hook_of UNet)) in Hv. exact Hv.
Qed.

(** ** Properties of the manager *)

(** *** Dictionaries under assignment and deletion *)

Lemma od_set_twice (V : Type) (d : odict V) (k : string) (v v' : V) :
  od_set (od_set d k v) k v' = od_set d k v'.
Proof.
  induction d as [ | [k0 v0] d IH ]; simpl.
  - rewrite String.eqb_refl. reflexivity.
  - destruct (String.eqb k k0) eqn:E; simpl.
    + rewrite String.eqb_refl. reflexivity.
    + rewrite E, IH. reflexivity.
Qed.

(** Assignment keeps the position of a key the dictionary has and appends a
    new one. *)
Lemma od_set_keys (V : Type) (d : odict V) (k : string) (v : V) :
  od_keys (od_set d k v) =
  if od_mem d k then od_keys d else od_keys d ++ [k].
Proof.
  unfold od_mem. induction d as [ | [k0 v0] d IH ]; simpl.
  - reflexivity.
  - destruct (String.eqb_spec k k0) as [-> | N]; simpl.
    + reflexivity.
    + rewrite IH. destruct (od_get d k); reflexivity.
Qed.

Lemma od_del_in (V : Type) (d : odict V) (k x : string) (y : V) :
  In (x, y) (od_del d k) -> In (x, y) d.
Proof.
  induction d as [ | [k0 v0] d IH ]; simpl.
  - tauto.
  - destruct (String.eqb k k0); simpl; [ tauto | ].
    intros [E | H]; [ left; exact E | right; exact (IH H) ].
Qed.

Lemma filter_all (A : Type) (p : A -> bool) (l : list A) :
  (forall x, In x l -> p x = true) -> filter p l = l.
Proof.
  induction l as [ | a l IH ]; simpl; intro H.
  - reflexivity.
  - rewrite (H a (or_introl eq_refl)), IH; [ reflexivity | ].
    intros x Hx. apply H. right. exact Hx.
Qed.

(** Deleting a key of a dictionary removes its entry and no other. *)
Lemma od_del_filter (V : Type) (d : odict V) (k : string) :
  NoDup (od_keys d) ->
  od_del d k = filter (fun kv => negb (String.eqb (fst kv) k)) d.
Proof.
  induction d as [ | [k0 v0] d IH ]; simpl; intro Hnd.
  - reflexivity.
  - inversion Hnd as [ | ? ? Hnot Hnd' ]; subst.
    rewrite (String.eqb_sym k0 k).
    destruct (String.eqb_spec k k0) as [-> | N]; simpl.
    + symmetry. apply filter_all. intros [x y] Hin. simpl.
      destruct (String.eqb_spec x k0) as [-> | _]; [ | reflexivity ].
      exfalso. apply Hnot. apply (in_map fst) in Hin. exact Hin.
    + rewrite IH by exact Hnd'. reflexivity.
Qed.

Lemma od_filter_nodup (V : Type) (p : string * V -> bool) (d : odict V) :
  NoDup (od_keys d) -> NoDup (od_keys (filter p d)).
Proof.
  induction d as [ | [k0 v0] d IH ]; simpl; intro Hnd.
  - constructor.
  - inversion Hnd as [ | ? ? Hnot Hnd' ]; subst.
    destruct (p (k0, v0)); simpl; [ | exact (IH Hnd') ].
    constructor; [ | exact (IH Hnd') ].
    intro Hin. apply Hnot. unfold od_keys in Hin. apply in_map_iff in Hin.
    destruct Hin as ([x y] & E & Hin). apply filter_In in Hin.
    simpl in E. subst x. destruct Hin as [Hin _].
    apply (in_map fst) in Hin. exact Hin.
Qed.

Lemma od_del_nodup (V : Type) (d : odict V) (k : string) :
  NoDup (od_keys d) -> NoDup (od_keys (od_del d k)).
Proof.
  intro Hnd. rewrite od_del_filter by exact Hnd.
  apply od_filter_nodup. exact Hnd.
Qed.

(** *** Applying an adapter *)

(** The checkpoint reader that [load_lora_module] picks by the suffix. *)
Definition read_checkpoint (io : FileIO) (path_file : Path)
  : result (odict Tensor) :=
  if String.eqb (suffix path_file) ".safetensors"
  then load_file io (posix path_file)
  else torch_load io path_file.

(** The files [apply_lora_model] looks for, in its order. *)
Definition candidate_files (join : string -> string -> Path)
  (self : KohyaLoraManager) (name : string) : list Path :=
  map (fun sfx => join (lora_path self) (name ++ "." ++ sfx)%string)
      lora_suffixes.

(** The manager with [lora] stored under [name] in both mappings. *)
Definition activate (self : KohyaLoraManager) (name : string) (lora : LoRA)
  : KohyaLoraManager :=
  set_wrapper self
    (set_applied
       (set_loaded (wrapper self)
                   (od_set (loaded_loras (wrapper self)) name lora))
       (od_set (applied_loras (wrapper self)) name lora)).

(** The adapter that a successful parse of a checkpoint gives. *)
Definition parsed (self : KohyaLoraManager) (name : string) (mult : scalar)
  (checkpoint : odict Tensor) : LoRA * status :=
  load_from_dict (wrapper self)
    (LoRA_init name (mgr_device self) (mgr_dtype self) mult) checkpoint.

Lemma apply_lora_model_cases (io : FileIO) (join : string -> string -> Path)
  (self : KohyaLoraManager) (name : string) (mult : scalar) :
  apply_lora_model io join self name mult =
  match search_file io (candidate_files join self name) with
  | None => (self, Ok tt)
  | Some path_file =>
      match od_get (loaded_loras (wrapper self)) name with
      | Some lora => (activate self name (set_multiplier lora mult), Ok tt)
      | None =>
          match read_checkpoint io path_file with
          | Raise e => (self, Raise e)
          | Ok checkpoint =>
              match snd (parsed self name mult checkpoint) with
              | Raised e => (self, Raise e)
              | _ =>
                  (activate self name
                     (set_multiplier
                        (fst (parsed self name mult checkpoint)) mult),
                   Ok tt)
              end
          end
      end
  end.
Proof.
  unfold apply_lora_model, candidate_files.
  destruct (search_file io _) as [path_file | ]; [ | reflexivity ].
  destruct (od_get (loaded_loras (wrapper self)) name) as [lora | ];
    [ reflexivity | ].
  unfold load_lora_module, read_checkpoint, parsed.
  destruct (if String.eqb (suffix path_file) ".safetensors"
            then load_file io (posix path_file)
            else torch_load io path_file) as [checkpoint | e];
    [ | reflexivity ].
  destruct (load_from_dict _ _ checkpoint) as [lora' [ | | e]]; simpl;
    try reflexivity;
    unfold activate; simpl; rewrite od_set_twice; reflexivity.
Qed.

Lemma search_file_none (io : FileIO) (candidates : list Path) :
  (forall p, In p candidates -> exists_ io p = false) ->
  search_file io candidates = None.
Proof.
  induction candidates as [ | p ps IH ]; simpl; intro H.
  - reflexivity.
  - rewrite (H p (or_introl eq_refl)). apply IH.
    intros q Hq. apply H. right. exact Hq.
Qed.

Lemma search_file_some (io : FileIO) (candidates : list Path) :
  (exists p, In p candidates /\ exists_ io p = true) ->
  exists p, search_file io candidates = Some p.
Proof.
  induction candidates as [ | c cs IH ]; simpl; intros (p & Hin & Hp).
  - contradiction.
  - destruct (exists_ io c) eqn:Hc; [ exists c; reflexivity | ].
    apply IH. destruct Hin as [<- | Hin]; [ congruence | ].
    exists p. split; assumption.
Qed.

(** X11.  When none of [name.ckpt], [name.safetensors] and [name.pt] exists
    under the adapter directory, [apply_lora_model] changes nothing and
    raises nothing; this holds for an adapter that is already loaded too,
    whose multiplier is then not updated. *)
Theorem missing_file_changes_nothing (io : FileIO)
  (join : string -> string -> Path) (self : KohyaLoraManager)
  (name : string) (mult : scalar) :
  (forall sfx, In sfx lora_suffixes ->
     exists_ io (join (lora_path self) (name ++ "." ++ sfx)%string) = false) ->
  apply_lora_model io join self name mult = (self, Ok tt).
Proof.
  intro Hnone. rewrite apply_lora_model_cases, search_file_none.
  - reflexivity.
  - intros p Hin. unfold candidate_files in Hin. apply in_map_iff in Hin.
    destruct Hin as (sfx & <- & Hsfx). exact (Hnone sfx Hsfx).
Qed.

(** X12.  The three suffixes are tried in the order ckpt, safetensors, pt,
    and the adapter that gets loaded is parsed from the first file that
    exists: from [name.ckpt] when it exists, whatever other files there
    are; from [name.safetensors] when that exists and [name.ckpt] does not;
    from [name.pt] when it is the only one. *)
Theorem first_existing_suffix_is_loaded (io : FileIO)
  (join : string -> string -> Path) (self : KohyaLoraManager)
  (name : string) (mult : scalar) (checkpoint : odict Tensor) :
  od_get (loaded_loras (wrapper self)) name = None ->
  (forall e, snd (parsed self name mult checkpoint) <> Raised e) ->
  let file sfx := join (lora_path self) (name ++ "." ++ sfx)%string in
  let done :=
    (activate self name
       (set_multiplier (fst (parsed self name mult checkpoint)) mult),
     Ok tt) in
  (exists_ io (file "ckpt"%string) = true ->
   read_checkpoint io (file "ckpt"%string) = Ok checkpoint ->
   apply_lora_model io join self name mult = done) /\
  (exists_ io (file "ckpt"%string) = false ->
   exists_ io (file "safetensors"%string) = true ->
   read_checkpoint io (file "safetensors"%string) = Ok checkpoint ->
   apply_lora_model io join self name mult = done) /\
  (exists_ io (file "ckpt"%string) = false ->
   exists_ io (file "safetensors"%string) = false ->
   exists_ io (file "pt"%string) = true ->
   read_checkpoint io (file "pt"%string) = Ok checkpoint ->
   apply_lora_model io join self name mult = done).
Proof.
  intros Hnew Hparse file done. subst file done.
  assert (Hread : forall p,
             search_file io (candidate_files join self name) = Some p ->
             read_checkpoint io p = Ok checkpoint ->
             apply_lora_model io join self name mult =
             (activate self name
                (set_multiplier (fst (parsed self name mult checkpoint)) mult),
              Ok tt)).
  { intros p Hp Hr. rewrite apply_lora_model_cases, Hp, Hnew, Hr.
    destruct (snd (parsed self name mult checkpoint)) as [ | | e ] eqn:Hst;
      try reflexivity.
    exfalso. exact (Hparse e eq_refl). }
  unfold candidate_files, lora_suffixes in Hread. simpl in Hread.
  simpl. repeat split.
  - intros H1 Hr. refine (Hread _ _ Hr). rewrite H1. reflexivity.
  - intros H1 H2 Hr. refine (Hread _ _ Hr). rewrite H1, H2. reflexivity.
  - intros H1 H2 H3 Hr. refine (Hread _ _ Hr). rewrite H1, H2, H3.
    reflexivity.
Qed.

Lemma search_file_agree (io io' : FileIO) (candidates : list Path) :
  (forall p, exists_ io' p = exists_ io p) ->
  search_file io' candidates = search_file io candidates.
Proof.
  intro Hsame. induction candidates as [ | c cs IH ]; simpl.
  - reflexivity.
  - rewrite Hsame, IH. reflexivity.
Qed.

(** X13.  An adapter that is already loaded is not read again: with the
    same files present, the call gives the same result whatever the two
    readers would return.  When one of the three files exists, the loaded
    adapter itself becomes active under the name, with the new multiplier
    and with the deltas, rank and alpha it had. *)
Theorem loaded_adapter_is_reused (io io' : FileIO)
  (join : string -> string -> Path) (self : KohyaLoraManager)
  (name : string) (mult : scalar) (lora : LoRA) :
  od_get (loaded_loras (wrapper self)) name = Some lora ->
  (forall p, exists_ io' p = exists_ io p) ->
  apply_lora_model io' join self name mult
    = apply_lora_model io join self name mult /\
  ((exists sfx, In sfx lora_suffixes /\
      exists_ io (join (lora_path self) (name ++ "." ++ sfx)%string) = true) ->
   apply_lora_model io join self name mult
     = (activate self name (set_multiplier lora mult), Ok tt)).
Proof.
  intros Hloaded Hsame. rewrite !apply_lora_model_cases, Hloaded.
  rewrite (@search_file_agree io io' _ Hsame). split; [ reflexivity | ].
  intros (sfx & Hsfx & Hex).
  destruct (@search_file_some io (candidate_files join self name))
    as (p & ->); [ | reflexivity ].
  exists (join (lora_path self) (name ++ "." ++ sfx)%string).
  split; [ | exact Hex ].
  unfold candidate_files.
  apply (in_map (fun sfx => join (lora_path self) (name ++ "." ++ sfx)%string)).
  exact Hsfx.
Qed.

(** X14.  A call of [apply_lora_model] that raises (the reader failed, or
    parsing the checkpoint raised) leaves the manager as it was, with both
    mappings as before the call.  It can only happen for a name that was
    not loaded, and the name is not loaded afterwards; the active mapping
    is not touched either, so an adapter that was active under the name
    (one unloaded with [unload_lora] while active) stays active. *)
Theorem failed_apply_changes_nothing (io : FileIO)
  (join : string -> string -> Path) (self : KohyaLoraManager)
  (name : string) (mult : scalar) (e : exn) :
  snd (apply_lora_model io join self name mult) = Raise e ->
  fst (apply_lora_model io join self name mult) = self /\
  od_get (loaded_loras (wrapper self)) name = None /\
  od_get (loaded_loras
            (wrapper (fst (apply_lora_model io join self name mult)))) name
    = None /\
  applied_loras (wrapper (fst (apply_lora_model io join self name mult)))
    = applied_loras (wrapper self).
Proof.
  intro Hraise.
  assert (H : fst (apply_lora_model io join self name mult) = self /\
              od_get (loaded_loras (wrapper self)) name = None).
  { revert Hraise. rewrite apply_lora_model_cases.
    destruct (search_file io _) as [p | ]; [ | discriminate ].
    destruct (od_get (loaded_loras (wrapper self)) name) as [lora | ];
      [ discriminate | ].
    destruct (read_checkpoint io p) as [checkpoint | e0]; [ | auto ].
    destruct (snd (parsed self name mult checkpoint)); simpl;
      auto; discriminate. }
  destruct H as [Hsame Hnone]. rewrite Hsame. auto.
Qed.

(** X15.  After a call of [apply_lora_model] that finds a file and does not
    raise, the name maps to one and the same adapter in the loaded and in
    the active mapping, and that adapter has the requested multiplier.  The
    other entries of both mappings are as before, and the order of
    activation is kept: an adapter that was active stays at its place, a
    new one goes last. *)
Theorem applied_adapter_is_active (io : FileIO)
  (join : string -> string -> Path) (self : KohyaLoraManager)
  (name : string) (mult : scalar) :
  (exists sfx, In sfx lora_suffixes /\
     exists_ io (join (lora_path self) (name ++ "." ++ sfx)%string) = true) ->
  snd (apply_lora_model io join self name mult) = Ok tt ->
  let w := wrapper self in
  let w' := wrapper (fst (apply_lora_model io join self name mult)) in
  (exists lora',
      od_get (applied_loras w') name = Some lora' /\
      od_get (loaded_loras w') name = Some lora' /\
      multiplier lora' = mult) /\
  (forall other, other <> name ->
      od_get (applied_loras w') other = od_get (applied_loras w) other /\
      od_get (loaded_loras w') other = od_get (loaded_loras w) other) /\
  od_keys (applied_loras w') =
    (if od_mem (applied_loras w) name then od_keys (applied_loras w)
     else od_keys (applied_loras w) ++ [name]).
Proof.
  intros (sfx & Hsfx & Hex) Hok w w'. subst w w'.
  rewrite apply_lora_model_cases in *.
  destruct (@search_file_some io (candidate_files join self name))
    as (p & Hp).
  { exists (join (lora_path self) (name ++ "." ++ sfx)%string).
    split; [ | exact Hex ].
    apply (in_map
             (fun sfx => join (lora_path self) (name ++ "." ++ sfx)%string)).
    exact Hsfx. }
  rewrite Hp in *.
  assert (Hact : forall lora,
    let w' := wrapper (activate self name (set_multiplier lora mult)) in
    (exists lora',
        od_get (applied_loras w') name = Some lora' /\
        od_get (loaded_loras w') name = Some lora' /\
        multiplier lora' = mult) /\
    (forall other, other <> name ->
        od_get (applied_loras w') other
          = od_get (applied_loras (wrapper self)) other /\
        od_get (loaded_loras w') other
          = od_get (loaded_loras (wrapper self)) other) /\
    od_keys (applied_loras w') =
      (if od_mem (applied_loras (wrapper self)) name
       then od_keys (applied_loras (wrapper self))
       else od_keys (applied_loras (wrapper self)) ++ [name])).
  { intro lora. simpl. split; [ | split ].
    - exists (set_multiplier lora mult).
      rewrite !od_get_set, String.eqb_refl. auto.
    - intros other Hother. rewrite !od_get_set.
      destruct (String.eqb_spec other name) as [E | _];
        [ contradiction | split; reflexivity ].
    - apply od_set_keys. }
  destruct (od_get (loaded_loras (wrapper self)) name) as [lora | ].
  - exact (Hact lora).
  - destruct (read_checkpoint io p) as [checkpoint | e0];
      [ | discriminate Hok ].
    destruct (snd (parsed self name mult checkpoint));
      [ exact (Hact _) | exact (Hact _) | discriminate Hok ].
Qed.

(** *** Applying again *)

(** Parsing does not read the multiplier of the adapter. *)
Lemma group_keys_set_multiplier (items : list (string * Tensor)) :
  forall (self : LoRA) (groupped : odict (odict Tensor)) (is_loha : bool)
         (m : scalar),
    group_keys (set_multiplier self m) groupped is_loha items =
    {| g_self :=
         set_multiplier (g_self (group_keys self groupped is_loha items)) m;
       g_groups := g_groups (group_keys self groupped is_loha items);
       g_is_loha := g_is_loha (group_keys self groupped is_loha items);
       g_error := g_error (group_keys self groupped is_loha items) |}.
Proof.
  induction items as [ | [key value] items IH ];
    intros self groupped is_loha m; simpl.
  - reflexivity.
  - destruct (split_first_dot key) as [stem [leaf | ]]; [ | reflexivity ].
    destruct (endswith leaf "alpha").
    + destruct (alpha self).
      * apply IH.
      * destruct (item value) as [a | e]; [ | reflexivity ].
        exact (IH (set_alpha self (Some a)) _ _ m).
    + destruct (has_tracked_prefix stem); [ | apply IH ].
      destruct (rank self); [ apply IH | ].
      destruct (shape value) as [ | n [ | k [ | ? ? ] ] ]; try apply IH.
      destruct (String.eqb leaf "lora_down.weight"); [ | apply IH ].
      exact (IH (set_rank self (Some n)) _ _ m).
Qed.

Lemma build_layers_set_multiplier (w : LoRAModuleWrapper) (m : scalar)
  (groups : list (string * odict Tensor)) :
  forall self : LoRA,
    build_layers w (set_multiplier self m) groups =
    (set_multiplier (fst (build_layers w self groups)) m,
     snd (build_layers w self groups)).
Proof.
  induction groups as [ | [stem values] groups IH ]; intro self; simpl.
  - reflexivity.
  - change (build_group w (set_multiplier self m) stem values)
      with (build_group w self stem values).
    destruct (build_group w self stem values) as [ | l | | e ];
      try reflexivity.
    + apply IH.
    + apply (IH (set_layers self (od_set (layers self) stem l))).
Qed.

Lemma load_from_dict_set_multiplier (w : LoRAModuleWrapper) (self : LoRA)
  (m : scalar) (state_dict : odict Tensor) :
  load_from_dict w (set_multiplier self m) state_dict =
  (set_multiplier (fst (load_from_dict w self state_dict)) m,
   snd (load_from_dict w self state_dict)).
Proof.
  unfold load_from_dict. rewrite group_keys_set_multiplier. simpl.
  destruct (g_error (group_keys self [] false state_dict)).
  - reflexivity.
  - apply build_layers_set_multiplier.
Qed.

Lemma parsed_multiplier (self : KohyaLoraManager) (name : string)
  (m1 m2 : scalar) (checkpoint : odict Tensor) :
  parsed self name m2 checkpoint =
  (set_multiplier (fst (parsed self name m1 checkpoint)) m2,
   snd (parsed self name m1 checkpoint)).
Proof.
  unfold parsed.
  change (LoRA_init name (mgr_device self) (mgr_dtype self) m2)
    with (set_multiplier
            (LoRA_init name (mgr_device self) (mgr_dtype self) m1) m2).
  apply load_from_dict_set_multiplier.
Qed.

Lemma activate_twice (self : KohyaLoraManager) (name : string)
  (l1 l2 : LoRA) :
  activate (activate self name l1) name l2 = activate self name l2.
Proof.
  unfold activate. simpl. rewrite !od_set_twice. reflexivity.
Qed.

(** Applying a name to a manager in which it was just activated. *)
Lemma apply_after_activate (io : FileIO) (join : string -> string -> Path)
  (self : KohyaLoraManager) (name : string) (m2 : scalar) (l1 : LoRA)
  (p : Path) :
  search_file io (candidate_files join self name) = Some p ->
  apply_lora_model io join (activate self name l1) name m2 =
  (activate self name (set_multiplier l1 m2), Ok tt).
Proof.
  intro Hp. rewrite apply_lora_model_cases.
  change (candidate_files join (activate self name l1) name)
    with (candidate_files join self name).
  rewrite Hp. simpl. rewrite od_get_set, String.eqb_refl.
  rewrite activate_twice. reflexivity.
Qed.

(** X16.  Applying a name twice in a row is applying it once with the last
    multiplier: the second call finds the adapter loaded and only sets the
    multiplier, and parsing does not depend on the multiplier.  This holds
    for every outcome of the first call: no file, an adapter that was
    loaded, a fresh load, or a failure, which the second call repeats. *)
Theorem reapplying_is_applying_last (io : FileIO)
  (join : string -> string -> Path) (self : KohyaLoraManager)
  (name : string) (m1 m2 : scalar) :
  apply_lora_model io join
    (fst (apply_lora_model io join self name m1)) name m2
  = apply_lora_model io join self name m2.
Proof.
  rewrite (apply_lora_model_cases io join self name m1).
  destruct (search_file io (candidate_files join self name)) as [p | ] eqn:Hp;
    [ | reflexivity ].
  destruct (od_get (loaded_loras (wrapper self)) name) as [lora | ] eqn:Hl.
  - simpl. rewrite (apply_after_activate _ _ _ _ _ _ Hp).
    rewrite apply_lora_model_cases, Hp, Hl. reflexivity.
  - destruct (read_checkpoint io p) as [checkpoint | e] eqn:Hr;
      [ | reflexivity ].
    assert (Hdone :
      apply_lora_model io join
        (activate self name
           (set_multiplier (fst (parsed self name m1 checkpoint)) m1))
        name m2
      = apply_lora_model io join self name m2 \/
      exists e, snd (parsed self name m1 checkpoint) = Raised e).
    { destruct (snd (parsed self name m1 checkpoint)) as [ | | e ] eqn:Hst;
        [ left | left | right; exists e; reflexivity ];
        rewrite (apply_after_activate _ _ _ _ _ _ Hp);
        rewrite apply_lora_model_cases, Hp, Hl, Hr;
        rewrite (parsed_multiplier self name m1 m2 checkpoint); simpl;
        rewrite Hst; reflexivity. }
    destruct (snd (parsed self name m1 checkpoint)) as [ | | e ] eqn:Hst;
      simpl.
    + destruct Hdone as [H | (e & He)]; [ exact H | discriminate He ].
    + destruct Hdone as [H | (e & He)]; [ exact H | discriminate He ].
    + reflexivity.
Qed.

(** *** Deactivating and unloading *)

Lemma filter_filter_and (A : Type) (p q : A -> bool) (l : list A) :
  filter p (filter q l) = filter (fun x => q x && p x) l.
Proof.
  induction l as [ | a l IH ]; simpl.
  - reflexivity.
  - destruct (q a); simpl; [ destruct (p a) | ]; rewrite IH; reflexivity.
Qed.

(** The loop of [unload_applied_loras] over a list of names. *)
Lemma unload_applied_loras_fold (keep ks : list string) :
  forall m : KohyaLoraManager,
    NoDup (od_keys (applied_loras (wrapper m))) ->
    let m' :=
      fold_left
        (fun (m : KohyaLoraManager) (name : string) =>
           if existsb (String.eqb name) keep then m
           else unload_applied_lora m name) ks m in
    applied_loras (wrapper m') =
      filter (fun kv => existsb (String.eqb (fst kv)) keep
                        || negb (existsb (String.eqb (fst kv)) ks))
             (applied_loras (wrapper m)) /\
    loaded_loras (wrapper m') = loaded_loras (wrapper m).
Proof.
  induction ks as [ | k ks IH ]; intros m Hnd; simpl.
  - split; [ | reflexivity ]. symmetry. apply filter_all.
    intros x _. apply orb_true_r.
  - destruct (existsb (String.eqb k) keep) eqn:Hk.
    + destruct (IH m Hnd) as [Ha Hl]. split; [ | exact Hl ].
      rewrite Ha. apply filter_ext. intros [x y]. simpl.
      destruct (String.eqb_spec x k) as [-> | _]; [ | reflexivity ].
      rewrite Hk. reflexivity.
    + destruct (IH (unload_applied_lora m k)) as [Ha Hl].
      { simpl. apply od_del_nodup. exact Hnd. }
      split; [ | exact Hl ].
      rewrite Ha. simpl. rewrite od_del_filter by exact Hnd.
      rewrite filter_filter_and. apply filter_ext. intros [x y]. simpl.
      destruct (String.eqb_spec x k) as [-> | _]; simpl;
        [ rewrite Hk | ]; reflexivity.
Qed.

(** X17.  [unload_applied_loras] leaves active exactly the adapters whose
    names are in the list it is given, in the order they had, and does not
    touch the loaded mapping: the adapters it deactivates stay loaded. *)
Theorem unload_applied_loras_keeps_listed (self : KohyaLoraManager)
  (keep : list string) :
  NoDup (od_keys (applied_loras (wrapper self))) ->
  applied_loras (wrapper (unload_applied_loras self keep)) =
    filter (fun kv => existsb (String.eqb (fst kv)) keep)
           (applied_loras (wrapper self)) /\
  loaded_loras (wrapper (unload_applied_loras self keep))
    = loaded_loras (wrapper self).
Proof.
  intro Hnd. unfold unload_applied_loras.
  destruct (@unload_applied_loras_fold keep
              (od_keys (applied_loras (wrapper self))) self Hnd) as [Ha Hl].
  split; [ | exact Hl ].
  rewrite Ha. apply filter_ext_in. intros [x y] Hin. simpl.
  replace (existsb (String.eqb x) (od_keys (applied_loras (wrapper self))))
    with true; [ apply orb_false_r | ].
  symmetry. apply existsb_exists. exists x.
  split; [ | apply String.eqb_refl ].
  apply (in_map fst) in Hin. exact Hin.
Qed.

Lemma filter_none (A : Type) (p : A -> bool) (l : list A) :
  (forall x, In x l -> p x = false) -> filter p l = [].
Proof.
  induction l as [ | a l IH ]; simpl; intro H.
  - reflexivity.
  - rewrite (H a (or_introl eq_refl)). apply IH.
    intros x Hx. apply H. right. exact Hx.
Qed.

(** X18.  After [clear_loras] every hook returns the base output, for any
    layer and input, while the loaded adapters and the hooks stay: the
    active mapping is the one [unload_applied_loras] with an empty list
    leaves. *)
Theorem clear_loras_deactivates_all (self : KohyaLoraManager)
  (name : string) (input_h : list Tensor) (output : Tensor) :
  NoDup (od_keys (applied_loras (wrapper self))) ->
  lora_forward (wrapper (clear_loras self)) name input_h output = Ok output /\
  loaded_loras (wrapper (clear_loras self)) = loaded_loras (wrapper self) /\
  hooks (wrapper (clear_loras self)) = hooks (wrapper self) /\
  applied_loras (wrapper (unload_applied_loras self []))
    = applied_loras (wrapper (clear_loras self)).
Proof.
  intro Hnd. repeat split.
  - unfold lora_forward, clear_loras. simpl.
    destruct (List.length (loaded_loras (wrapper self)) =? 0); reflexivity.
  - unfold unload_applied_loras.
    destruct (@unload_applied_loras_fold []
                (od_keys (applied_loras (wrapper self))) self Hnd) as [Ha _].
    rewrite Ha. simpl. apply filter_none. intros [x y] Hin. simpl.
    apply negb_false_iff. apply existsb_exists. exists x.
    split; [ | apply String.eqb_refl ].
    apply (in_map fst) in Hin. exact Hin.
Qed.

(** X19.  [unload_lora] removes an adapter from the loaded mapping only: an
    adapter that is active stays active.  While some adapter is still
    loaded every hook returns what it returned before; once the loaded
    mapping is empty every hook returns the base output, although the
    active mapping may still hold adapters. *)
Theorem unload_lora_does_not_deactivate (self : KohyaLoraManager)
  (lora_name name : string) (input_h : list Tensor) (output : Tensor) :
  let w := wrapper self in
  let w' := wrapper (unload_lora self lora_name) in
  applied_loras w' = applied_loras w /\
  (loaded_loras w' <> [] ->
   lora_forward w' name input_h output = lora_forward w name input_h output) /\
  (loaded_loras w' = [] ->
   lora_forward w' name input_h output = Ok output).
Proof.
  simpl. split; [ reflexivity | split ].
  - unfold lora_forward. simpl.
    destruct (loaded_loras (wrapper self)) as [ | [k v] d ]; simpl.
    + intro H. contradiction.
    + destruct (String.eqb lora_name k); simpl;
        destruct d; simpl; intro H; try reflexivity; contradiction.
  - unfold lora_forward. simpl. intros ->. reflexivity.
Qed.

(** *** The mappings are dictionaries keyed by adapter name *)

Definition keyed_by_name (d : odict LoRA) : Prop :=
  NoDup (od_keys d) /\ forall k l, In (k, l) d -> adapter_name l = k.

Definition manager_ok (m : KohyaLoraManager) : Prop :=
  keyed_by_name (loaded_loras (wrapper m)) /\
  keyed_by_name (applied_loras (wrapper m)).

Lemma keyed_by_name_set (d : odict LoRA) (k : string) (l : LoRA) :
  keyed_by_name d -> adapter_name l = k -> keyed_by_name (od_set d k l).
Proof.
  intros [Hnd Hk] Hl. split.
  - apply od_set_nodup. exact Hnd.
  - intros k' l' Hin. apply od_set_in in Hin.
    destruct Hin as [[-> ->] | Hin]; [ exact Hl | exact (Hk _ _ Hin) ].
Qed.

Lemma keyed_by_name_del (d : odict LoRA) (k : string) :
  keyed_by_name d -> keyed_by_name (od_del d k).
Proof.
  intros [Hnd Hk]. split.
  - apply od_del_nodup. exact Hnd.
  - intros k' l' Hin. apply od_del_in in Hin. exact (Hk _ _ Hin).
Qed.

Lemma keyed_by_name_filter (p : string * LoRA -> bool) (d : odict LoRA) :
  keyed_by_name d -> keyed_by_name (filter p d).
Proof.
  intros [Hnd Hk]. split.
  - apply od_filter_nodup. exact Hnd.
  - intros k' l' Hin. apply filter_In in Hin. exact (Hk _ _ (proj1 Hin)).
Qed.

Lemma load_from_dict_name (w : LoRAModuleWrapper) (self : LoRA)
  (state_dict : odict Tensor) :
  adapter_name (fst (load_from_dict w self state_dict)) = adapter_name self.
Proof.
  unfold load_from_dict.
  destruct (@group_keys_invariant state_dict self [] false (NoDup_nil _))
    as (_ & Hn & _).
  destruct (g_error _); [ exact Hn | ].
  destruct (build_layers _ _ _) as [self' st] eqn:Hrun.
  destruct (build_layers_frame _ _ _ Hrun) as (_ & _ & Hn' & _).
  simpl. rewrite Hn'. exact Hn.
Qed.

Lemma manager_ok_activate (m : KohyaLoraManager) (name : string)
  (l : LoRA) :
  manager_ok m -> adapter_name l = name -> manager_ok (activate m name l).
Proof.
  intros [Hl Ha] Hn. split; simpl; apply keyed_by_name_set; assumption.
Qed.

(** Every operation of the manager keeps both mappings keyed by name,
    whatever the files hold and however a call ends. *)
Lemma manager_ok_load (io : FileIO) (self : KohyaLoraManager)
  (name : string) (path_file : Path) (mult : scalar) :
  manager_ok self ->
  manager_ok (fst (load_lora_module io self name path_file mult)).
Proof.
  intro Hok. assert (Hok' := Hok). destruct Hok' as [Hl Ha].
  unfold load_lora_module.
  destruct (if String.eqb (suffix path_file) ".safetensors"
            then load_file io (posix path_file)
            else torch_load io path_file) as [checkpoint | e];
    [ | exact Hok ].
  assert (Hn := load_from_dict_name (wrapper self)
                  (LoRA_init name (mgr_device self) (mgr_dtype self) mult)
                  checkpoint).
  destruct (load_from_dict _ _ checkpoint) as [lora' [ | | e]]; simpl;
    try exact Hok;
    (split; simpl; [ apply keyed_by_name_set; [ exact Hl | exact Hn ]
                   | exact Ha ]).
Qed.

Lemma manager_ok_apply (io : FileIO) (join : string -> string -> Path)
  (self : KohyaLoraManager) (name : string) (mult : scalar) :
  manager_ok self ->
  manager_ok (fst (apply_lora_model io join self name mult)).
Proof.
  intro Hok. assert (Hok' := Hok). destruct Hok' as [Hl Ha].
  rewrite apply_lora_model_cases.
  destruct (search_file io _) as [p | ]; [ | exact Hok ].
  destruct (od_get (loaded_loras (wrapper self)) name) as [lora | ] eqn:Hg.
  - simpl. apply manager_ok_activate; [ exact Hok | ].
    simpl. destruct Hl as [Hnd Hk]. apply Hk.
    clear - Hg. induction (loaded_loras (wrapper self)) as [ | [k v] d IH ];
      simpl in *; [ discriminate Hg | ].
    destruct (String.eqb_spec name k) as [-> | _].
    + injection Hg as ->. left. reflexivity.
    + right. exact (IH Hg).
  - destruct (read_checkpoint io p) as [checkpoint | e]; [ | exact Hok ].
    assert (Hn : adapter_name (fst (parsed self name mult checkpoint))
                 = name)
      by (unfold parsed; rewrite load_from_dict_name; reflexivity).
    destruct (snd (parsed self name mult checkpoint)); simpl;
      try exact Hok; apply manager_ok_activate; assumption.
Qed.

Lemma manager_ok_unload_applied_loras (self : KohyaLoraManager)
  (keep : list string) :
  manager_ok self -> manager_ok (unload_applied_loras self keep).
Proof.
  intros [Hl [Hnd Hk]].
  destruct (@unload_applied_loras_fold keep
              (od_keys (applied_loras (wrapper self))) self Hnd)
    as [Ea El].
  unfold unload_applied_loras. split.
  - rewrite El. exact Hl.
  - rewrite Ea. apply keyed_by_name_filter. split; assumption.
Qed.

(** The states of a manager in use: a fresh manager, and what the
    operations make of a state, with whatever file system each call sees. *)
Inductive reachable : KohyaLoraManager -> Prop :=
| reach_init (unet_ text_encoder_ : Module) (lora_path_ : string)
    (dev : Device) (dt : Dtype) :
    reachable (KohyaLoraManager_init unet_ text_encoder_ lora_path_ dev dt)
| reach_load (io : FileIO) (m : KohyaLoraManager) (name : string)
    (path_file : Path) (mult : scalar) :
    reachable m ->
    reachable (fst (load_lora_module io m name path_file mult))
| reach_apply (io : FileIO) (join : string -> string -> Path)
    (m : KohyaLoraManager) (name : string) (mult : scalar) :
    reachable m ->
    reachable (fst (apply_lora_model io join m name mult))
| reach_unload_applied_loras (m : KohyaLoraManager) (keep : list string) :
    reachable m -> reachable (unload_applied_loras m keep)
| reach_unload_applied_lora (m : KohyaLoraManager) (name : string) :
    reachable m -> reachable (unload_applied_lora m name)
| reach_unload_lora (m : KohyaLoraManager) (name : string) :
    reachable m -> reachable (unload_lora m name)
| reach_clear_loras (m : KohyaLoraManager) :
    reachable m -> reachable (clear_loras m).

(** X20.  In every state that a manager reaches from its construction by
    loading, applying, deactivating, unloading and clearing, whatever the
    files hold and however the calls end, each of the two mappings has every
    name once and holds under a name an adapter of that name. *)
Theorem reachable_mappings_keyed_by_name (m : KohyaLoraManager) :
  reachable m -> manager_ok m.
Proof.
  induction 1 as [ u t path dev dt
                 | io m name path_file mult _ IH
                 | io join m name mult _ IH
                 | m keep _ IH | m name _ IH | m name _ IH | m _ IH ].
  - split; (split; [ constructor | intros k l [] ]).
  - apply manager_ok_load. exact IH.
  - apply manager_ok_apply. exact IH.
  - apply manager_ok_unload_applied_loras. exact IH.
  - destruct IH as [Hl Ha].
    split; simpl; [ exact Hl | apply keyed_by_name_del; exact Ha ].
  - destruct IH as [Hl Ha].
    split; simpl; [ apply keyed_by_name_del; exact Hl | exact Ha ].
  - destruct IH as [Hl Ha].
    split; simpl; [ exact Hl | ]. split; [ constructor | intros k l [] ].
Qed.

(** ** More properties of the forward hook *)

Lemma lora_forward_loop_filter (name : string) (loras : list LoRA)
  (input_h : list Tensor) :
  forall output : Tensor,
    lora_forward_loop name
      (filter (fun lora => od_mem (layers lora) name) loras) input_h output
    = lora_forward_loop name loras input_h output.
Proof.
  unfold od_mem.
  induction loras as [ | lora loras IH ]; intro output; simpl.
  - reflexivity.
  - destruct (od_get (layers lora) name) as [layer | ] eqn:Hl; simpl.
    + rewrite Hl.
      destruct (Layer_forward layer (multiplier lora) input_h output);
        simpl; [ apply IH | reflexivity ].
    + apply IH.
Qed.

(** X21.  What the hook of a layer returns depends on the active adapters
    that have a delta for this layer only: with the others deactivated it
    returns the same, result or exception. *)
Theorem hook_skips_adapters_without_delta (w : LoRAModuleWrapper)
  (name : string) (input_h : list Tensor) (output : Tensor) :
  lora_forward
    (set_applied w
       (filter (fun kv => od_mem (layers (snd kv)) name) (applied_loras w)))
    name input_h output
  = lora_forward w name input_h output.
Proof.
  unfold lora_forward. simpl.
  destruct (List.length (loaded_loras w) =? 0); [ reflexivity | ].
  rewrite <- (lora_forward_loop_filter name (od_values (applied_loras w))).
  f_equal. unfold od_values.
  induction (applied_loras w) as [ | [k v] d IH ]; simpl.
  - reflexivity.
  - destruct (od_mem (layers v) name); simpl; rewrite IH; reflexivity.
Qed.

(** X22.  [load_lora_module] stores the adapter in the loaded mapping only.
    It does not activate it, and when the name is active already the active
    mapping keeps the adapter it had: as long as some adapter was loaded
    before the call, every hook returns what it returned before.  The other
    names of the loaded mapping keep their adapters. *)
Theorem load_lora_module_does_not_activate (io : FileIO)
  (self : KohyaLoraManager) (name : string) (path_file : Path)
  (mult : scalar) (layer_name : string) (input_h : list Tensor)
  (output : Tensor) :
  let w := wrapper self in
  let w' := wrapper (fst (load_lora_module io self name path_file mult)) in
  applied_loras w' = applied_loras w /\
  (loaded_loras w <> [] ->
   lora_forward w' layer_name input_h output
     = lora_forward w layer_name input_h output) /\
  (forall other, other <> name ->
     od_get (loaded_loras w') other = od_get (loaded_loras w) other).
Proof.
  simpl. unfold load_lora_module.
  destruct (if String.eqb (suffix path_file) ".safetensors"
            then load_file io (posix path_file)
            else torch_load io path_file) as [checkpoint | e];
    [ | repeat split ].
  destruct (load_from_dict _ _ checkpoint) as [lora' [ | | e]]; simpl;
    try (repeat split; fail);
    (split; [ reflexivity | split ];
     [ intro Hne; unfold lora_forward; simpl;
       destruct (loaded_loras (wrapper self)) as [ | [k v] d ];
       [ contradiction | simpl; destruct (String.eqb name k); reflexivity ]
     | intros other Hother; rewrite od_get_set;
       destruct (String.eqb_spec other name) as [E | _];
       [ contradiction | reflexivity ] ]).
Qed.

End Kohya.



(** ** Two implementations of the interface

    Tensors all of whose entries are equal form a fragment of [torch] that is
    closed under the operations above and on which they are easy to compute:
    a tensor is its shape and the common value of its entries.  Shapes follow
    torch (broadcasting, matrix and convolution shapes, element counts).  A
    convolution with padding does not keep the entries equal; it is outside
    the fragment and reported as an error.  The fragment is built over exact
    rationals and over IEEE binary64 floats.

    [a_store] is what a value becomes when it is copied into a parameter of
    a freshly constructed layer, which has torch's default dtype. *)

Record Arith (S : Type) : Type := {
  a_one : S;
  a_of_nat : nat -> S;
  a_add : S -> S -> S;
  a_mul : S -> S -> S;
  a_div : S -> S -> S;
  a_truthy : S -> bool;
  a_store : S -> S
}.

Record CTensor (S : Type) : Type := {
  c_shape : list nat;
  c_val : S
}.

Definition numel (sh : list nat) : nat := fold_right Nat.mul 1 sh.

(** Broadcasting of two dimensions: equal, or one of them is 1. *)
Definition bdim (a b : nat) : option nat :=
  if a =? b then Some a
  else if a =? 1 then Some b
  else if b =? 1 then Some a
  else None.

(** Broadcasting of two shapes, read from the last dimension. *)
Fixpoint broadcast_rev (r1 r2 : list nat) : option (list nat) :=
  match r1, r2 with
  | [], r | r, [] => Some r
  | a :: r1', b :: r2' =>
      match bdim a b, broadcast_rev r1' r2' with
      | Some d, Some r => Some (d :: r)
      | _, _ => None
      end
  end.

Definition broadcast (s1 s2 : list nat) : option (list nat) :=
  option_map (@rev nat) (broadcast_rev (rev s1) (rev s2)).

Definition list_nat_eqb (a b : list nat) : bool :=
  if list_eq_dec Nat.eq_dec a b then true else false.

Section ConstantTensors.

Variable S : Type.
Variable A : Arith S.

Definition ct (sh : list nat) (v : S) : CTensor S :=
  {| c_shape := sh; c_val := v |}.

Definition ct_item (t : CTensor S) : result S :=
  if numel (c_shape t) =? 1 then Ok (c_val t) else Raise RuntimeError.

(** [copy_] broadcasts the source to the shape of the destination and
    converts it to the dtype of the destination, a fresh parameter. *)
Definition ct_fresh_copy (dst : list nat) (src : CTensor S)
  : result (CTensor S) :=
  match broadcast (c_shape src) dst with
  | Some sh =>
      if list_nat_eqb sh dst then Ok (ct dst (a_store A (c_val src)))
      else Raise RuntimeError
  | None => Raise RuntimeError
  end.

Definition ct_pointwise (op : S -> S -> S) (a b : CTensor S)
  : result (CTensor S) :=
  match broadcast (c_shape a) (c_shape b) with
  | Some sh => Ok (ct sh (op (c_val a) (c_val b)))
  | None => Raise RuntimeError
  end.

(** A sum of [k] products of entries. *)
Definition ct_dot (k : nat) (x y : S) : S :=
  a_mul A (a_of_nat A k) (a_mul A x y).

(** [a @ b] for matrices, vectors and batches of matrices. *)
Definition ct_matmul (a b : CTensor S) : result (CTensor S) :=
  match rev (c_shape a), rev (c_shape b) with
  | [k], [k'] =>
      if k =? k' then Ok (ct [] (ct_dot k (c_val a) (c_val b)))
      else Raise RuntimeError
  | k :: m :: ba, [k'] =>
      if k =? k' then Ok (ct (rev (m :: ba)) (ct_dot k (c_val a) (c_val b)))
      else Raise RuntimeError
  | [k], n :: k' :: bb =>
      if k =? k' then Ok (ct (rev (n :: bb)) (ct_dot k (c_val a) (c_val b)))
      else Raise RuntimeError
  | k :: m :: ba, n :: k' :: bb =>
      match broadcast_rev ba bb with
      | Some batch =>
          if k =? k'
          then Ok (ct (rev (n :: m :: batch)) (ct_dot k (c_val a) (c_val b)))
          else Raise RuntimeError
      | None => Raise RuntimeError
      end
  | _, _ => Raise RuntimeError
  end.

Definition ct_reshape (a : CTensor S) (sh : list nat) : result (CTensor S) :=
  if numel (c_shape a) =? numel sh then Ok (ct sh (c_val a))
  else Raise RuntimeError.

(** ['i j k l, j r, i p -> p r k l'] *)
Definition ct_einsum (t wb wa : CTensor S) : result (CTensor S) :=
  match c_shape t, c_shape wb, c_shape wa with
  | [i; j; k; l], [j'; r], [i'; p] =>
      if (i =? i') && (j =? j') then
        Ok (ct [p; r; k; l]
              (a_mul A (a_of_nat A (i * j))
                 (a_mul A (c_val t) (a_mul A (c_val wb) (c_val wa)))))
      else Raise RuntimeError
  | _, _, _ => Raise RuntimeError
  end.

Definition ct_add_bias (out_c : nat) (v : S) (b : option (CTensor S))
  : result S :=
  match b with
  | None => Ok v
  | Some b =>
      if list_nat_eqb (c_shape b) [out_c] then Ok (a_add A v (c_val b))
      else Raise RuntimeError
  end.

(** [linear(x, w, b)] for a weight of shape [(out, in)] and a bias of
    shape [(out)], or a weight of shape [(in)] and a bias without
    dimensions. *)
Definition ct_linear (x w : CTensor S) (b : option (CTensor S))
  : result (CTensor S) :=
  match rev (c_shape x), c_shape w with
  | i :: lead, [o; i'] =>
      if i =? i' then
        v <- ct_add_bias o (ct_dot i (c_val x) (c_val w)) b ;;
        Ok (ct (rev (o :: lead)) v)
      else Raise RuntimeError
  | i :: lead, [i'] =>
      if i =? i' then
        match b with
        | None => Ok (ct (rev lead) (ct_dot i (c_val x) (c_val w)))
        | Some b =>
            match c_shape b with
            | [] => Ok (ct (rev lead)
                           (a_add A (ct_dot i (c_val x) (c_val w)) (c_val b)))
            | _ => Raise RuntimeError
            end
        end
      else Raise RuntimeError
  | _, _ => Raise RuntimeError
  end.

(** The size of one output dimension of a convolution without padding. *)
Definition conv_out (n k s d : nat) : option nat :=
  if (s =? 0) || (k =? 0) then None
  else if n <? d * (k - 1) + 1 then None
  else Some ((n - (d * (k - 1) + 1)) / s + 1).

(** [conv2d(x, w, b, stride, padding, dilation, groups)] on a batch
    [(N, C, H, W)] with a weight [(O, C / groups, kh, kw)]. *)
Definition ct_conv2d (x w : CTensor S) (b : option (CTensor S))
  (st pad dil : nat * nat) (g : nat) : result (CTensor S) :=
  match c_shape x, c_shape w with
  | [n; c; h; wd], [o; cg; kh; kw] =>
      if (fst pad =? 0) && (snd pad =? 0) && negb (g =? 0)
         && (c =? cg * g) && (o mod g =? 0) then
        match conv_out h kh (fst st) (fst dil),
              conv_out wd kw (snd st) (snd dil) with
        | Some ho, Some wo =>
            v <- ct_add_bias o (ct_dot (cg * kh * kw) (c_val x) (c_val w)) b ;;
            Ok (ct [n; o; ho; wo] v)
        | _, _ => Raise RuntimeError
        end
      else Raise RuntimeError
  | _, _ => Raise RuntimeError
  end.

Definition ConstantTorch : Torch S (CTensor S) unit unit :=
  {| s_one := a_one A;
     s_truthy := a_truthy A;
     s_div_int := fun x n => a_div A x (a_of_nat A n);
     shape := @c_shape S;
     item := ct_item;
     to_ := fun t _ _ => t;
     fresh_copy := ct_fresh_copy;
     tadd := ct_pointwise (a_add A);
     tmul := ct_pointwise (a_mul A);
     tmuls := fun t x => ct (c_shape t) (a_mul A (c_val t) x);
     matmul := ct_matmul;
     reshape := ct_reshape;
     view := ct_reshape;
     einsum_rebuild := ct_einsum;
     linear := ct_linear;
     conv2d := ct_conv2d |}.

End ConstantTensors.

(** Exact rational arithmetic, with fractions kept in lowest terms. *)
Definition QArith_ops : Arith Q :=
  {| a_one := 1%Q;
     a_of_nat := fun n => inject_Z (Z.of_nat n);
     a_add := fun x y => Qred (x + y);
     a_mul := fun x y => Qred (x * y);
     a_div := fun x y => Qred (x / y);
     a_truthy := fun x => negb (Qeq_bool x 0);
     a_store := fun x => x |}.

(** The nearest binary32 value of a binary64 float, ties to even: the
    conversion to [float32], torch's default dtype. *)
Definition round_binary32 (x : float) : float :=
  SF2Prim
    match Prim2SF x with
    | S754_finite s m e => binary_normalize 24 128 (cond_Zopp s (Zpos m)) e s
    | sf => sf
    end.

(** IEEE binary64 arithmetic, the arithmetic of a [float64] tensor and of a
    Python float: a pipeline whose dtype is [float64], so that [to] keeps
    the values it is given.  The weights of the sub-layers that parsing
    constructs pass through [float32] on the way, because [copy_] writes
    them into parameters of the default dtype first.  A sum of [k] products
    is exact in this instance for [k = 1], that is for tensors of one
    element. *)
Definition Float_ops : Arith float :=
  {| a_one := 1%float;
     a_of_nat := fun n => PrimFloat.of_uint63 (Uint63.of_Z (Z.of_nat n));
     a_add := PrimFloat.add;
     a_mul := PrimFloat.mul;
     a_div := PrimFloat.div;
     a_truthy := fun x => negb (PrimFloat.eqb x 0%float);
     a_store := round_binary32 |}.

#[global] Instance QTorch : Torch Q (CTensor Q) unit unit :=
  ConstantTorch QArith_ops.
#[global] Instance FloatTorch : Torch float (CTensor float) unit unit :=
  ConstantTorch Float_ops.


(** ** Exact arithmetic satisfies the accumulation law *)

Lemma bdim_comm (p q : nat) : bdim p q = bdim q p.
Proof.
  unfold bdim.
  destruct (Nat.eqb_spec p q) as [E | N].
  - subst q. rewrite Nat.eqb_refl. reflexivity.
  - destruct (Nat.eqb_spec q p) as [E' | _]; [ congruence | ].
    destruct (Nat.eqb_spec p 1) as [P1 | P1];
      destruct (Nat.eqb_spec q 1) as [Q1 | Q1]; try reflexivity.
    congruence.
Qed.

Lemma bdim_swap (p q r : nat) :
  match bdim p q with Some t => bdim t r | None => None end =
  match bdim p r with Some t => bdim t q | None => None end.
Proof.
  unfold bdim.
  repeat match goal with
         | |- context [?a =? ?b] =>
             destruct (Nat.eqb_spec a b); subst; cbv beta iota
         end;
    try reflexivity; try congruence.
Qed.

Lemma broadcast_rev_nil_r (r : list nat) : broadcast_rev r [] = Some r.
Proof. destruct r; reflexivity. Qed.

Lemma broadcast_rev_comm (a : list nat) :
  forall b, broadcast_rev a b = broadcast_rev b a.
Proof.
  induction a as [ | p a IH ]; intro b.
  - simpl. rewrite broadcast_rev_nil_r. reflexivity.
  - destruct b as [ | q b ]; [ reflexivity | ].
    simpl. rewrite (bdim_comm p q), (IH b). reflexivity.
Qed.

Lemma broadcast_rev_swap (x : list nat) :
  forall a b,
    match broadcast_rev x a with
    | Some t => broadcast_rev t b
    | None => None
    end =
    match broadcast_rev x b with
    | Some t => broadcast_rev t a
    | None => None
    end.
Proof.
  induction x as [ | p x IH ]; intros a b.
  - simpl. apply broadcast_rev_comm.
  - destruct a as [ | q a ]; destruct b as [ | r b ].
    + reflexivity.
    + simpl broadcast_rev at 1.
      destruct (broadcast_rev (p :: x) (r :: b)) as [t | ];
        [ rewrite broadcast_rev_nil_r | ]; reflexivity.
    + simpl broadcast_rev at 3.
      destruct (broadcast_rev (p :: x) (q :: a)) as [t | ];
        [ rewrite broadcast_rev_nil_r | ]; reflexivity.
    + simpl.
      pose proof (bdim_swap p q r) as Hd.
      pose proof (IH a b) as Ht.
      destruct (bdim p q) as [d1 | ]; destruct (bdim p r) as [d2 | ];
        destruct (broadcast_rev x a) as [t1 | ];
        destruct (broadcast_rev x b) as [t2 | ]; simpl;
        try reflexivity;
        try (rewrite Hd); try (rewrite <- Hd);
        try (rewrite Ht); try (rewrite <- Ht);
        try reflexivity;
        repeat match goal with
               | |- context [match ?o with Some _ => _ | None => _ end] =>
                   destruct o; try reflexivity
               end.
Qed.

Lemma Qred_add_swap (o a b : Q) :
  Qred (Qred (o + a) + b) = Qred (Qred (o + b) + a).
Proof.
  apply Qred_complete. rewrite !Qred_correct. ring.
Qed.

(** Pointwise operations of constant tensors inherit the law. *)
Lemma ct_pointwise_swap (S : Type) (op : S -> S -> S) :
  (forall o a b, op (op o a) b = op (op o b) a) ->
  forall o a b : CTensor S,
    (x <- ct_pointwise op o a ;; ct_pointwise op x b) =
    (x <- ct_pointwise op o b ;; ct_pointwise op x a).
Proof.
  intros Hop [so vo] [sa va] [sb vb].
  unfold ct_pointwise, broadcast; simpl.
  pose proof (broadcast_rev_swap (rev so) (rev sa) (rev sb)) as Hs.
  destruct (broadcast_rev (rev so) (rev sa)) as [t1 | ];
    destruct (broadcast_rev (rev so) (rev sb)) as [t2 | ]; simpl in *;
    rewrite ?rev_involutive.
  - rewrite Hs.
    destruct (broadcast_rev t2 (rev sa)); simpl; [ | reflexivity ].
    rewrite Hop. reflexivity.
  - rewrite Hs. reflexivity.
  - rewrite <- Hs. reflexivity.
  - reflexivity.
Qed.

(** Accumulation is independent of the order over exact rationals. *)
Lemma QTorch_accumulation_law : accumulation_law (T := QTorch).
Proof.
  intros o a b.
  apply (ct_pointwise_swap (fun x y : Q => Qred (x + y)) Qred_add_swap).
Qed.

(** ** Example networks and checkpoints *)

Section ExampleNetworks.

Variable S : Type.
Variable zero : S.

(** A container block has none of the layer attributes, and the code reads
    none of them on it. *)
Definition no_attrs : @LayerAttrs (CTensor S) :=
  Build_LayerAttrs (0, 0) (0, 0) (0, 0) (0, 0) 0 (ct [] zero) None.

Definition container (oid : nat) (cls : string)
  (children : list (string * @Module (CTensor S))) : @Module (CTensor S) :=
  Mod oid (OtherClass cls) no_attrs children.

(** [torch.nn.Linear(in_f, out_f)] with constant weight and bias. *)
Definition linear_layer (oid : nat) (in_f out_f : nat) (w : S)
  (b : option S) : @Module (CTensor S) :=
  Mod oid TorchLinear
    (Build_LayerAttrs (0, 0) (0, 0) (0, 0) (0, 0) 0
       (ct [out_f; in_f] w) (option_map (ct [out_f]) b)) [].

(** A UNet with one attention projection inside a transformer block, which
    discovery names [lora_unet_down_blocks_0_attentions_0_to_q]. *)
Definition small_unet (in_f out_f : nat) (w : S) (b : option S)
  : @Module (CTensor S) :=
  container 1 "UNet2DConditionModel"
    [("down_blocks", container 2 "ModuleList"
       [("0", container 3 "CrossAttnDownBlock2D"
          [("attentions", container 4 "ModuleList"
             [("0", container 5 "Transformer2DModel"
                [("to_q", linear_layer 6 in_f out_f w b)])])])])].

(** A text encoder with one MLP projection, [lora_te_mlp_fc1]. *)
Definition small_text_encoder (in_f out_f : nat) (w : S) (b : option S)
  : @Module (CTensor S) :=
  container 101 "CLIPTextModel"
    [("mlp", container 102 "CLIPMLP"
       [("fc1", linear_layer 103 in_f out_f w b)])].

End ExampleNetworks.

Definition to_q : string := "lora_unet_down_blocks_0_attentions_0_to_q".

(** The types of the model over exact rationals and over floats. *)
Definition QWrapper : Type := @LoRAModuleWrapper Q (CTensor Q) unit unit.
Definition QLoRA : Type := @LoRA Q (CTensor Q) unit unit.
Definition FWrapper : Type :=
  @LoRAModuleWrapper float (CTensor float) unit unit.
Definition FLoRA : Type := @LoRA float (CTensor float) unit unit.

(** The registry of a 320-wide projection, over exact rationals. *)
Definition q_wrapper : QWrapper :=
  LoRAModuleWrapper_init
    (small_unet 0%Q 320 320 (1 # 320) (Some 2%Q))
    (small_text_encoder 0%Q 4 4 1%Q None).

(** The checkpoint of the end-to-end scenario: a rank-4 low-rank delta for
    the projection, with alpha 4. *)
Definition q_checkpoint : odict (CTensor Q) :=
  [((to_q ++ ".lora_down.weight")%string, ct [4; 320] (1 # 320));
   ((to_q ++ ".lora_up.weight")%string, ct [320; 4] (1 # 4));
   ((to_q ++ ".alpha")%string, ct [] 4%Q)].

(** The adapter parsed from the checkpoint, with strength 0.8, and the
    registry with it loaded and active. *)
Definition q_adapter : QLoRA :=
  fst (load_from_dict q_wrapper (LoRA_init "style" tt tt (4 # 5))
                      q_checkpoint).

Definition q_active : QWrapper :=
  set_applied (set_loaded q_wrapper [("style", q_adapter)])
              [("style", q_adapter)].

(** The low-rank delta of the scenario: rank 4, alpha 4, scale 1. *)
Definition q_delta : @LoRALayer Q (CTensor Q) :=
  Build_LoRALayer "style" to_q 1%Q
    (SubLinear 4 320 (ct [320; 4] (1 # 4)))
    None
    (SubLinear 320 4 (ct [4; 320] (1 # 320))).

Definition q_input : CTensor Q := ct [1; 320] 1%Q.
Definition q_output : CTensor Q := ct [1; 320] 10%Q.

(** A second adapter for the same projection, with alpha 2 and strength
    1/2. *)
Definition q_checkpoint2 : odict (CTensor Q) :=
  [((to_q ++ ".lora_down.weight")%string, ct [4; 320] (1 # 160));
   ((to_q ++ ".lora_up.weight")%string, ct [320; 4] (1 # 2));
   ((to_q ++ ".alpha")%string, ct [] 2%Q)].

Definition q_adapter2 : QLoRA :=
  fst (load_from_dict q_wrapper (LoRA_init "detail" tt tt (1 # 2))
                      q_checkpoint2).

(** With strength 0.8 and scale 1 the hooked projection returns the base
    output plus [0.8 * 1.0 * up(down(x))]: here 10 + 4/5. *)
Lemma lora_layer_contribution_witness :
  lora_forward q_active to_q [q_input] q_output = Ok (ct [1; 320] (54 # 5)).
Proof.
  refine (eq_trans
            (proj2 (@lora_layer_contribution _ _ _ _ QTorch q_active to_q
                      [] [] q_adapter q_delta q_input (ct [1; 4] 1%Q)
                      (ct [1; 320] 1%Q) q_output _ _ _ _ _)
                   eq_refl eq_refl) _).
  - discriminate.
  - vm_compute; reflexivity.
  - vm_compute; reflexivity.
  - vm_compute; reflexivity.
  - vm_compute; reflexivity.
  - vm_compute; reflexivity.
Defined.

(** The active adapter has no delta for the text-encoder projection, whose
    hook returns its output unchanged. *)
Lemma hook_identity_witness :
  lora_forward q_active "lora_te_mlp_fc1" [q_input] q_output = Ok q_output.
Proof.
  apply (@hook_identity _ _ _ _ QTorch q_active "lora_te_mlp_fc1"
                        [q_input] q_output).
  right. intros lora [Heq | []]. rewrite <- Heq. vm_compute; reflexivity.
Defined.

Lemma q_adapter_contributes : contributes q_adapter to_q [q_input].
Proof.
  intros layer Hl. vm_compute in Hl.
  injection Hl as Hl. rewrite <- Hl.
  eexists. vm_compute. reflexivity.
Qed.

Lemma q_adapter2_contributes : contributes q_adapter2 to_q [q_input].
Proof.
  intros layer Hl. vm_compute in Hl.
  injection Hl as Hl. rewrite <- Hl.
  eexists. vm_compute. reflexivity.
Qed.

(** *** Activation order with floating-point tensors *)

Definition f_wrapper0 : FWrapper :=
  LoRAModuleWrapper_init
    (small_unet 0%float 1 1 2%float None)
    (small_text_encoder 0%float 1 1 1%float None).

(** A checkpoint for a one-by-one projection: [down] is the identity and
    [up] multiplies by [u]; without alpha the scale is 1.0. *)
Definition f_checkpoint (u : float) : odict (CTensor float) :=
  [((to_q ++ ".lora_down.weight")%string, ct [1; 1] 1%float);
   ((to_q ++ ".lora_up.weight")%string, ct [1; 1] u)].

Definition f_adapter (n : string) (u : float) : FLoRA :=
  fst (load_from_dict f_wrapper0 (LoRA_init n tt tt 1%float)
                      (f_checkpoint u)).

(** 2^60 and its opposite are values of [float32] and of [float64] alike:
    the copy into a fresh sub-layer keeps them, whatever the default dtype
    is. *)
Definition two_60 : float := 1152921504606846976%float.

Definition f_big : FLoRA := f_adapter "big" (- two_60)%float.
Definition f_small : FLoRA := f_adapter "small" 1%float.
Definition f_two : FLoRA := f_adapter "two" 2%float.

Definition f_wrapper : FWrapper :=
  set_loaded f_wrapper0 [("big", f_big); ("small", f_small); ("two", f_two)].

Definition f_input : CTensor float := ct [1; 1] 1%float.
Definition f_output : CTensor float := ct [1; 1] two_60.

(** With base output 4 and contributions 2 and 1 the two sums are 7 in
    [float64], and so are the outputs of the hook for the two orders.  Over
    exact rationals the two orders of the two adapters of the end-to-end
    scenario give the same output. *)
Lemma activation_order_effect_witness :
  (lora_forward
     (set_applied f_wrapper
        (od_set (od_set (applied_loras f_wrapper) "two" f_two)
                "small" f_small))
     to_q [f_input] (ct [1; 1] 4%float) = Ok (ct [1; 1] 7%float) /\
   lora_forward
     (set_applied f_wrapper
        (od_set (od_set (applied_loras f_wrapper) "small" f_small)
                "two" f_two))
     to_q [f_input] (ct [1; 1] 4%float) = Ok (ct [1; 1] 7%float)) /\
  lora_forward
    (set_applied q_active
       (od_set (od_set (applied_loras q_active) "a" q_adapter)
               "b" q_adapter2))
    to_q [q_input] q_output =
  lora_forward
    (set_applied q_active
       (od_set (od_set (applied_loras q_active) "b" q_adapter2)
               "a" q_adapter))
    to_q [q_input] q_output.
Proof.
  split.
  - destruct (@activation_order_effect _ _ _ _ FloatTorch f_wrapper to_q
                "two" "small" f_two f_small [f_input] (ct [1; 1] 4%float))
      as (_ & Hsums & _); [ discriminate | ].
    apply (Hsums
             (LoRA_layer
                (Build_LoRALayer "two" to_q 1%float
                   (SubLinear 1 1 (ct [1; 1] 2%float)) None
                   (SubLinear 1 1 (ct [1; 1] 1%float))))
             (LoRA_layer
                (Build_LoRALayer "small" to_q 1%float
                   (SubLinear 1 1 (ct [1; 1] 1%float)) None
                   (SubLinear 1 1 (ct [1; 1] 1%float))))
             (ct [1; 1] 2%float) (ct [1; 1] 1%float) (ct [1; 1] 4%float));
      try (vm_compute; reflexivity).
    discriminate.
  - destruct (@activation_order_effect _ _ _ _ QTorch q_active to_q
                "a" "b" q_adapter q_adapter2 [q_input] q_output)
      as (_ & _ & Hlaw); [ discriminate | ].
    apply Hlaw.
    + exact QTorch_accumulation_law.
    + exact q_adapter_contributes.
    + exact q_adapter2_contributes.
Defined.

(** C9, counterexample.  On a [float64] projection with base output 2^60,
    one adapter contributes -2^60 and the other 1.0.  Activated in this
    order the hook returns (2^60 - 2^60) + 1 = 1.0; in the other order it
    returns (2^60 + 1) - 2^60 = 0.0, because 2^60 + 1 rounds to 2^60. *)
Lemma activation_order_float_counterexample :
  lora_forward
    (set_applied f_wrapper
       (od_set (od_set (applied_loras f_wrapper) "big" f_big)
               "small" f_small))
    to_q [f_input] f_output = Ok (ct [1; 1] 1%float)
  /\
  lora_forward
    (set_applied f_wrapper
       (od_set (od_set (applied_loras f_wrapper) "small" f_small)
               "big" f_big))
    to_q [f_input] f_output = Ok (ct [1; 1] 0%float)
  /\
  lora_forward
    (set_applied f_wrapper
       (od_set (od_set (applied_loras f_wrapper) "big" f_big)
               "small" f_small))
    to_q [f_input] f_output <>
  lora_forward
    (set_applied f_wrapper
       (od_set (od_set (applied_loras f_wrapper) "small" f_small)
               "big" f_big))
    to_q [f_input] f_output.
Proof.
  split; [ vm_compute; reflexivity | ].
  split; [ vm_compute; reflexivity | ].
  intro H.
  apply (f_equal (fun r : result (CTensor float) =>
                    match r with
                    | Ok t => PrimFloat.eqb (c_val t) 1%float
                    | Raise _ => false
                    end)) in H.
  vm_compute in H. discriminate H.
Qed.

(** The accumulation law is one of exact arithmetic: [float64] addition
    does not satisfy it. *)
Lemma FloatTorch_accumulation_law_fails :
  ~ accumulation_law (T := FloatTorch).
Proof.
  intro H.
  specialize (H (ct [1; 1] two_60) (ct [1; 1] (- two_60)%float)
                (ct [1; 1] 1%float)).
  apply (f_equal (fun r : result (CTensor float) =>
                    match r with
                    | Ok t => PrimFloat.eqb (c_val t) 1%float
                    | Raise _ => false
                    end)) in H.
  vm_compute in H. discriminate H.
Qed.

(** *** A Hadamard delta on a linear layer *)

(** A projection from 2 to 3 features with weight entries 2 and bias
    entries 3. *)
Definition h_wrapper : QWrapper :=
  LoRAModuleWrapper_init
    (small_unet 0%Q 2 3 2%Q (Some 3%Q))
    (small_text_encoder 0%Q 4 4 1%Q None).

(** A rank-1 Hadamard checkpoint for it whose weight delta has entries
    1/2. *)
Definition h_checkpoint : odict (CTensor Q) :=
  [((to_q ++ ".hada_w1_a")%string, ct [3; 1] 1%Q);
   ((to_q ++ ".hada_w1_b")%string, ct [1; 2] 1%Q);
   ((to_q ++ ".hada_w2_a")%string, ct [3; 1] (1 # 2));
   ((to_q ++ ".hada_w2_b")%string, ct [1; 2] 1%Q)].

Definition h_adapter : QLoRA :=
  fst (load_from_dict h_wrapper (LoRA_init "hada" tt tt 1%Q) h_checkpoint).

Definition h_active : QWrapper :=
  set_applied (set_loaded h_wrapper [("hada", h_adapter)])
              [("hada", h_adapter)].

(** The Hadamard delta parsed from the checkpoint. *)
Definition h_delta : @LoHALayer Q (CTensor Q) :=
  Build_LoHALayer "hada" to_q 1%Q
    (ct [3; 1] 1%Q) (ct [1; 2] 1%Q) (ct [3; 1] (1 # 2)) (ct [1; 2] 1%Q)
    None None (linear_layer 6 2 3 2%Q (Some 3%Q)).

(** The input has entries 1, so the projection outputs 2 * (1 * 2) + 3 = 7. *)
Definition h_input : CTensor Q := ct [1; 2] 1%Q.
Definition h_output : CTensor Q := ct [1; 3] 7%Q.

(** C2, at the failing input.  The delta alone contributes 2 * (1 * 1/2) = 1,
    so the specification gives 7 + 1 = 8.  The code applies the original
    weight plus the delta, and the bias: it adds 2 * (1 * 5/2) + 3 = 8 and
    the hook returns 15. *)
Theorem loha_forward_applies_original_layer :
  od_get (layers h_adapter) to_q = Some (LoHA_layer h_delta) /\
  linear h_input (weight (mod_attrs (org_module h_delta)))
         (bias (mod_attrs (org_module h_delta))) = Ok h_output /\
  LoHALayer_diff_weight h_delta = Ok (ct [3; 2] (1 # 2)) /\
  LoHALayer_forward_spec h_delta 1%Q [h_input] h_output =
    Ok (ct [1; 3] 8%Q) /\
  LoHALayer_forward h_delta 1%Q [h_input] h_output = Ok (ct [1; 3] 15%Q) /\
  lora_forward h_active to_q [h_input] h_output = Ok (ct [1; 3] 15%Q).
Proof.
  repeat split; vm_compute; reflexivity.
Qed.

(** ** Parsing examples *)

(** A UNet whose transformer block has two projections, [to_q] and [to_k],
    both 320 wide. *)
Definition to_k : string := "lora_unet_down_blocks_0_attentions_0_to_k".
Definition fc1 : string := "lora_te_mlp_fc1".

Definition two_projection_unet : @Module (CTensor Q) :=
  container 0%Q 1 "UNet2DConditionModel"
    [("down_blocks", container 0%Q 2 "ModuleList"
       [("0", container 0%Q 3 "CrossAttnDownBlock2D"
          [("attentions", container 0%Q 4 "ModuleList"
             [("0", container 0%Q 5 "Transformer2DModel"
                [("to_q", linear_layer 6 320 320 (1 # 320) None);
                 ("to_k", linear_layer 7 320 320 (1 # 320) None)])])])])].

Definition p_wrapper : QWrapper :=
  LoRAModuleWrapper_init two_projection_unet
                         (small_text_encoder 0%Q 4 4 1%Q None).

Definition p_fresh : QLoRA := LoRA_init "style" tt tt 1%Q.

Definition low_rank_leaves (stem : string) (in_f out_f r : nat)
  : odict (CTensor Q) :=
  [((stem ++ ".lora_down.weight")%string, ct [r; in_f] (1 # 8));
   ((stem ++ ".lora_up.weight")%string, ct [out_f; r] (1 # 4))].

(** A delta for [to_q], a group of unknown format for the text-encoder
    projection, and a delta for [to_k] after it. *)
Definition p_unknown_format : odict (CTensor Q) :=
  low_rank_leaves to_q 320 320 4
  ++ [((fc1 ++ ".diff")%string, ct [4; 4] 1%Q)]
  ++ low_rank_leaves to_k 320 320 4.

Definition p_groups_before : list (string * odict (CTensor Q)) :=
  [(to_q, [("lora_down.weight", ct [4; 320] (1 # 8));
           ("lora_up.weight", ct [320; 4] (1 # 4))])].

Definition p_groups_after : list (string * odict (CTensor Q)) :=
  [(to_k, [("lora_down.weight", ct [4; 320] (1 # 8));
           ("lora_up.weight", ct [320; 4] (1 # 4))])].

(** The adapter after the group of [to_q]. *)
Definition p_partial : QLoRA :=
  fst (build_layers p_wrapper
         (g_self (group_keys p_fresh [] false p_unknown_format))
         p_groups_before).

(** Parsing stops at the unknown group: [to_q] has its delta and [to_k],
    which comes later, has none. *)
Lemma unknown_format_aborts_witness :
  snd (load_from_dict p_wrapper p_fresh p_unknown_format) = Aborted /\
  od_keys (layers (fst (load_from_dict p_wrapper p_fresh p_unknown_format)))
    = [to_q] /\
  od_get (layers (fst (load_from_dict p_wrapper p_fresh p_unknown_format)))
         to_k = None.
Proof.
  destruct (@unknown_format_aborts _ _ _ _ QTorch p_wrapper p_fresh p_partial
              p_unknown_format p_groups_before p_groups_after fc1
              [("diff", ct [4; 4] 1%Q)]
              (linear_layer 103 4 4 1%Q None))
    as [Hload Hlater]; try (vm_compute; reflexivity).
  rewrite Hload. split; [ reflexivity | ]. split.
  - vm_compute. reflexivity.
  - apply (Hlater to_k). left. reflexivity.
Defined.

(** A group for [to_q] with a down weight and no up weight. *)
Definition p_missing_up : odict (CTensor Q) :=
  [((fc1 ++ ".lora_down.weight")%string, ct [4; 4] 1%Q);
   ((fc1 ++ ".lora_up.weight")%string, ct [4; 4] 1%Q);
   ((to_q ++ ".lora_down.weight")%string, ct [4; 320] (1 # 8))].

Definition p_after_fc1 : QLoRA :=
  fst (build_layers p_wrapper
         (g_self (group_keys p_fresh [] false p_missing_up))
         [(fc1, [("lora_down.weight", ct [4; 4] 1%Q);
                 ("lora_up.weight", ct [4; 4] 1%Q)])]).

Lemma missing_up_weight_raises_witness :
  load_from_dict p_wrapper p_fresh p_missing_up
    = (p_after_fc1, Raised (KeyError "lora_up.weight")).
Proof.
  apply (@missing_up_weight_raises _ _ _ _ QTorch p_wrapper p_fresh
           p_after_fc1 p_missing_up
           [(fc1, [("lora_down.weight", ct [4; 4] 1%Q);
                   ("lora_up.weight", ct [4; 4] 1%Q)])]
           [] to_q [("lora_down.weight", ct [4; 320] (1 # 8))]
           (linear_layer 6 320 320 (1 # 320) None));
    vm_compute; reflexivity.
Defined.

(** A well-formed low-rank mapping: deltas for [to_q] (with alpha) and
    [to_k], a stem the registry does not know and a stem with neither
    tracked prefix. *)
Definition p_well_formed : odict (CTensor Q) :=
  low_rank_leaves to_q 320 320 4
  ++ [((to_q ++ ".alpha")%string, ct [] 8%Q)]
  ++ low_rank_leaves "lora_unet_mid_block_to_v" 320 320 4
  ++ low_rank_leaves "text_model_fc2" 4 4 4
  ++ low_rank_leaves to_k 320 320 4.

Lemma p_well_formed_groups_ok :
  forall stem values wrapped,
    In (stem, values)
       (g_groups (group_keys p_fresh [] false p_well_formed)) ->
    resolve p_wrapper stem = Some (Some wrapped) ->
    lowrank_group_ok wrapped values.
Proof.
  intros stem values wrapped Hin Hres. vm_compute in Hin.
  destruct Hin as [E | [E | [E | [E | []]]]];
    injection E as <- <-; vm_compute in Hres;
    try discriminate Hres; injection Hres as <-.
  - exists (ct [4; 320] (1 # 8)), (ct [320; 4] (1 # 4)), 4, 320, 320, 4,
           (Some 8%Q).
    repeat split; try (vm_compute; reflexivity);
      eexists; vm_compute; reflexivity.
  - exists (ct [4; 320] (1 # 8)), (ct [320; 4] (1 # 4)), 4, 320, 320, 4,
           None.
    repeat split; try (vm_compute; reflexivity);
      eexists; vm_compute; reflexivity.
Qed.

(** Parsing it runs to the end; the deltas are those of [to_q] and [to_k]. *)
Lemma wellformed_lowrank_parse_witness :
  exists self' : QLoRA,
    load_from_dict p_wrapper p_fresh p_well_formed = (self', Finished) /\
    od_keys (layers self') = [to_q; to_k].
Proof.
  destruct (@wellformed_lowrank_parse _ _ _ _ QTorch p_wrapper p_fresh
              p_well_formed eq_refl)
    as (self' & Hload & Hkeys & _).
  - vm_compute. reflexivity.
  - exact p_well_formed_groups_ok.
  - exists self'. split; [ exact Hload | ].
    rewrite Hkeys. vm_compute. reflexivity.
Defined.

(** *** Scales *)

(** C5, counterexample.  The first alpha leaf, 8, becomes the adapter-wide
    alpha and the adapter-wide rank is 4.  The group of [to_k] has no alpha
    leaf of its own: its delta gets scale 1.0, not 8 / 4. *)
Lemma adapter_alpha_not_applied_counterexample :
  let self' := fst (load_from_dict p_wrapper p_fresh p_well_formed) in
  alpha self' = Some 8%Q /\
  rank self' = Some 4 /\
  od_get (g_groups (group_keys p_fresh [] false p_well_formed)) to_k
    = Some [("lora_down.weight", ct [4; 320] (1 # 8));
            ("lora_up.weight", ct [320; 4] (1 # 4))] /\
  option_map layer_scale (od_get (layers self') to_k) = Some 1%Q /\
  scale_of (T := QTorch) (rank self') (alpha self') = 2%Q.
Proof.
  repeat split; vm_compute; reflexivity.
Qed.

(** The delta of [to_q] is scaled with the alpha of its own group, and that
    of [to_k], whose group has none, has scale 1. *)
Lemma scale_uses_group_alpha_witness :
  option_map layer_scale
    (od_get (layers (fst (load_from_dict p_wrapper p_fresh p_well_formed)))
            to_k) = Some 1%Q.
Proof.
  destruct (@scale_uses_group_alpha _ _ _ _ QTorch p_wrapper p_fresh
              (fst (load_from_dict p_wrapper p_fresh p_well_formed))
              p_well_formed Finished eq_refl) as [Hscale _].
  - vm_compute. reflexivity.
  - destruct (od_get (layers (fst (load_from_dict p_wrapper p_fresh
                                                  p_well_formed))) to_k)
      as [l | ] eqn:Hl.
    + destruct (Hscale to_k l Hl) as (values & Hv & _ & Hone).
      simpl. f_equal. apply Hone.
      vm_compute in Hv. injection Hv as <-. reflexivity.
    + vm_compute in Hl. discriminate Hl.
Defined.

(** *** The manager *)

Definition p_manager : @KohyaLoraManager Q (CTensor Q) unit unit :=
  {| lora_path := "loras"; wrapper := p_wrapper; mgr_device := tt;
     mgr_dtype := tt; loras_to_load := [] |}.

Definition p_path : Path :=
  {| posix := "loras/style.safetensors"; suffix := ".safetensors" |}.

(** A file system whose only checkpoint is the one with the group of
    unknown format. *)
Definition p_io : @FileIO (CTensor Q) :=
  {| load_file := fun _ => Ok p_unknown_format;
     torch_load := fun _ => Raise RuntimeError;
     exists_ := fun _ => true |}.

(** C4, counterexample.  The parse of the checkpoint returns early at the
    group of unknown format, and after [load_lora_module] the loaded
    mapping has an entry for the name: the adapter with the one delta built
    before the abort. *)
Lemma aborted_adapter_stored_counterexample :
  snd (load_from_dict (wrapper p_manager) (LoRA_init "style" tt tt 1%Q)
                      p_unknown_format) = Aborted /\
  od_mem (loaded_loras
            (wrapper (fst (load_lora_module p_io p_manager "style" p_path
                                            1%Q))))
         "style" = true /\
  option_map (fun l : QLoRA => od_keys (layers l))
    (od_get (loaded_loras
               (wrapper (fst (load_lora_module p_io p_manager "style" p_path
                                               1%Q))))
            "style") = Some [to_q].
Proof.
  repeat split; vm_compute; reflexivity.
Qed.

Lemma aborted_adapter_is_stored_witness :
  od_get (loaded_loras
            (wrapper (fst (load_lora_module p_io p_manager "style" p_path
                                            1%Q))))
         "style" = Some p_partial.
Proof.
  apply (@aborted_adapter_is_stored _ _ _ _ QTorch p_io p_manager "style"
           p_path 1%Q p_unknown_format p_partial);
    vm_compute; reflexivity.
Defined.

(** ** Discovery examples *)

(** A transformer block that contains an attention block, both on the
    allow-list of the UNet, as in the UNets whose attention class is called
    [Attention]. *)
Definition nested_unet : @Module (CTensor Q) :=
  container 0%Q 1 "UNet2DConditionModel"
    [("block", container 0%Q 2 "Transformer2DModel"
       [("attn1", container 0%Q 3 "Attention"
          [("to_q", linear_layer 4 320 320 (1 # 320) None)])])].

(** A transformer block with the projections [to_out.0] and [to_out_0]. *)
Definition colliding_unet : @Module (CTensor Q) :=
  container 0%Q 1 "UNet2DConditionModel"
    [("block", container 0%Q 2 "Transformer2DModel"
       [("to_out", container 0%Q 3 "ModuleList"
          [("0", linear_layer 4 320 320 (1 # 320) None)]);
        ("to_out_0", linear_layer 5 320 320 (1 # 2) None)])].

Definition no_text_encoder : @Module (CTensor Q) :=
  container 0%Q 101 "CLIPTextModel" [].

Definition nested_wrapper : QWrapper :=
  LoRAModuleWrapper_init nested_unet no_text_encoder.
Definition colliding_wrapper : QWrapper :=
  LoRAModuleWrapper_init colliding_unet no_text_encoder.

(** Two transformer blocks that register one and the same projection
    object, as with tied weights. *)
Definition shared_unet : @Module (CTensor Q) :=
  container 0%Q 1 "UNet2DConditionModel"
    [("block_a", container 0%Q 2 "Transformer2DModel"
       [("proj", linear_layer 4 320 320 (1 # 320) None)]);
     ("block_b", container 0%Q 3 "Transformer2DModel"
       [("proj", linear_layer 4 320 320 (1 # 320) None)])].

Definition shared_wrapper : QWrapper :=
  LoRAModuleWrapper_init shared_unet no_text_encoder.

(** C6, counterexample.  The projection inside the nested blocks is visited
    from each of them and gets two hooks under one identifier.  The two
    projections [to_out.0] and [to_out_0] are different sub-layers with the
    same identifier, of which the mapping keeps the second.  And the
    projection object that two blocks share gets a hook from each block,
    under two identifiers. *)
Lemma discovery_counterexample :
  hooks nested_wrapper
    = [ {| hook_net := UNet; hook_module := [0; 0; 0];
           hook_name := "lora_unet_block_attn1_to_q" |};
        {| hook_net := UNet; hook_module := [0; 0; 0];
           hook_name := "lora_unet_block_attn1_to_q" |} ] /\
  ~ NoDup (map (hooked_object nested_unet no_text_encoder)
               (hooks nested_wrapper)) /\
  hooks colliding_wrapper
    = [ {| hook_net := UNet; hook_module := [0; 0; 0];
           hook_name := "lora_unet_block_to_out_0" |};
        {| hook_net := UNet; hook_module := [0; 1];
           hook_name := "lora_unet_block_to_out_0" |} ] /\
  od_keys (unet_modules colliding_wrapper) = ["lora_unet_block_to_out_0"] /\
  ~ NoDup (map hook_name (hooks colliding_wrapper)) /\
  hooks shared_wrapper
    = [ {| hook_net := UNet; hook_module := [0; 0];
           hook_name := "lora_unet_block_a_proj" |};
        {| hook_net := UNet; hook_module := [1; 0];
           hook_name := "lora_unet_block_b_proj" |} ] /\
  map (hooked_object shared_unet no_text_encoder) (hooks shared_wrapper)
    = [Some 4; Some 4] /\
  ~ NoDup (map (hooked_object shared_unet no_text_encoder)
               (hooks shared_wrapper)).
Proof.
  split; [ vm_compute; reflexivity | ].
  split.
  { vm_compute. intro H. inversion H as [ | ? ? Hnot _ ]. apply Hnot.
    left. reflexivity. }
  split; [ vm_compute; reflexivity | ].
  split; [ vm_compute; reflexivity | ].
  split.
  { vm_compute. intro H. inversion H as [ | ? ? Hnot _ ]. apply Hnot.
    left. reflexivity. }
  split; [ vm_compute; reflexivity | ].
  split; [ vm_compute; reflexivity | ].
  vm_compute. intro H. inversion H as [ | ? ? Hnot _ ]. apply Hnot.
  left. reflexivity.
Qed.

(** Checking the two side conditions on a concrete network. *)
Ltac enumerate H :=
  vm_compute in H;
  repeat match type of H with
         | _ \/ _ => destruct H as [H | H]
         | False => contradiction
         end.

Lemma two_projection_unet_not_nested :
  no_nested_targets UNET_TARGET_REPLACE_MODULE two_projection_unet.
Proof.
  intros e He Ht d Hd Hne.
  enumerate He; subst e; try discriminate Ht;
    enumerate Hd; subst d; try reflexivity;
    exfalso; apply Hne; reflexivity.
Qed.

Lemma small_text_encoder_not_nested :
  no_nested_targets TEXT_ENCODER_TARGET_REPLACE_MODULE
                    (small_text_encoder 0%Q 4 4 1%Q None).
Proof.
  intros e He Ht d Hd Hne.
  enumerate He; subst e; try discriminate Ht;
    enumerate Hd; subst d; try reflexivity;
    exfalso; apply Hne; reflexivity.
Qed.

Lemma two_projection_unet_injective :
  flattening_injective LORA_PREFIX_UNET two_projection_unet
                       UNET_TARGET_REPLACE_MODULE.
Proof.
  intros v1 v2 H1 H2 E.
  enumerate H1; subst v1; enumerate H2; subst v2;
    try reflexivity; vm_compute in E; discriminate E.
Qed.

Lemma small_text_encoder_injective :
  flattening_injective LORA_PREFIX_TEXT_ENCODER
                       (small_text_encoder 0%Q 4 4 1%Q None)
                       TEXT_ENCODER_TARGET_REPLACE_MODULE.
Proof.
  intros v1 v2 H1 H2 E.
  enumerate H1; subst v1; enumerate H2; subst v2;
    try reflexivity; vm_compute in E; discriminate E.
Qed.

(** In the registry of the two-projection UNet each of the three
    sub-layers has one hook and its own identifier. *)
Lemma discovery_hooks_once_witness :
  map (hooked_object two_projection_unet
                     (small_text_encoder 0%Q 4 4 1%Q None))
      (hooks p_wrapper) = [Some 103; Some 6; Some 7] /\
  NoDup (map (hooked_object two_projection_unet
                            (small_text_encoder 0%Q 4 4 1%Q None))
             (hooks p_wrapper)) /\
  map hook_name (hooks p_wrapper) = [fc1; to_q; to_k] /\
  NoDup (map hook_name (hooks p_wrapper)).
Proof.
  destruct (@discovery_hooks_once Q (CTensor Q) unit unit
              two_projection_unet
              (small_text_encoder 0%Q 4 4 1%Q None))
    as (_ & _ & Honce).
  destruct (Honce small_text_encoder_not_nested
                  two_projection_unet_not_nested) as (Hobj & Hnames).
  - vm_compute.
    repeat (constructor; [ simpl; intuition discriminate | ]).
    constructor.
  - split; [ vm_compute; reflexivity | ].
    split; [ exact Hobj | ].
    split; [ vm_compute; reflexivity | ].
    exact (Hnames small_text_encoder_injective
                  two_projection_unet_injective).
Defined.

(** ** Further parsing examples *)

Ltac nodup_strings :=
  vm_compute;
  repeat (constructor; [ simpl; intuition discriminate | ]);
  constructor.

(** The alpha leaf of [to_q], which the state mapping holds once, is in the
    group of [to_q] after the first loop. *)
Lemma grouping_keeps_every_tensor_witness :
  exists stem leaf,
    (to_q ++ ".alpha")%string = (stem ++ "." ++ leaf)%string /\
    split_first_dot (to_q ++ ".alpha") = (stem, Some leaf) /\
    lookup_leaf (g_groups (group_keys p_fresh [] false p_well_formed))
                stem leaf = Some (ct [] 8%Q).
Proof.
  apply (@grouping_keeps_every_tensor _ _ _ _ QTorch p_fresh p_well_formed
           (to_q ++ ".alpha")%string (ct [] 8%Q)).
  - nodup_strings.
  - vm_compute. reflexivity.
  - vm_compute. tauto.
Defined.

(** A training-step counter stored beside the weights, under a key without
    a dot. *)
Definition p_no_dot : odict (CTensor Q) :=
  low_rank_leaves to_q 320 320 4 ++ [("step", ct [] 1000%Q)].

Lemma key_without_dot_raises_witness :
  exists e,
    snd (load_from_dict p_wrapper p_fresh p_no_dot) = Raised e /\
    layers (fst (load_from_dict p_wrapper p_fresh p_no_dot)) = layers p_fresh /\
    (e = ValueError \/
     exists k v, In (k, v) p_no_dot /\ item v = Raise e).
Proof.
  apply (@key_without_dot_raises _ _ _ _ QTorch p_wrapper p_fresh p_no_dot
           "step" (ct [] 1000%Q)).
  - vm_compute. tauto.
  - reflexivity.
Defined.

(** Two alpha leaves, 8 for [to_q] and then 2 for [to_k]: the adapter-wide
    alpha is the first. *)
Lemma first_alpha_leaf_wins_witness :
  alpha (fst (load_from_dict p_wrapper p_fresh
                (low_rank_leaves to_q 320 320 4
                 ++ ((to_q ++ ".alpha")%string, ct [] 8%Q)
                    :: [((to_k ++ ".alpha")%string, ct [] 2%Q)])))
  = Some 8%Q.
Proof.
  apply (@first_alpha_leaf_wins _ _ _ _ QTorch p_wrapper p_fresh
           (low_rank_leaves to_q 320 320 4)
           [((to_k ++ ".alpha")%string, ct [] 2%Q)]
           (to_q ++ ".alpha")%string to_q "alpha" (ct [] 8%Q) 8%Q);
    vm_compute; reflexivity.
Defined.

(** Down weights of rank 4 for [to_q] and then of rank 8 for [to_k]: the
    adapter-wide rank is 4. *)
Lemma first_down_weight_sets_rank_witness :
  rank (fst (load_from_dict p_wrapper p_fresh
               ([] ++ ((to_q ++ ".lora_down.weight")%string,
                       ct [4; 320] (1 # 8))
                   :: low_rank_leaves to_k 320 320 8)))
  = Some 4.
Proof.
  apply (@first_down_weight_sets_rank _ _ _ _ QTorch p_wrapper p_fresh
           [] (low_rank_leaves to_k 320 320 8)
           (to_q ++ ".lora_down.weight")%string to_q
           (ct [4; 320] (1 # 8)) 4 320);
    vm_compute; reflexivity.
Defined.

(** The delta parsed in the end-to-end scenario is attached to the
    projection the registry knows as [to_q]. *)
Lemma parsed_deltas_fit_registered_layers_witness :
  attached q_wrapper "style" to_q (LoRA_layer q_delta) /\
  exists key value,
    In (key, value) q_checkpoint /\ fst (split_first_dot key) = to_q.
Proof.
  apply (@parsed_deltas_fit_registered_layers _ _ _ _ QTorch q_wrapper
           (LoRA_init "style" tt tt (4 # 5)) q_checkpoint to_q
           (LoRA_layer q_delta)).
  - reflexivity.
  - vm_compute. left. reflexivity.
Defined.

(** A UNet whose projection is of a class that another library calls
    "Linear". *)
Definition lookalike_unet : @Module (CTensor Q) :=
  container 0%Q 1 "UNet2DConditionModel"
    [("down_blocks", container 0%Q 2 "ModuleList"
       [("0", container 0%Q 3 "CrossAttnDownBlock2D"
          [("attentions", container 0%Q 4 "ModuleList"
             [("0", container 0%Q 5 "Transformer2DModel"
                [("to_q",
                  Mod 6 (OtherClass "Linear")
                      (Build_LayerAttrs (0, 0) (0, 0) (0, 0) (0, 0) 0
                         (ct [320; 320] (1 # 320)) None) [])])])])])].

Definition lookalike_wrapper : QWrapper :=
  LoRAModuleWrapper_init lookalike_unet no_text_encoder.

(** The projection is registered, and a low-rank group for it ends the
    parse. *)
Lemma lookalike_layer_class_aborts_witness :
  od_mem (unet_modules lookalike_wrapper) to_q = true /\
  snd (load_from_dict lookalike_wrapper p_fresh
                      (low_rank_leaves to_q 320 320 4)) = Aborted.
Proof.
  split; [ vm_compute; reflexivity | ].
  apply (f_equal snd
           (@lookalike_layer_class_aborts _ _ _ _ QTorch lookalike_wrapper
              p_fresh
              (g_self (group_keys p_fresh [] false
                         (low_rank_leaves to_q 320 320 4)))
              (low_rank_leaves to_q 320 320 4) []
              [] to_q
              [("lora_down.weight", ct [4; 320] (1 # 8));
               ("lora_up.weight", ct [320; 4] (1 # 4))]
              (Mod 6 (OtherClass "Linear")
                   (Build_LayerAttrs (0, 0) (0, 0) (0, 0) (0, 0) 0
                      (ct [320; 320] (1 # 320)) None) [])
              (ct [4; 320] (1 # 8)) (ct [320; 4] (1 # 4))
              eq_refl eq_refl eq_refl eq_refl eq_refl eq_refl eq_refl
              eq_refl)).
Defined.

(** A UNet with a 3x3 convolution inside a residual block. *)
Definition conv1 : string := "lora_unet_down_blocks_0_resnets_0_conv1".

Definition conv_unet : @Module (CTensor Q) :=
  container 0%Q 1 "UNet2DConditionModel"
    [("down_blocks", container 0%Q 2 "ModuleList"
       [("0", container 0%Q 3 "DownBlock2D"
          [("resnets", container 0%Q 4 "ModuleList"
             [("0", container 0%Q 5 "ResnetBlock2D"
                [("conv1",
                  Mod 6 TorchConv2d
                      (Build_LayerAttrs (3, 3) (1, 1) (1, 1) (1, 1) 1
                         (ct [4; 4; 3; 3] (1 # 36)) None) [])])])])])].

Definition conv_wrapper : QWrapper :=
  LoRAModuleWrapper_init conv_unet no_text_encoder.

(** The four Hadamard factors for the convolution, without the cores. *)
Definition hada_factors : odict (CTensor Q) :=
  [((conv1 ++ ".hada_w1_a")%string, ct [4; 2] 1%Q);
   ((conv1 ++ ".hada_w1_b")%string, ct [2; 36] 1%Q);
   ((conv1 ++ ".hada_w2_a")%string, ct [4; 2] 1%Q);
   ((conv1 ++ ".hada_w2_b")%string, ct [2; 36] 1%Q)].

Lemma hadamard_conv_without_core_raises_witness :
  snd (load_from_dict conv_wrapper p_fresh hada_factors)
  = Raised (KeyError "hada_t1").
Proof.
  apply (f_equal snd
           (@hadamard_conv_without_core_raises _ _ _ _ QTorch conv_wrapper
              p_fresh
              (g_self (group_keys p_fresh [] false hada_factors))
              hada_factors [] [] conv1
              [("hada_w1_a", ct [4; 2] 1%Q);
               ("hada_w1_b", ct [2; 36] 1%Q);
               ("hada_w2_a", ct [4; 2] 1%Q);
               ("hada_w2_b", ct [2; 36] 1%Q)]
              (Mod 6 TorchConv2d
                   (Build_LayerAttrs (3, 3) (1, 1) (1, 1) (1, 1) 1
                      (ct [4; 4; 3; 3] (1 # 36)) None) [])
              (ct [4; 2] 1%Q) (ct [2; 36] 1%Q)
              (ct [4; 2] 1%Q) (ct [2; 36] 1%Q) 2 None
              eq_refl eq_refl eq_refl eq_refl eq_refl eq_refl eq_refl
              eq_refl eq_refl eq_refl eq_refl eq_refl eq_refl eq_refl)).
Defined.

(** A low-rank adapter for the convolution only: its down weight has four
    dimensions and its alpha leaf says 2 for a rank of 4. *)
Definition conv_lowrank : odict (CTensor Q) :=
  [((conv1 ++ ".lora_down.weight")%string, ct [4; 4; 3; 3] (1 # 8));
   ((conv1 ++ ".lora_up.weight")%string, ct [4; 4; 1; 1] (1 # 4));
   ((conv1 ++ ".alpha")%string, ct [] 2%Q)].

Lemma no_linear_down_weight_unit_scale_witness :
  rank (fst (load_from_dict conv_wrapper p_fresh conv_lowrank)) = None /\
  option_map layer_scale
    (od_get (layers (fst (load_from_dict conv_wrapper p_fresh conv_lowrank)))
            conv1) = Some 1%Q.
Proof.
  destruct (@no_linear_down_weight_unit_scale _ _ _ _ QTorch conv_wrapper
              p_fresh conv_lowrank eq_refl eq_refl) as [Hrank Hscale].
  - intros key value stem Hin Hsplit _.
    vm_compute in Hin.
    destruct Hin as [E | [E | [E | []]]]; injection E as <- <-;
      vm_compute in Hsplit; try discriminate Hsplit.
    vm_compute. discriminate.
  - split; [ exact Hrank | ].
    destruct (od_get (layers (fst (load_from_dict conv_wrapper p_fresh
                                                  conv_lowrank))) conv1)
      as [[ll | ll] | ] eqn:Hl.
    + simpl. f_equal. exact (Hscale conv1 ll Hl).
    + vm_compute in Hl. discriminate Hl.
    + vm_compute in Hl. discriminate Hl.
Defined.

(** ** Further discovery examples *)

(** The identifier of the second projection leads back to it. *)
Lemma registered_identifier_round_trip_witness :
  resolve p_wrapper to_k
    = Some (Some (linear_layer 7 320 320 (1 # 320) None)) /\
  split_first_dot (to_k ++ "." ++ "lora_up.weight")
    = (to_k, Some "lora_up.weight"%string).
Proof.
  destruct (@registered_identifier_round_trip Q (CTensor Q) unit unit
              two_projection_unet (small_text_encoder 0%Q 4 4 1%Q None)
              UNet to_k (linear_layer 7 320 320 (1 # 320) None))
    as (Hres & _ & Hsplit & _).
  - vm_compute. tauto.
  - split; [ exact Hres | exact (Hsplit "lora_up.weight"%string) ].
Defined.

(** ** Manager examples *)

(** The suffix of a file name: from its last dot on. *)
Fixpoint suffix_of (s : string) : string :=
  match s with
  | EmptyString => EmptyString
  | String c s' =>
      match suffix_of s' with
      | EmptyString => if Ascii.eqb c dot then s else EmptyString
      | r => r
      end
  end.

Definition p_join (base file : string) : Path :=
  {| posix := (base ++ "/" ++ file)%string; suffix := suffix_of file |}.

(** A directory without files. *)
Definition io_empty : @FileIO (CTensor Q) :=
  {| load_file := fun _ => Raise RuntimeError;
     torch_load := fun _ => Raise RuntimeError;
     exists_ := fun _ => false |}.

(** A directory that has the adapter in all three formats: the well-formed
    checkpoint as a pickle, and another one as safetensors. *)
Definition io_all : @FileIO (CTensor Q) :=
  {| load_file := fun _ => Ok p_unknown_format;
     torch_load := fun _ => Ok p_well_formed;
     exists_ := fun _ => true |}.

(** The same directory with files that cannot be read. *)
Definition io_unreadable : @FileIO (CTensor Q) :=
  {| load_file := fun _ => Raise RuntimeError;
     torch_load := fun _ => Raise RuntimeError;
     exists_ := fun _ => true |}.

Definition QManager : Type := @KohyaLoraManager Q (CTensor Q) unit unit.

(** The manager after [apply_lora_model("style", 1.0)] and then
    [apply_lora_model("detail", 0.5)] in the full directory. *)
Definition m_style : QManager :=
  fst (apply_lora_model io_all p_join p_manager "style" 1%Q).

Definition m_two : QManager :=
  fst (apply_lora_model io_all p_join m_style "detail" (1 # 2)).

Lemma missing_file_changes_nothing_witness :
  apply_lora_model io_empty p_join m_style "style" (1 # 2)
  = (m_style, Ok tt).
Proof.
  apply (@missing_file_changes_nothing _ _ _ _ QTorch io_empty p_join
           m_style "style" (1 # 2)).
  intros sfx _. reflexivity.
Defined.

(** With all three files present the adapter is parsed from the pickle
    [style.ckpt]. *)
Lemma first_existing_suffix_is_loaded_witness :
  apply_lora_model io_all p_join p_manager "style" 1%Q
  = (activate p_manager "style"
       (set_multiplier (fst (parsed p_manager "style" 1%Q p_well_formed))
                       1%Q),
     Ok tt).
Proof.
  refine (proj1 (@first_existing_suffix_is_loaded _ _ _ _ QTorch io_all
                   p_join p_manager "style" 1%Q p_well_formed eq_refl _)
                eq_refl eq_refl).
  intros e H. vm_compute in H. discriminate H.
Defined.

(** Once loaded, the adapter is applied again without a read. *)
Lemma loaded_adapter_is_reused_witness :
  apply_lora_model io_unreadable p_join m_style "style" (1 # 2)
  = apply_lora_model io_all p_join m_style "style" (1 # 2).
Proof.
  refine (proj1 (@loaded_adapter_is_reused _ _ _ _ QTorch io_all
                   io_unreadable p_join m_style "style" (1 # 2)
                   (set_multiplier
                      (fst (parsed p_manager "style" 1%Q p_well_formed))
                      1%Q) _ _)).
  - vm_compute. reflexivity.
  - intro p. reflexivity.
Defined.

(** [style] is unloaded while active, and its file can no longer be read:
    the call raises, and [style] is still active and not loaded. *)
Lemma failed_apply_changes_nothing_witness :
  fst (apply_lora_model io_unreadable p_join (unload_lora m_style "style")
                        "style" 1%Q)
    = unload_lora m_style "style" /\
  od_mem (loaded_loras
            (wrapper (fst (apply_lora_model io_unreadable p_join
                             (unload_lora m_style "style") "style" 1%Q))))
         "style" = false /\
  od_mem (applied_loras
            (wrapper (fst (apply_lora_model io_unreadable p_join
                             (unload_lora m_style "style") "style" 1%Q))))
         "style" = true.
Proof.
  destruct (@failed_apply_changes_nothing _ _ _ _ QTorch io_unreadable p_join
              (unload_lora m_style "style") "style" 1%Q RuntimeError)
    as (Hsame & _ & Hloaded & Happlied).
  - vm_compute. reflexivity.
  - split; [ exact Hsame | ]. split.
    + unfold od_mem. rewrite Hloaded. reflexivity.
    + unfold od_mem. rewrite Happlied. vm_compute. reflexivity.
Defined.

(** [detail] is activated after [style]; applying [style] again keeps it
    first. *)
Lemma applied_adapter_is_active_witness :
  od_keys (applied_loras
             (wrapper (fst (apply_lora_model io_all p_join m_two "style"
                                             (1 # 4)))))
  = ["style"; "detail"]%string.
Proof.
  destruct (@applied_adapter_is_active _ _ _ _ QTorch io_all p_join m_two
              "style" (1 # 4)) as (_ & _ & Horder).
  - exists "ckpt"%string. split; [ left; reflexivity | reflexivity ].
  - vm_compute. reflexivity.
  - rewrite Horder. vm_compute. reflexivity.
Defined.

(** Keeping [detail] and a name that is not active. *)
Lemma unload_applied_loras_keeps_listed_witness :
  od_keys (applied_loras
             (wrapper (unload_applied_loras m_two ["detail"; "sketch"])))
  = ["detail"]%string /\
  od_keys (loaded_loras
             (wrapper (unload_applied_loras m_two ["detail"; "sketch"])))
  = ["style"; "detail"]%string.
Proof.
  destruct (@unload_applied_loras_keeps_listed Q (CTensor Q) unit unit
              m_two ["detail"; "sketch"]%string) as [Ha Hl].
  - nodup_strings.
  - rewrite Ha, Hl. split; vm_compute; reflexivity.
Defined.

Lemma clear_loras_deactivates_all_witness :
  lora_forward (wrapper (clear_loras m_two)) to_q [q_input] q_output
  = Ok q_output.
Proof.
  apply (@clear_loras_deactivates_all _ _ _ _ QTorch m_two to_q [q_input]
           q_output).
  nodup_strings.
Defined.

(** The manager with two adapters applied is a reachable state. *)
Lemma reachable_mappings_keyed_by_name_witness : manager_ok m_two.
Proof.
  apply (@reachable_mappings_keyed_by_name _ _ _ _ QTorch m_two).
  unfold m_two, m_style.
  apply reach_apply. apply reach_apply.
  exact (reach_init two_projection_unet
                    (small_text_encoder 0%Q 4 4 1%Q None) "loras" tt tt).
Defined.
